(** * PowerGraph streaming ingress: edge decision oracle, ingress front-ends
      and the cuckoo map, embedded from the C++ sources.

    - [Double]   : IEEE 754 binary64 arithmetic of the C++ [double] scores.
    - [Oracle]   : [ingress_edge_decision.hpp] (random, greedy, HDRF).
    - [Ingress]  : [distributed_hdrf_ingress.hpp] and
                   [distributed_oblivious_ingress.hpp].
    - [Cuckoo]   : [util/cuckoo_map.hpp]. *)

From Stdlib Require Import ZArith NArith Lia List Bool.
From Stdlib Require Import Floats.SpecFloat.
From stdpp Require Import base option list gmap.

Local Open Scope Z_scope.

(** ** Machine integers *)

(** [size_t] on the 64 bit targets the sources are built for. *)
Definition size_t_modulus : Z := 2 ^ 64.

(** [++x] on a [size_t]. *)
Definition incr (x : Z) : Z := (x + 1) mod size_t_modulus.

(** ** Outcomes of code that can abort or run into undefined behaviour *)

Inductive fault :=
| EmptyRange      (* dereferencing [end()] of an empty range *)
| DivByZero       (* integer [%] by zero *)
| OutOfBounds     (* indexing past the end of a vector *)
| AssertFailed.   (* [ASSERT_LT] aborts the process *)

Inductive outcome (A : Type) :=
| Done (a : A)
| Fault (f : fault).
Arguments Done {A} a.
Arguments Fault {A} f.

#[global] Instance outcome_ret : MRet outcome := λ A a, Done a.
#[global] Instance outcome_bind : MBind outcome := λ A B k x,
  match x with
  | Done a => k a
  | Fault f => Fault f
  end.

Definition is_done {A} (x : outcome A) : bool :=
  match x with Done _ => true | Fault _ => false end.

(** ** IEEE 754 binary64 *)

Module Double.

Definition prec : Z := 53.
Definition emax : Z := 1024.

Definition double := spec_float.

Definition add : double → double → double := SFadd prec emax.
Definition sub : double → double → double := SFsub prec emax.
Definition div : double → double → double := SFdiv prec emax.
Definition fabs : double → double := SFabs.
Definition ltb : double → double → bool := SFltb.

(** Conversion of an integer ([size_t], [int], [bool] sums) to [double],
    rounding to nearest even. *)
Definition of_Z (n : Z) : double := binary_normalize prec emax n 0 false.

(** The literal [1e-5]: [0x1.4f8b588e368f1p-17]. *)
Definition tolerance : double := S754_finite false 5902958103587057 (-69).

(** The literal [1.0] held by [epsilon]. *)
Definition one : double := S754_finite false 4503599627370496 (-52).

Definition is_nan (x : double) : bool :=
  match x with S754_nan => true | _ => false end.

(** Zero or a finite non-zero number: neither NaN nor an infinity. *)
Definition is_finite (x : double) : bool :=
  match x with
  | S754_zero _ | S754_finite _ _ _ => true
  | _ => false
  end.

End Double.

(** ** graph_basic_types *)

Definition vertex_id_type := N.

(** Modelled from the spec: [procid_t] is declared outside these sources; a
    machine identifier is an unsigned integer in [[0, numMachines)], used as
    an index into the per-machine load vector. *)
Definition procid_t := nat.

(** Modelled from the spec: [fixed_dense_bitset<RPC_MAX_N_PROCS>] is declared
    outside these sources; a replica presence vector has one bit per machine,
    bit [i] set meaning that the vertex has a replica on machine [i], with
    [get], [set_bit] and [clear]. *)
Definition bin_counts_type := gset procid_t.

Module Bitset.
Definition get (b : bin_counts_type) (i : procid_t) : bool := bool_decide (i ∈ b).
Definition set_bit (b : bin_counts_type) (i : procid_t) : bin_counts_type := {[ i ]} ∪ b.
Definition clear (b : bin_counts_type) : bin_counts_type := ∅.
End Bitset.

(** ** ingress_edge_decision.hpp *)

Module Oracle.

(** The objects the deciders receive by reference live in a store; a
    reference is the key of its cell, so that two references to the same
    object alias. *)
Definition ref := N.

Definition read_bins (bins : gmap ref bin_counts_type) (r : ref) : bin_counts_type :=
  default ∅ (bins !! r).

Definition read_size_t (cells : gmap ref Z) (r : ref) : Z :=
  default 0 (cells !! r).

(** [*std::min_element(v.begin(), v.end())] on a [vector<size_t>]. *)
Definition min_element (v : list Z) : outcome Z :=
  match v with
  | [] => Fault EmptyRange
  | x :: rest => Done (fold_left Z.min rest x)
  end.

Definition max_element (v : list Z) : outcome Z :=
  match v with
  | [] => Fault EmptyRange
  | x :: rest => Done (fold_left Z.max rest x)
  end.

(** [*std::max_element] on a [vector<double>]: the candidate is replaced
    only when [largest < *it]. *)
Definition max_element_double (v : list Double.double) : outcome Double.double :=
  match v with
  | [] => Fault EmptyRange
  | x :: rest =>
      Done (fold_left (λ largest y, if Double.ltb largest y then y else largest) rest x)
  end.

(** [v[i]] *)
Definition index {A} (v : list A) (i : nat) : outcome A :=
  match v !! i with
  | Some x => Done x
  | None => Fault OutOfBounds
  end.

(** [++v[i]] *)
Definition increment (v : list Z) (i : nat) : outcome (list Z) :=
  x ← index v i; Done (<[ i := incr x ]> v).

Definition epsilon : Double.double := Double.one.

(** [(maxedges - proc_num_edges[i]) / (epsilon + maxedges - minedges)] *)
Definition balance (minedges maxedges load_i : Z) : Double.double :=
  Double.div (Double.of_Z ((maxedges - load_i) mod size_t_modulus))
    (Double.sub (Double.add epsilon (Double.of_Z maxedges)) (Double.of_Z minedges)).

(** [deg.get(i) + (usehash && (v % numprocs == i))] *)
Definition presence (usehash : bool) (numprocs : nat) (v : vertex_id_type)
    (deg : bin_counts_type) (i : procid_t) : Z :=
  Z.b2z (Bitset.get deg i) +
  Z.b2z (usehash && (v mod N.of_nat numprocs =? N.of_nat i)%N).

(** [fabs(proc_score[i] - maxscore) < 1e-5] *)
Definition tied (score maxscore : Double.double) : bool :=
  Double.ltb (Double.fabs (Double.sub score maxscore)) Double.tolerance.

(** The loop pushing every tied index [i] on [top_procs]. *)
Fixpoint top_procs_from (i : nat) (proc_score : list Double.double)
    (maxscore : Double.double) : list procid_t :=
  match proc_score with
  | [] => []
  | s :: rest =>
      if tied s maxscore
      then i :: top_procs_from (S i) rest maxscore
      else top_procs_from (S i) rest maxscore
  end.

(** [r.clear()] and [r.set_bit(p)] through a reference [r]. *)
Definition clear_at (r : ref) (bins : gmap ref bin_counts_type)
    : gmap ref bin_counts_type :=
  <[ r := Bitset.clear (read_bins bins r) ]> bins.

Definition set_bit_at (r : ref) (p : procid_t)
    (bins : gmap ref bin_counts_type) : gmap ref bin_counts_type :=
  <[ r := Bitset.set_bit (read_bins bins r) p ]> bins.

(** Loads for which the balance is computed without rounding of its
    denominator: every entry is below [2 ^ 53 - 1]. *)
Definition small_loads (v : list Z) : Prop :=
  Forall (λ x, 0 ≤ x ∧ x + 1 < 2 ^ 53) v.

(** The replica update shared by the greedy and HDRF deciders. *)
Definition place (src_degree dst_degree : ref) (userecent : bool)
    (best_proc : procid_t) (bins : gmap ref bin_counts_type)
    : gmap ref bin_counts_type :=
  let bins1 :=
    if userecent then clear_at dst_degree (clear_at src_degree bins)
    else bins in
  set_bit_at dst_degree best_proc (set_bit_at src_degree best_proc bins1).

Section WithHash.

(** [graph_hash::hash_edge] is declared outside these sources. *)
Variable hash_edge : vertex_id_type * vertex_id_type → N.

Definition edge_pair (source target : vertex_id_type)
    : vertex_id_type * vertex_id_type :=
  (N.min source target, N.max source target).

(** [graph_hash::hash_edge(edge_pair) % n] *)
Definition hash_mod (source target : vertex_id_type) (n : nat) : outcome nat :=
  if decide (n = 0%nat) then Fault DivByZero
  else Done (N.to_nat (hash_edge (edge_pair source target) mod N.of_nat n)).

Definition edge_to_proc_random (source target : vertex_id_type)
    (numprocs : nat) : outcome procid_t :=
  hash_mod source target numprocs.

Definition edge_to_proc_random_candidates (source target : vertex_id_type)
    (candidates : list procid_t) : outcome procid_t :=
  k ← hash_mod source target (length candidates); index candidates k.

Definition greedy_score (source target : vertex_id_type)
    (src_bits dst_bits : bin_counts_type) (usehash : bool)
    (numprocs : nat) (minedges maxedges : Z) (i : procid_t) (load_i : Z)
    : Double.double :=
  let sd := presence usehash numprocs source src_bits i in
  let td := presence usehash numprocs target dst_bits i in
  let bal := balance minedges maxedges load_i in
  Double.add bal (Double.of_Z (Z.b2z (0 <? sd) + Z.b2z (0 <? td))).

Definition greedy_scores (source target : vertex_id_type)
    (src_bits dst_bits : bin_counts_type) (usehash : bool)
    (proc_num_edges : list Z) (minedges maxedges : Z) : list Double.double :=
  imap (greedy_score source target src_bits dst_bits usehash
          (length proc_num_edges) minedges maxedges) proc_num_edges.

(** Whether an endpoint counts for machine [i]: its replica bit is set or,
    under [usehash], its id hashes to [i]; this is [sd > 0] of the source. *)
Definition credited (usehash : bool) (numprocs : nat) (v : vertex_id_type)
    (deg : bin_counts_type) (i : procid_t) : bool :=
  Bitset.get deg i || (usehash && (v mod N.of_nat numprocs =? N.of_nat i)%N).

(** The greedy score as the specification words it: the replica bit and,
    under [usehash], the hash hit of an endpoint each add 1 to the bonus. *)
Definition greedy_score_additive (source target : vertex_id_type)
    (src_bits dst_bits : bin_counts_type) (usehash : bool)
    (numprocs : nat) (minedges maxedges : Z) (i : procid_t) (load_i : Z)
    : Double.double :=
  Double.add (balance minedges maxedges load_i)
    (Double.of_Z (presence usehash numprocs source src_bits i
                  + presence usehash numprocs target dst_bits i)).

(** Scores, their maximum and the indices tied with it. *)
Definition greedy_top_procs (source target : vertex_id_type)
    (src_bits dst_bits : bin_counts_type) (usehash : bool)
    (proc_num_edges : list Z) : outcome (list procid_t) :=
  minedges ← min_element proc_num_edges;
  maxedges ← max_element proc_num_edges;
  let proc_score :=
    greedy_scores source target src_bits dst_bits usehash
      proc_num_edges minedges maxedges in
  maxscore ← max_element_double proc_score;
  Done (top_procs_from 0 proc_score maxscore).

(** [best_proc = top_procs[hash_edge(edge_pair) % top_procs.size()];
    ASSERT_LT(best_proc, numprocs);] *)
Definition pick_best (source target : vertex_id_type)
    (top_procs : list procid_t) (numprocs : nat) : outcome procid_t :=
  k ← hash_mod source target (length top_procs);
  best_proc ← index top_procs k;
  if decide (best_proc < numprocs)%nat then Done best_proc
  else Fault AssertFailed.

Definition edge_to_proc_greedy (source target : vertex_id_type)
    (src_degree dst_degree : ref)
    (bins : gmap ref bin_counts_type) (proc_num_edges : list Z)
    (usehash userecent : bool)
    : outcome (procid_t * gmap ref bin_counts_type * list Z) :=
  top_procs ← greedy_top_procs source target (read_bins bins src_degree)
                (read_bins bins dst_degree) usehash proc_num_edges;
  best_proc ← pick_best source target top_procs (length proc_num_edges);
  let bins' := place src_degree dst_degree userecent best_proc bins in
  proc_num_edges' ← increment proc_num_edges best_proc;
  Done (best_proc, bins', proc_num_edges').

Definition hdrf_score (source target : vertex_id_type)
    (src_bits dst_bits : bin_counts_type) (fu fv : Double.double)
    (usehash : bool) (numprocs : nat) (minedges maxedges : Z)
    (i : procid_t) (load_i : Z) : Double.double :=
  let sd := presence usehash numprocs source src_bits i in
  let td := presence usehash numprocs target dst_bits i in
  let new_sd :=
    if 0 <? sd then Double.add (Double.of_Z 1) (Double.sub (Double.of_Z 1) fu)
    else Double.of_Z 0 in
  let new_td :=
    if 0 <? td then Double.add (Double.of_Z 1) (Double.sub (Double.of_Z 1) fv)
    else Double.of_Z 0 in
  let bal := balance minedges maxedges load_i in
  Double.add (Double.add bal new_sd) new_td.

Definition hdrf_scores (source target : vertex_id_type)
    (src_bits dst_bits : bin_counts_type) (src_true dst_true : Z)
    (usehash : bool) (proc_num_edges : list Z) (minedges maxedges : Z)
    : list Double.double :=
  let degree_u := incr src_true in
  let degree_v := incr dst_true in
  let SUM := (degree_u + degree_v) mod size_t_modulus in
  let fu := Double.div (Double.of_Z degree_u) (Double.of_Z SUM) in
  let fv := Double.div (Double.of_Z degree_v) (Double.of_Z SUM) in
  imap (hdrf_score source target src_bits dst_bits fu fv usehash
          (length proc_num_edges) minedges maxedges) proc_num_edges.

(** [++src_true_degree; ++dst_true_degree;] through the two references. *)
Definition count_edge (src_true_degree dst_true_degree : ref)
    (degs : gmap ref Z) : gmap ref Z :=
  let degs1 := <[ src_true_degree := incr (read_size_t degs src_true_degree) ]> degs in
  <[ dst_true_degree := incr (read_size_t degs1 dst_true_degree) ]> degs1.

Definition hdrf_top_procs (source target : vertex_id_type)
    (src_bits dst_bits : bin_counts_type) (src_true dst_true : Z)
    (usehash : bool) (proc_num_edges : list Z) : outcome (list procid_t) :=
  minedges ← min_element proc_num_edges;
  maxedges ← max_element proc_num_edges;
  let proc_score :=
    hdrf_scores source target src_bits dst_bits src_true dst_true
      usehash proc_num_edges minedges maxedges in
  maxscore ← max_element_double proc_score;
  Done (top_procs_from 0 proc_score maxscore).

Definition edge_to_proc_hdrf (source target : vertex_id_type)
    (src_degree dst_degree src_true_degree dst_true_degree : ref)
    (bins : gmap ref bin_counts_type) (degs : gmap ref Z)
    (proc_num_edges : list Z) (usehash userecent : bool)
    : outcome (procid_t * gmap ref bin_counts_type * gmap ref Z * list Z) :=
  top_procs ← hdrf_top_procs source target (read_bins bins src_degree)
                (read_bins bins dst_degree)
                (read_size_t degs src_true_degree)
                (read_size_t degs dst_true_degree) usehash proc_num_edges;
  best_proc ← pick_best source target top_procs (length proc_num_edges);
  let bins' := place src_degree dst_degree userecent best_proc bins in
  proc_num_edges' ← increment proc_num_edges best_proc;
  let degs' := count_edge src_true_degree dst_true_degree degs in
  Done (best_proc, bins', degs', proc_num_edges').

(** The restricted greedy decider: the scores of the machines listed in
    [candidates], [proc_score[j]] being that of machine [candidates[j]]. *)
Fixpoint greedy_scores_candidates (source target : vertex_id_type)
    (src_bits dst_bits : bin_counts_type) (usehash : bool)
    (candidates : list procid_t) (proc_num_edges : list Z)
    (minedges maxedges : Z) : outcome (list Double.double) :=
  match candidates with
  | [] => Done []
  | i :: rest =>
      load_i ← index proc_num_edges i;
      scores ← greedy_scores_candidates source target src_bits dst_bits
                 usehash rest proc_num_edges minedges maxedges;
      Done (greedy_score source target src_bits dst_bits usehash
              (length proc_num_edges) minedges maxedges i load_i :: scores)
  end.

(** The loop pushing [candidates[j]] on [top_procs] for every tied [j]. *)
Fixpoint top_candidates (candidates : list procid_t)
    (proc_score : list Double.double) (maxscore : Double.double)
    : list procid_t :=
  match candidates, proc_score with
  | i :: cs, s :: rest =>
      if tied s maxscore
      then i :: top_candidates cs rest maxscore
      else top_candidates cs rest maxscore
  | _, _ => []
  end.

Definition edge_to_proc_greedy_candidates (source target : vertex_id_type)
    (src_degree dst_degree : ref)
    (bins : gmap ref bin_counts_type) (candidates : list procid_t)
    (proc_num_edges : list Z) (usehash userecent : bool)
    : outcome (procid_t * gmap ref bin_counts_type * list Z) :=
  minedges ← min_element proc_num_edges;
  maxedges ← max_element proc_num_edges;
  proc_score ← greedy_scores_candidates source target
                 (read_bins bins src_degree) (read_bins bins dst_degree)
                 usehash candidates proc_num_edges minedges maxedges;
  maxscore ← max_element_double proc_score;
  let top_procs := top_candidates candidates proc_score maxscore in
  best_proc ← pick_best source target top_procs (length proc_num_edges);
  let bins' := place src_degree dst_degree userecent best_proc bins in
  proc_num_edges' ← increment proc_num_edges best_proc;
  Done (best_proc, bins', proc_num_edges').

End WithHash.

End Oracle.

(** ** Ingress front-ends *)

(** Modelled from the spec: [cuckoo_map_pow2], the Degree/Replica Table of the
    front-ends, is declared outside these sources; lookup-or-default returns
    the existing entry or inserts a zero-valued one, and [clear] empties the
    table.  A reference to the entry of a vertex is its key.  This is the
    contract of the table for the keys a caller may use: the table is built
    with an illegal key, [illegal_vertex] below, that it must never be asked
    for, and what it does when asked for that key is not modelled. *)
Definition lookup_or_default {V} (zero : V) (key : vertex_id_type)
    (table : gmap vertex_id_type V) : gmap vertex_id_type V :=
  match table !! key with
  | Some _ => table
  | None => <[ key := zero ]> table
  end.

(** The record handed to [edge_exchange.send]. *)
Record edge_buffer_record (EdgeData : Type) := {
  source : vertex_id_type;
  target : vertex_id_type;
  edata : EdgeData
}.
Arguments source {EdgeData} _.
Arguments target {EdgeData} _.
Arguments edata {EdgeData} _.





(** [distributed_hdrf_ingress.hpp] *)
Module HdrfIngress.

Record distributed_hdrf_ingress := {
  dht : gmap vertex_id_type bin_counts_type;
  degree_dht : gmap vertex_id_type Z;
  proc_num_edges : list Z;
  usehash : bool;
  userecent : bool
}.

(** The constructor: empty tables and [proc_num_edges(dc.numprocs())]. *)
Definition construct (numprocs : nat) (usehash userecent : bool)
    : distributed_hdrf_ingress :=
  {| dht := ∅; degree_dht := ∅; proc_num_edges := replicate numprocs 0;
     usehash := usehash; userecent := userecent |}.

Section WithHash.

Variable hash_edge : vertex_id_type * vertex_id_type → N.
Context {EdgeData : Type}.

(** [add_edge]: the new state and the message [(owning_proc, record)] given
    to the transport. *)
Definition add_edge (st : distributed_hdrf_ingress)
    (source target : vertex_id_type) (edata : EdgeData)
    : outcome (distributed_hdrf_ingress * (procid_t * edge_buffer_record EdgeData)) :=
  let dht1 := lookup_or_default ∅ target (lookup_or_default ∅ source (dht st)) in
  let degree_dht1 :=
    lookup_or_default 0 target (lookup_or_default 0 source (degree_dht st)) in
  '(owning_proc, dht', degree_dht', proc_num_edges') ←
    Oracle.edge_to_proc_hdrf hash_edge source target source target
      source target dht1 degree_dht1 (proc_num_edges st)
      (usehash st) (userecent st);
  Done ({| dht := dht'; degree_dht := degree_dht';
           proc_num_edges := proc_num_edges';
           usehash := usehash st; userecent := userecent st |},
        (owning_proc,
         {| source := source; target := target; edata := edata |})).

(** Sequential [add_edge] calls, with the messages sent, oldest first. *)
Fixpoint add_edges (st : distributed_hdrf_ingress)
    (edges : list (vertex_id_type * vertex_id_type * EdgeData))
    : outcome (distributed_hdrf_ingress * list (procid_t * edge_buffer_record EdgeData)) :=
  match edges with
  | [] => Done (st, [])
  | (source, target, edata) :: rest =>
      '(st1, msg) ← add_edge st source target edata;
      '(st2, msgs) ← add_edges st1 rest;
      Done (st2, msg :: msgs)
  end.

End WithHash.

(** [finalize]: both tables are cleared, the base ingress (declared outside
    these sources) builds the graph, and the entries of [proc_num_edges] are
    added up in a [size_t]; the result is the state left behind and the count
    written to the log. *)
Definition finalize (st : distributed_hdrf_ingress)
    : distributed_hdrf_ingress * Z :=
  ({| dht := ∅; degree_dht := ∅; proc_num_edges := proc_num_edges st;
      usehash := usehash st; userecent := userecent st |},
   fold_left (λ count x, (count + x) mod size_t_modulus) (proc_num_edges st) 0).

(** The count as the specification words it: the edges decided on all the
    machines of the cluster, one ingress instance per machine. *)
Definition cluster_total (cluster : list distributed_hdrf_ingress) : Z :=
  foldr (λ st total, foldr Z.add 0 (proc_num_edges st) + total) 0 cluster.

End HdrfIngress.

(** [distributed_oblivious_ingress.hpp] *)
Module ObliviousIngress.

Record distributed_oblivious_ingress := {
  dht : gmap vertex_id_type bin_counts_type;
  proc_num_edges : list Z;
  usehash : bool;
  userecent : bool
}.

Definition construct (numprocs : nat) (usehash userecent : bool)
    : distributed_oblivious_ingress :=
  {| dht := ∅; proc_num_edges := replicate numprocs 0;
     usehash := usehash; userecent := userecent |}.

Section WithHash.

Variable hash_edge : vertex_id_type * vertex_id_type → N.
Context {EdgeData : Type}.

(** [add_edge], the whole decision under [obliv_lock]. *)
Definition add_edge (st : distributed_oblivious_ingress)
    (source target : vertex_id_type) (edata : EdgeData)
    : outcome (distributed_oblivious_ingress * (procid_t * edge_buffer_record EdgeData)) :=
  let dht1 := lookup_or_default ∅ target (lookup_or_default ∅ source (dht st)) in
  '(owning_proc, dht', proc_num_edges') ←
    Oracle.edge_to_proc_greedy hash_edge source target source target
      dht1 (proc_num_edges st) (usehash st) (userecent st);
  Done ({| dht := dht'; proc_num_edges := proc_num_edges';
           usehash := usehash st; userecent := userecent st |},
        (owning_proc,
         {| source := source; target := target; edata := edata |})).

Fixpoint add_edges (st : distributed_oblivious_ingress)
    (edges : list (vertex_id_type * vertex_id_type * EdgeData))
    : outcome (distributed_oblivious_ingress * list (procid_t * edge_buffer_record EdgeData)) :=
  match edges with
  | [] => Done (st, [])
  | (source, target, edata) :: rest =>
      '(st1, msg) ← add_edge st source target edata;
      '(st2, msgs) ← add_edges st1 rest;
      Done (st2, msg :: msgs)
  end.

End WithHash.

Definition finalize (st : distributed_oblivious_ingress)
    : distributed_oblivious_ingress :=
  {| dht := ∅; proc_num_edges := proc_num_edges st;
     usehash := usehash st; userecent := userecent st |}.

End ObliviousIngress.

(** ** util/cuckoo_map.hpp *)

Module Cuckoo.

(** Arithmetic on [size_t] wraps around. *)
Definition wrap (x : Z) : Z := x mod size_t_modulus.

(** Bob Jenkins' integer mix, on a [size_t]. *)
Definition mix (state : Z) : Z :=
  let state := wrap (state + wrap (Z.shiftl state 12)) in
  let state := Z.lxor state (Z.shiftr state 22) in
  let state := wrap (state + wrap (Z.shiftl state 4)) in
  let state := Z.lxor state (Z.shiftr state 9) in
  let state := wrap (state + wrap (Z.shiftl state 10)) in
  let state := Z.lxor state (Z.shiftr state 2) in
  let state := wrap (state + wrap (Z.shiftl state 7)) in
  let state := Z.lxor state (Z.shiftr state 12) in
  state.

(** The table [a] of [compute_hash], 64 bit variant. *)
Definition a : list Z :=
  [ 0x6306AA9DFC13C8E7; 0xA8CD7FBCA2A9FFD4; 0x40D341EB597ECDDC;
    0x99CFA1168AF8DA7E; 0x7C55BCC3AF531D42; 0x1BC49DB0842A21DD;
    0x2181F03B1DEE299F; 0xD524D92CBFEC63E9 ].

(** [compute_hash(k, seed)] with [IndexType = size_t]: the value of
    [mix(a[seed] ^ k) % datalen] for [seed < 8] and [0 < datalen], where the
    source defines one.  For [seed >= 8] the source reads past [a], and for
    [datalen = 0], the length a self-assignment leaves, it divides by zero;
    this definition gives a number there as well, which stands for nothing in
    the source, and [Probe.compute_hash] below is the function with these two
    faults.  The constructor, [insert], [erase], [clear] and [reserve] keep
    [0 < datalen]. *)
Definition compute_hash (datalen : nat) (k : Z) (seed : nat) : Z :=
  mix (Z.lxor (nth seed a 0) k) mod Z.of_nat datalen.

(** [(index_type)(-1)] *)
Definition npos : Z := size_t_modulus - 1.

(** [datalen * 1.5] converted back to [size_t]; the product is exact and the
    conversion truncates, for every length below [2^52]. *)
Definition grow (datalen : nat) : nat := (datalen * 3 / 2)%nat.

(** An iterator is in the main vector, at an index, or in the stash, at a
    position of its iteration order ([size] of the stash for [stash.end()]). *)
Inductive iterator :=
| VecIter (vec_iter : Z)
| StashIter (stash_iter : nat).

#[global] Instance iterator_eq_dec : EqDecision iterator.
Proof. solve_decision. Defined.

Section CuckooMap.

Context `{Countable Key} {Value Rng : Type}.

(** The template parameter [CuckooK], [mapped_type()], the hasher
    [boost::hash<Key>] and one draw of [kranddist(drng)], a
    [boost::uniform_int] over [[0, CuckooK - 1]] on a [boost::rand48]. *)
Variable CuckooK : nat.
Variable mapped_type_zero : Value.
Variable hashfun : Key → Z.
Variable kranddist : Rng → nat * Rng.

Record cuckoo_map := {
  illegalkey : Key;
  numel : Z;
  maxstash : Z;
  data : list (Key * Value);
  stash : gmap Key Value;
  drng : Rng
}.

Definition datalen (m : cuckoo_map) : nat := length (data m).

Definition set_numel (n : Z) (m : cuckoo_map) : cuckoo_map :=
  {| illegalkey := illegalkey m; numel := n; maxstash := maxstash m;
     data := data m; stash := stash m; drng := drng m |}.

Definition set_data (d : list (Key * Value)) (m : cuckoo_map) : cuckoo_map :=
  {| illegalkey := illegalkey m; numel := numel m; maxstash := maxstash m;
     data := d; stash := stash m; drng := drng m |}.

Definition set_stash (s : gmap Key Value) (m : cuckoo_map) : cuckoo_map :=
  {| illegalkey := illegalkey m; numel := numel m; maxstash := maxstash m;
     data := data m; stash := s; drng := drng m |}.

Definition set_drng (r : Rng) (m : cuckoo_map) : cuckoo_map :=
  {| illegalkey := illegalkey m; numel := numel m; maxstash := maxstash m;
     data := data m; stash := stash m; drng := r |}.

(** [data[idx]] for an index of the vector.  An index outside of it, which
    the source would read out of bounds, reads as a free slot here; the
    indices [compute_hash] gives for [0 < datalen] are inside. *)
Definition slot (m : cuckoo_map) (idx : Z) : Key * Value :=
  default (illegalkey m, mapped_type_zero) (data m !! Z.to_nat idx).

(** [replace_in_vector(data_begin() + idx, key, val)] *)
Definition replace_in_vector (idx : Z) (v : Key * Value) (m : cuckoo_map)
    : cuckoo_map :=
  set_data (<[ Z.to_nat idx := v ]> (data m)) m.

(** [stash.find(k)], as a position. *)
Definition stash_find (s : gmap Key Value) (k : Key) : nat :=
  match list_find (λ e, e.1 = k) (map_to_list s) with
  | Some (pos, _) => pos
  | None => size s
  end.

(** [stash.insert(v)]: an entry with the same key is kept. *)
Definition stash_insert (v : Key * Value) (s : gmap Key Value)
    : gmap Key Value :=
  match s !! v.1 with
  | Some _ => s
  | None => <[ v.1 := v.2 ]> s
  end.

(** The probe of the [CuckooK] candidate slots of a key: the first slot
    holding [k], if any. *)
Fixpoint find_slot (m : cuckoo_map) (k : Key) (hash_of_k : Z) (seeds : list nat)
    : option Z :=
  match seeds with
  | [] => None
  | i :: rest =>
      let idx := compute_hash (datalen m) hash_of_k i in
      if decide ((slot m idx).1 = k) then Some idx
      else find_slot m k hash_of_k rest
  end.

Definition end_ (m : cuckoo_map) : iterator := StashIter (size (stash m)).

Definition find (m : cuckoo_map) (k : Key) : iterator :=
  match find_slot m k (hashfun k) (seq 0 CuckooK) with
  | Some idx => VecIter idx
  | None => StashIter (stash_find (stash m) k)
  end.

Definition count (m : cuckoo_map) (k : Key) : bool :=
  match find_slot m k (hashfun k) (seq 0 CuckooK) with
  | Some _ => true
  | None => bool_decide (is_Some (stash m !! k))
  end.

(** [*iter] *)
Definition deref (m : cuckoo_map) (iter : iterator) : option (Key * Value) :=
  match iter with
  | VecIter idx => data m !! Z.to_nat idx
  | StashIter pos => map_to_list (stash m) !! pos
  end.

(** Assignment through the reference [iter->second]. *)
Definition assign (m : cuckoo_map) (iter : iterator) (x : Value) : cuckoo_map :=
  match iter with
  | VecIter idx =>
      match data m !! Z.to_nat idx with
      | Some (k, _) => replace_in_vector idx (k, x) m
      | None => m
      end
  | StashIter pos =>
      match map_to_list (stash m) !! pos with
      | Some (k, _) => set_stash (<[ k := x ]> (stash m)) m
      | None => m
      end
  end.

(** The inner loop of [do_insert]: the last index computed and [found]. *)
Fixpoint probe_free (m : cuckoo_map) (hash_of_k : Z) (seeds : list nat)
    (idx : Z) : Z * bool :=
  match seeds with
  | [] => (idx, false)
  | j :: rest =>
      let idx := compute_hash (datalen m) hash_of_k j in
      if decide ((slot m idx).1 = illegalkey m) then (idx, true)
      else probe_free m hash_of_k rest idx
  end.

(** The random walk of [do_insert], [steps] rounds of it, then the stash. *)
Fixpoint random_walk (steps : nat) (v : Key * Value) (insertpos : Z)
    (m : cuckoo_map) : cuckoo_map * iterator :=
  match steps with
  | O =>
      let m' := set_stash (stash_insert v (stash m)) m in
      if decide (insertpos = npos)
      then (m', StashIter (stash_find (stash m') v.1))
      else (m', VecIter insertpos)
  | S steps' =>
      let hash_of_k := hashfun v.1 in
      let '(idx, found) := probe_free m hash_of_k (seq 0 CuckooK) 0 in
      let '(idx, m) :=
        if found then (idx, m)
        else
          let '(j, r) := kranddist (drng m) in
          (compute_hash (datalen m) hash_of_k j, set_drng r m) in
      let insertpos :=
        if decide (insertpos = npos) then idx
        else if decide (insertpos = idx) then npos
        else insertpos in
      if found || bool_decide ((slot m idx).1 = illegalkey m) then
        (replace_in_vector idx v m, VecIter insertpos)
      else
        let tmp := slot m idx in
        random_walk steps' tmp insertpos (replace_in_vector idx v m)
  end.

(** [insert], over the [do_insert] it calls. *)
Definition insert_with
    (do_insert : Key * Value → cuckoo_map → option (cuckoo_map * iterator))
    (v : Key * Value) (m : cuckoo_map)
    : option (cuckoo_map * iterator * bool) :=
  let i := find m v.1 in
  if decide (i = end_ m) then
    '(m', iter) ← do_insert v m; Some (m', iter, true)
  else Some (m, i, false).

(** The first loop of [rehash], from index [i] on; [datalen] is read again
    at every round. *)
Fixpoint rehash_data
    (do_insert : Key * Value → cuckoo_map → option (cuckoo_map * iterator))
    (gas : nat) (i : nat) (m : cuckoo_map) : option cuckoo_map :=
  match gas with
  | O => None
  | S gas' =>
      if decide (i < datalen m)%nat then
        let v := slot m (Z.of_nat i) in
        if decide (v.1 = illegalkey m) then rehash_data do_insert gas' (S i) m
        else if count m v.1 then rehash_data do_insert gas' (S i) m
        else
          let m1 :=
            set_numel (wrap (numel m - 1))
              (replace_in_vector (Z.of_nat i) (illegalkey m, mapped_type_zero) m) in
          '(m2, _, _) ← insert_with do_insert v m1;
          rehash_data do_insert gas' (S i) m2
      else Some m
  end.

(** The second loop of [rehash], over the entries taken out of the stash. *)
Fixpoint rehash_stash
    (do_insert : Key * Value → cuckoo_map → option (cuckoo_map * iterator))
    (stmp : list (Key * Value)) (m : cuckoo_map) : option cuckoo_map :=
  match stmp with
  | [] => Some m
  | v :: rest =>
      '(m1, _, _) ← insert_with do_insert v m;
      rehash_stash do_insert rest m1
  end.

Definition rehash
    (do_insert : Key * Value → cuckoo_map → option (cuckoo_map * iterator))
    (gas : nat) (m : cuckoo_map) : option cuckoo_map :=
  let stmp := stash m in
  let m1 := set_numel (wrap (numel m - Z.of_nat (size stmp))) (set_stash ∅ m) in
  m2 ← rehash_data do_insert gas 0 m1;
  rehash_stash do_insert (map_to_list stmp) m2.

(** [reserve(newlen)]: the array is reallocated, the new slots hold the
    illegal key, and the table is rehashed. *)
Definition reserve
    (do_insert : Key * Value → cuckoo_map → option (cuckoo_map * iterator))
    (gas : nat) (newlen : nat) (m : cuckoo_map) : option cuckoo_map :=
  rehash do_insert gas
    (set_data (resize newlen (illegalkey m, mapped_type_zero) (data m)) m).

(** [do_insert].  [fuel] bounds the nesting of [reserve] inside [rehash]
    inside [reserve], and the rounds of the loop over the array; [None] is
    the model running out of it. *)
Fixpoint do_insert (fuel : nat) (v_ : Key * Value) (m : cuckoo_map)
    : option (cuckoo_map * iterator) :=
  match fuel with
  | O => None
  | S fuel' =>
      m1 ← (if decide (maxstash m < Z.of_nat (size (stash m)))
            then reserve (do_insert fuel') fuel' (grow (datalen m)) m
            else Some m);
      Some (random_walk 100 v_ npos (set_numel (wrap (numel m1 + 1)) m1))
  end.

Definition insert (fuel : nat) (v : Key * Value) (m : cuckoo_map)
    : option (cuckoo_map * iterator * bool) :=
  insert_with (do_insert fuel) v m.

(** The constructor, [stashsize] defaulting to 8 in the source. *)
Definition construct (fuel : nat) (illegalkey : Key) (stashsize : Z)
    (seed : Rng) : option cuckoo_map :=
  reserve (do_insert fuel) fuel 128
    {| illegalkey := illegalkey; numel := 0; maxstash := stashsize;
       data := []; stash := ∅; drng := seed |}.

(** The table the constructor leaves behind: 128 slots holding the illegal
    key and an empty stash. *)
Definition fresh (illegalkey : Key) (stashsize : Z) (seed : Rng) : cuckoo_map :=
  {| illegalkey := illegalkey; numel := 0; maxstash := stashsize;
     data := replicate 128 (illegalkey, mapped_type_zero);
     stash := ∅; drng := seed |}.

(** [erase(iterator)] *)
Definition erase_iter (m : cuckoo_map) (iter : iterator) : cuckoo_map :=
  match iter with
  | VecIter idx =>
      if decide ((slot m idx).1 = illegalkey m) then m
      else
        set_numel (wrap (numel m - 1))
          (replace_in_vector idx (illegalkey m, mapped_type_zero) m)
  | StashIter pos =>
      match map_to_list (stash m) !! pos with
      | Some (k, _) =>
          set_stash (delete k (stash m)) (set_numel (wrap (numel m - 1)) m)
      | None => m
      end
  end.

(** [erase(key)] *)
Definition erase (m : cuckoo_map) (k : Key) : cuckoo_map :=
  let iter := find m k in
  if decide (iter = end_ m) then m else erase_iter m iter.

(** [operator[]]: the table and the iterator whose [second] is returned by
    reference. *)
Definition subscript (fuel : nat) (i : Key) (m : cuckoo_map)
    : option (cuckoo_map * iterator) :=
  let iter := find m i in
  if decide (iter = end_ m) then do_insert fuel (i, mapped_type_zero) m
  else Some (m, iter).

(** [clear()] *)
Definition clear (fuel : nat) (m : cuckoo_map) : option cuckoo_map :=
  reserve (do_insert fuel) fuel 128
    (set_numel 0 (set_stash ∅ (set_data [] m))).

(** The index of the first slot at or after [i] that does not hold the
    illegal key, or [datalen]: the [while] loop of [begin] and [operator++]. *)
Definition first_live_from (m : cuckoo_map) (i : nat) : nat :=
  match list_find (λ e, e.1 ≠ illegalkey m) (drop i (data m)) with
  | Some (j, _) => (i + j)%nat
  | None => datalen m
  end.

Definition vec_or_stash (m : cuckoo_map) (i : nat) : iterator :=
  if decide (i = datalen m) then StashIter 0 else VecIter (Z.of_nat i).

Definition begin (m : cuckoo_map) : iterator :=
  vec_or_stash m (first_live_from m 0).

(** [operator++] *)
Definition next (m : cuckoo_map) (iter : iterator) : iterator :=
  match iter with
  | VecIter idx => vec_or_stash m (first_live_from m (S (Z.to_nat idx)))
  | StashIter pos =>
      if decide (pos = size (stash m)) then iter else StashIter (S pos)
  end.

(** [for (it = begin(); it != end(); ++it)], collecting [*it]. *)
Fixpoint iterate (gas : nat) (m : cuckoo_map) (iter : iterator)
    : list (Key * Value) :=
  match gas with
  | O => []
  | S gas' =>
      if decide (iter = end_ m) then []
      else
        match deref m iter with
        | Some e => e :: iterate gas' m (next m iter)
        | None => []
        end
  end.

Definition elements (m : cuckoo_map) : list (Key * Value) :=
  iterate (S (datalen m + size (stash m))) m (begin m).

(** *** What a table holds, and the invariants of its representation *)

(** The entries of the main vector that are in use. *)
Definition live (m : cuckoo_map) : list (Key * Value) :=
  filter (λ e, e.1 ≠ illegalkey m) (data m).

(** All the entries, those of the vector first. *)
Definition entries (m : cuckoo_map) : list (Key * Value) :=
  live m ++ map_to_list (stash m).

(** The [CuckooK] candidate slots of a key. *)
Definition candidates (m : cuckoo_map) (k : Key) : list Z :=
  (λ j, compute_hash (datalen m) (hashfun k) j) <$> seq 0 CuckooK.

(** Slot [i] is free or holds an entry at one of its candidate slots. *)
Definition placed (m : cuckoo_map) (i : nat) : Prop :=
  ∀ e, data m !! i = Some e → e.1 ≠ illegalkey m →
       Z.of_nat i ∈ candidates m e.1.

(** Keys are unique over the vector and the stash, the stash does not hold
    the illegal key, and [numel] counts the entries. *)
Definition consistent (m : cuckoo_map) : Prop :=
  (0 < datalen m)%nat
  ∧ NoDup (entries m).*1
  ∧ stash m !! illegalkey m = None
  ∧ numel m = wrap (Z.of_nat (length (entries m))).

(** The invariant between operations: moreover, every entry of the vector
    sits at a candidate slot of its key. *)
Definition well_formed (m : cuckoo_map) : Prop :=
  consistent m ∧ ∀ i, placed m i.

(** Two tables that differ in the state of the generator only. *)
Definition same_table (m0 m : cuckoo_map) : Prop :=
  data m0 = data m ∧ stash m0 = stash m ∧ illegalkey m0 = illegalkey m
  ∧ numel m0 = numel m ∧ maxstash m0 = maxstash m.

(** [m'] is a consistent table with the parameters of [m] and a vector at
    least as long. *)
Definition grown (m m' : cuckoo_map) : Prop :=
  consistent m' ∧ illegalkey m' = illegalkey m ∧ maxstash m' = maxstash m
  ∧ (datalen m ≤ datalen m')%nat.

(** [m'] holds the entries of [m] and [v]; either the vector kept its length
    and the slots that were well placed still are, or all of them are. *)
Definition inserted (v : Key * Value) (m m' : cuckoo_map) : Prop :=
  grown m m' ∧ entries m' ≡ₚ v :: entries m
  ∧ ((datalen m' = datalen m ∧ ∀ i, placed m i → placed m' i)
     ∨ ∀ i, placed m' i).

(** [m'] holds the entries of [m], each at a candidate slot or in the
    stash. *)
Definition rehashed (m m' : cuckoo_map) : Prop :=
  grown m m' ∧ entries m' ≡ₚ entries m ∧ ∀ i, placed m' i.

(** A client loop: [insert] called on every entry of a list, in order. *)
Fixpoint insert_all (fuel : nat) (vs : list (Key * Value)) (m : cuckoo_map)
    : option cuckoo_map :=
  match vs with
  | [] => Some m
  | v :: rest =>
      '(m1, _, _) ← insert fuel v m;
      insert_all fuel rest m1
  end.

(** The invariant as a check that can be run on a table. *)
Definition placedb (m : cuckoo_map) : bool :=
  forallb (λ ie : nat * (Key * Value),
             bool_decide (ie.2.1 = illegalkey m)
             || bool_decide (Z.of_nat ie.1 ∈ candidates m ie.2.1))
    (zip (seq 0 (datalen m)) (data m)).

Definition well_formedb (m : cuckoo_map) : bool :=
  bool_decide (0 < datalen m)%nat
  && bool_decide (NoDup (entries m).*1)
  && negb (bool_decide (is_Some (stash m !! illegalkey m)))
  && bool_decide (numel m = wrap (Z.of_nat (length (entries m))))
  && placedb m.

(** [destroy_all()]: the vector is freed and the stash emptied. *)
Definition destroy_all (m : cuckoo_map) : cuckoo_map :=
  {| illegalkey := illegalkey m; numel := 0; maxstash := maxstash m;
     data := []; stash := ∅; drng := drng m |}.

(** [operator=] on two distinct tables: the vector, the stash, [illegalkey]
    and [numel] are those of [other]; [maxstash] and the generator are not
    assigned. *)
Definition copy_assign (this other : cuckoo_map) : cuckoo_map :=
  let this := destroy_all this in
  {| illegalkey := illegalkey other; numel := numel other;
     maxstash := maxstash this; data := data other; stash := stash other;
     drng := drng this |}.

(** [operator=] of a table to itself: [other] is [*this], read after
    [destroy_all()]. *)
Definition self_assign (this : cuckoo_map) : cuckoo_map :=
  let this := destroy_all this in
  {| illegalkey := illegalkey this; numel := numel this;
     maxstash := maxstash this; data := data this; stash := stash this;
     drng := drng this |}.

(** [size()] *)
Definition size (m : cuckoo_map) : Z := numel m.

End CuckooMap.

End Cuckoo.

(** ** The probe of [find] and [count], with the faults of the source

    [find] and [count] above are the results of the probe on a table whose
    vector has a slot.  Here the probe is written with what the source
    leaves undefined: [a[seed]] past the eight entries of [a], [% datalen] on
    a vector without a slot, and [data[idx]] outside the vector. *)
Module Probe.

(** [compute_hash(k, seed)]: [a[seed]] is read, then [s % datalen] taken. *)
Definition compute_hash (datalen : nat) (k : Z) (seed : nat) : outcome Z :=
  a_seed ← Oracle.index Cuckoo.a seed;
  if decide (datalen = 0%nat) then Fault DivByZero
  else Done (Cuckoo.mix (Z.lxor a_seed k) mod Z.of_nat datalen).

Section Probe.

Context `{Countable Key} {Value Rng : Type}.
Variable CuckooK : nat.
Variable hashfun : Key → Z.

Notation cuckoo_map :=
  (Cuckoo.cuckoo_map (Key := Key) (Value := Value) (Rng := Rng)).

(** The loop over the seeds [0 .. CuckooK - 1]: the index of the first
    candidate slot holding [k], if any. *)
Fixpoint find_slot (m : cuckoo_map) (k : Key) (hash_of_k : Z)
    (seeds : list nat) : outcome (option Z) :=
  match seeds with
  | [] => Done None
  | i :: rest =>
      idx ← compute_hash (Cuckoo.datalen m) hash_of_k i;
      e ← Oracle.index (Cuckoo.data m) (Z.to_nat idx);
      if decide (e.1 = k) then Done (Some idx)
      else find_slot m k hash_of_k rest
  end.

Definition find (m : cuckoo_map) (k : Key) : outcome Cuckoo.iterator :=
  found ← find_slot m k (hashfun k) (seq 0 CuckooK);
  match found with
  | Some idx => Done (Cuckoo.VecIter idx)
  | None => Done (Cuckoo.StashIter (Cuckoo.stash_find (Cuckoo.stash m) k))
  end.

Definition count (m : cuckoo_map) (k : Key) : outcome bool :=
  found ← find_slot m k (hashfun k) (seq 0 CuckooK);
  match found with
  | Some _ => Done true
  | None => Done (bool_decide (is_Some (Cuckoo.stash m !! k)))
  end.

End Probe.

End Probe.

(** ** Notions used to reason on binary64 rounding *)

(** The mantissa and exponent after [shr] by [n]. *)
Definition rshift (m n : Z) : Z := if 0 <? n then m / 2 ^ n else m.
Definition eshift (e n : Z) : Z := if 0 <? n then e + n else e.

(** Zero or finite, of magnitude below [2 ^ K]. *)
Definition bounded_by (K : Z) (x : spec_float) : Prop :=
  match x with
  | S754_zero _ => True
  | S754_finite _ m e => Zpos (digits2_pos m) + e ≤ K
  | _ => False
  end.

(** The binary64 representation of a positive integer of at most 53 bits. *)
Definition canon (s : bool) (z : positive) : spec_float :=
  S754_finite s (shl_align z 0 (Zpos (digits2_pos z) - 53)).1
    (Zpos (digits2_pos z) - 53).


(** * Facts on binary64 rounding *)

Section Digits.

Lemma digits2_pos_bounds (p : positive) :
  2 ^ (Zpos (digits2_pos p) - 1) ≤ Zpos p < 2 ^ Zpos (digits2_pos p).
Proof.
  induction p as [p IH|p IH|]; cbn [digits2_pos].
  - rewrite Pos2Z.inj_succ.
    replace (Z.succ (Zpos (digits2_pos p)) - 1) with (Z.succ (Zpos (digits2_pos p) - 1)) by lia.
    rewrite !Z.pow_succ_r by lia. lia.
  - rewrite Pos2Z.inj_succ.
    replace (Z.succ (Zpos (digits2_pos p)) - 1) with (Z.succ (Zpos (digits2_pos p) - 1)) by lia.
    rewrite !Z.pow_succ_r by lia. lia.
  - cbn. lia.
Qed.

Lemma Zdigits2_nonneg (m : Z) : 0 ≤ Zdigits2 m.
Proof. destruct m; cbn; lia. Qed.

Lemma Zdigits2_bounds (m : Z) :
  0 < m → 2 ^ (Zdigits2 m - 1) ≤ m < 2 ^ Zdigits2 m.
Proof. destruct m as [|p|p]; try lia. intros _. apply digits2_pos_bounds. Qed.

Lemma Zdigits2_unique (m k : Z) :
  2 ^ (k - 1) ≤ m < 2 ^ k → 0 < m → Zdigits2 m = k.
Proof.
  intros Hk Hm. pose proof (Zdigits2_bounds m Hm) as Hd.
  pose proof (Zdigits2_nonneg m).
  destruct (Z.lt_trichotomy (Zdigits2 m) k) as [Hlt|[Heq|Hgt]]; [|done|].
  - assert (2 ^ Zdigits2 m ≤ 2 ^ (k - 1)) by (apply Z.pow_le_mono_r; lia). lia.
  - assert (2 ^ k ≤ 2 ^ (Zdigits2 m - 1)) by (apply Z.pow_le_mono_r; lia). lia.
Qed.

(** [Zdigits2 m ≤ k] says [m < 2 ^ k]. *)
Lemma Zdigits2_le_iff (m k : Z) :
  0 ≤ m → 0 ≤ k → Zdigits2 m ≤ k ↔ m < 2 ^ k.
Proof.
  intros Hm Hk. destruct (decide (m = 0)) as [->|Hne].
  { cbn. split; [intros _; apply Z.pow_pos_nonneg; lia | lia]. }
  pose proof (Zdigits2_bounds m ltac:(lia)) as Hd.
  pose proof (Zdigits2_nonneg m). split.
  - intros Hle. assert (2 ^ Zdigits2 m ≤ 2 ^ k) by (apply Z.pow_le_mono_r; lia). lia.
  - intros Hlt. destruct (decide (Zdigits2 m ≤ k)) as [|Hgt]; [done|].
    assert (2 ^ k ≤ 2 ^ (Zdigits2 m - 1)) by (apply Z.pow_le_mono_r; lia). lia.
Qed.

Lemma Zdigits2_mono (a b : Z) : 0 ≤ a ≤ b → Zdigits2 a ≤ Zdigits2 b.
Proof.
  intros Hab. pose proof (Zdigits2_nonneg b).
  apply Zdigits2_le_iff; [lia..|].
  destruct (decide (b = 0)) as [->|Hb].
  - assert (a = 0) as -> by lia. cbn. lia.
  - pose proof (Zdigits2_bounds b ltac:(lia)). lia.
Qed.

Lemma Zdigits2_succ (m : Z) : 0 ≤ m → Zdigits2 (m + 1) ≤ Zdigits2 m + 1.
Proof.
  intros Hm. pose proof (Zdigits2_nonneg m).
  apply Zdigits2_le_iff; [lia..|].
  rewrite Z.pow_add_r by lia.
  destruct (decide (m = 0)) as [->|Hne]; [cbn; lia|].
  pose proof (Zdigits2_bounds m ltac:(lia)). lia.
Qed.

Lemma Zdigits2_div_pow2 (m n : Z) :
  0 ≤ m → 0 ≤ n → Zdigits2 (m / 2 ^ n) = Z.max 0 (Zdigits2 m - n).
Proof.
  intros Hm Hn. pose proof (Zdigits2_nonneg m).
  assert (0 < 2 ^ n) by (apply Z.pow_pos_nonneg; lia).
  destruct (decide (m = 0)) as [->|Hne].
  { rewrite Z.div_0_l by lia. cbn. lia. }
  pose proof (Zdigits2_bounds m ltac:(lia)) as Hd.
  destruct (decide (Zdigits2 m ≤ n)) as [Hle|Hgt].
  - assert (m < 2 ^ n).
    { assert (2 ^ Zdigits2 m ≤ 2 ^ n) by (apply Z.pow_le_mono_r; lia). lia. }
    rewrite Z.div_small by lia. cbn. lia.
  - replace (Z.max 0 (Zdigits2 m - n)) with (Zdigits2 m - n) by lia.
    assert (Hsplit : 2 ^ (Zdigits2 m - 1) = 2 ^ (Zdigits2 m - n - 1) * 2 ^ n).
    { rewrite <- Z.pow_add_r by lia. f_equal. lia. }
    assert (Hsplit' : 2 ^ Zdigits2 m = 2 ^ (Zdigits2 m - n) * 2 ^ n).
    { rewrite <- Z.pow_add_r by lia. f_equal. lia. }
    assert (0 < 2 ^ (Zdigits2 m - n - 1)) by (apply Z.pow_pos_nonneg; lia).
    apply Zdigits2_unique.
    + split.
      * apply Z.div_le_lower_bound; lia.
      * apply Z.div_lt_upper_bound; lia.
    + assert (2 ^ (Zdigits2 m - n - 1) ≤ m / 2 ^ n) by (apply Z.div_le_lower_bound; lia). lia.
Qed.

End Digits.

Section Rounding.

Notation fexp := (fexp 53 1024).
Notation binary_round_aux := (binary_round_aux 53 1024).
Notation binary_round := (binary_round 53 1024).
Notation binary_normalize := (binary_normalize 53 1024).
Notation shr_fexp := (shr_fexp 53 1024).

Lemma fexp_eq (e : Z) : fexp e = Z.max (e - 53) (-1074).
Proof. reflexivity. Qed.

Lemma iter_pos_invariant {A} (f : A → A) (P : Z → A → Prop) :
  (∀ k x, 0 ≤ k → P k x → P (k + 1) (f x)) →
  ∀ n k x, 0 ≤ k → P k x → P (k + Zpos n) (SpecFloat.iter_pos f n x).
Proof.
  intros Hstep. induction n as [n IH|n IH|]; intros k x Hk HP; cbn [SpecFloat.iter_pos].
  - replace (k + Zpos n~1) with ((k + 1 + Zpos n) + Zpos n) by lia.
    apply IH; [lia|]. apply IH; [lia|]. by apply Hstep.
  - replace (k + Zpos n~0) with (k + Zpos n + Zpos n) by lia.
    apply IH; [lia|]. by apply IH.
  - by apply Hstep.
Qed.

Lemma shr_1_m (mrs : shr_record) :
  0 ≤ shr_m mrs → shr_m (shr_1 mrs) = shr_m mrs / 2.
Proof.
  destruct mrs as [m r s]. cbn [shr_m]. intros Hm.
  destruct m as [|[p|p|]|p]; cbn [shr_1 shr_m orb]; try lia.
  - destruct (r || s); cbn [shr_m]; reflexivity.
  - destruct (r || s); cbn [shr_m];
      rewrite Pos2Z.inj_xI; apply Z.div_unique with 1; lia.
  - destruct (r || s); cbn [shr_m];
      rewrite Pos2Z.inj_xO; apply Z.div_unique with 0; lia.
  - destruct (r || s); cbn [shr_m]; reflexivity.
Qed.

Lemma iter_shr_1_m (n : positive) (mrs : shr_record) :
  0 ≤ shr_m mrs →
  shr_m (SpecFloat.iter_pos shr_1 n mrs) = shr_m mrs / 2 ^ Zpos n.
Proof.
  intros Hm.
  pose proof (iter_pos_invariant shr_1
    (λ k x, shr_m x = shr_m mrs / 2 ^ k ∧ 0 ≤ shr_m x)) as Hinv.
  destruct (Hinv) with (n := n) (k := 0) (x := mrs) as [Heq _]; [|lia| |].
  - intros k x Hk [Hx Hpos]. rewrite shr_1_m by done. split.
    + rewrite Hx, Z.pow_add_r, Z.pow_1_r by lia.
      rewrite Z.div_div by (try apply Z.pow_pos_nonneg; lia). done.
    + apply Z.div_pos; lia.
  - rewrite Z.pow_0_r, Z.div_1_r. done.
  - by rewrite Z.add_0_l in Heq.
Qed.

(** Shifting out zero bits of an exact record leaves it exact. *)
Lemma iter_shr_1_exact (n : positive) (q : Z) :
  0 < q →
  SpecFloat.iter_pos shr_1 n {| shr_m := q * 2 ^ Zpos n; shr_r := false; shr_s := false |}
  = {| shr_m := q; shr_r := false; shr_s := false |}.
Proof.
  intros Hq.
  pose proof (iter_pos_invariant shr_1
    (λ k x, k ≤ Zpos n →
       x = {| shr_m := q * 2 ^ (Zpos n - k); shr_r := false; shr_s := false |}))
    as Hinv.
  rewrite (Hinv) with (n := n) (k := 0); [|  | lia | | lia].
  - by rewrite Z.add_0_l, Z.sub_diag, Z.pow_0_r, Z.mul_1_r.
  - intros k x Hk Hx Hle. rewrite Hx by lia.
    replace (Zpos n - k) with (Z.succ (Zpos n - (k + 1))) by lia.
    rewrite Z.pow_succ_r by lia.
    assert (0 < q * 2 ^ (Zpos n - (k + 1))).
    { apply Z.mul_pos_pos; [done|]. apply Z.pow_pos_nonneg; lia. }
    destruct (q * 2 ^ (Zpos n - (k + 1))) as [|p|p] eqn:Hp; try lia.
    replace (q * (2 * 2 ^ (Zpos n - (k + 1)))) with (2 * (q * 2 ^ (Zpos n - (k + 1)))) by lia.
    rewrite Hp. reflexivity.
  - intros _. by rewrite Z.sub_0_r.
Qed.

Lemma shr_spec (mrs : shr_record) (e n : Z) :
  0 ≤ shr_m mrs →
  shr_m (shr mrs e n).1 = rshift (shr_m mrs) n ∧ (shr mrs e n).2 = eshift e n.
Proof.
  intros Hm. unfold shr, rshift, eshift. destruct n as [|p|p]; cbn; [done| |done].
  by rewrite iter_shr_1_m.
Qed.

Lemma shr_m_record_of_loc (m : Z) (l : location) :
  shr_m (shr_record_of_loc m l) = m.
Proof. by destruct l as [|[]]. Qed.

Lemma round_nearest_even_bounds (m : Z) (l : location) :
  m ≤ round_nearest_even m l ≤ m + 1.
Proof.
  destruct l as [|[]]; cbn; try lia. destruct (Z.even m); lia.
Qed.

Lemma rshift_nonneg (m n : Z) : 0 ≤ m → 0 ≤ rshift m n.
Proof.
  intros. unfold rshift. destruct (0 <? n) eqn:Hn; [|done].
  apply Z.div_pos; [done|]. apply Z.pow_pos_nonneg; lia.
Qed.

(** [binary_round_aux] in terms of integer arithmetic: two right shifts
    around a rounding that adds at most one. *)
Lemma binary_round_aux_shape (s : bool) (mx ex : Z) (lx : location) :
  0 ≤ mx →
  ∃ m2,
    let n1 := fexp (Zdigits2 mx + ex) - ex in
    let m1 := rshift mx n1 in
    let e1 := eshift ex n1 in
    let n2 := fexp (Zdigits2 m2 + e1) - e1 in
    m1 ≤ m2 ≤ m1 + 1
    ∧ binary_round_aux s mx ex lx =
        match rshift m2 n2 with
        | Z0 => S754_zero s
        | Zpos m =>
            if eshift e1 n2 <=? 971 then S754_finite s m (eshift e1 n2)
            else S754_infinity s
        | Zneg _ => S754_nan
        end.
Proof.
  intros Hmx. unfold SpecFloat.binary_round_aux, SpecFloat.shr_fexp.
  pose proof (shr_spec (shr_record_of_loc mx lx) ex (fexp (Zdigits2 mx + ex) - ex)) as Hs1.
  rewrite shr_m_record_of_loc in Hs1. specialize (Hs1 Hmx).
  destruct (shr (shr_record_of_loc mx lx) ex (fexp (Zdigits2 mx + ex) - ex))
    as [mrs' e'] eqn:Hshr1.
  cbn [fst snd] in Hs1. destruct Hs1 as [Hm1 He1].
  set (m2 := round_nearest_even (shr_m mrs') (loc_of_shr_record mrs')).
  exists m2. cbn zeta.
  pose proof (round_nearest_even_bounds (shr_m mrs') (loc_of_shr_record mrs')) as Hrne.
  fold m2 in Hrne. rewrite Hm1 in Hrne. split; [exact Hrne|].
  assert (Hm2 : 0 ≤ m2) by (pose proof (rshift_nonneg mx (fexp (Zdigits2 mx + ex) - ex) Hmx); lia).
  pose proof (shr_spec (shr_record_of_loc m2 loc_Exact) e' (fexp (Zdigits2 m2 + e') - e')) as Hs2.
  rewrite shr_m_record_of_loc in Hs2. specialize (Hs2 Hm2).
  destruct (shr (shr_record_of_loc m2 loc_Exact) e' (fexp (Zdigits2 m2 + e') - e'))
    as [mrs'' e''] eqn:Hshr2.
  cbn [fst snd] in Hs2. destruct Hs2 as [Hm3 He3].
  subst e'. rewrite Hm3, He3. reflexivity.
Qed.


Lemma Zdigits2_rshift (m n : Z) :
  0 ≤ m → Zdigits2 (rshift m n) = if 0 <? n then Z.max 0 (Zdigits2 m - n) else Zdigits2 m.
Proof.
  intros Hm. unfold rshift. destruct (0 <? n) eqn:Hn; [|done].
  apply Zdigits2_div_pow2; lia.
Qed.

Lemma Zdigits2_pos (m : Z) : 0 < m → 0 < Zdigits2 m.
Proof. destruct m; cbn; lia. Qed.

Lemma Zdigits2_zero (m : Z) : 0 ≤ m → Zdigits2 m = 0 → m = 0.
Proof. destruct m; cbn; lia. Qed.

(** Rounding a non-negative mantissa of magnitude below [2 ^ K] gives zero
    or a finite number below or at [2 ^ K], with an exponent that is not
    smaller. *)
Lemma binary_round_aux_bounded (s : bool) (mx ex : Z) (lx : location) (K : Z) :
  0 ≤ mx → Zdigits2 mx + ex ≤ K → -1074 ≤ K ≤ 970 →
  match binary_round_aux s mx ex lx with
  | S754_zero _ => True
  | S754_finite _ m e => Zpos (digits2_pos m) + e ≤ K + 1 ∧ ex ≤ e
  | _ => False
  end.
Proof.
  intros Hmx Hd HK.
  destruct (binary_round_aux_shape s mx ex lx Hmx) as (m2 & Hm2 & ->).
  cbn zeta in Hm2.
  set (n1 := fexp (Zdigits2 mx + ex) - ex) in *.
  set (m1 := rshift mx n1) in *. set (e1 := eshift ex n1) in *.
  set (n2 := fexp (Zdigits2 m2 + e1) - e1).
  pose proof (Zdigits2_nonneg mx) as Hdmx.
  assert (Hm1 : 0 ≤ m1) by (by apply rshift_nonneg).
  assert (Hd1 : Zdigits2 m1 + e1 ≤ K ∧ ex ≤ e1 ∧ e1 ≤ K).
  { subst m1 e1. rewrite Zdigits2_rshift by done. unfold eshift.
    subst n1. rewrite fexp_eq. destruct (Z.ltb_spec 0 (Z.max (Zdigits2 mx + ex - 53) (-1074) - ex)); lia. }
  clearbody m1 e1. clear n1.
  assert (Hd2 : Zdigits2 m2 ≤ Zdigits2 m1 + 1).
  { etrans; [apply (Zdigits2_mono m2 (m1 + 1)); lia|]. by apply Zdigits2_succ. }
  assert (Hm2' : 0 ≤ m2) by lia.
  pose proof (Zdigits2_rshift m2 n2 Hm2') as Hd3.
  pose proof (rshift_nonneg m2 n2 Hm2') as Hm3.
  assert (He3 : e1 ≤ eshift e1 n2 ≤ K
                ∧ (0 < rshift m2 n2 → Zdigits2 (rshift m2 n2) + eshift e1 n2 ≤ K + 1)).
  { unfold eshift. subst n2. rewrite fexp_eq in *.
    destruct (Z.ltb_spec 0 (Z.max (Zdigits2 m2 + e1 - 53) (-1074) - e1)) as [Hn|Hn].
    - split; [lia|]. intros Hpos. apply Zdigits2_pos in Hpos. lia.
    - split; [lia|]. intros _. unfold rshift.
      destruct (Z.ltb_spec 0 (Z.max (Zdigits2 m2 + e1 - 53) (-1074) - e1)); lia. }
  destruct (rshift m2 n2) as [|m|m] eqn:Hm; [done| |lia].
  destruct (eshift e1 n2 <=? 971) eqn:Hle; [|lia].
  cbn [Zdigits2] in He3. lia.
Qed.

Lemma shl_align_value (mx : positive) (ex ex' : Z) :
  Zpos (shl_align mx ex ex').1 = Zpos mx * 2 ^ (ex - (shl_align mx ex ex').2)
  ∧ (shl_align mx ex ex').2 = Z.min ex ex'.
Proof.
  unfold shl_align. destruct (ex' - ex) as [|d|d] eqn:Hd; cbn [fst snd].
  - rewrite Z.sub_diag. split; lia.
  - rewrite Z.sub_diag. split; lia.
  - replace (ex - ex') with (Zpos d) by lia. split; [|lia].
    clear Hd. induction d as [|d IH] using Pos.peano_ind.
    + cbn. lia.
    + rewrite Pos.iter_succ, Pos2Z.inj_xO, IH, Pos2Z.inj_succ, Z.pow_succ_r by lia. lia.
Qed.

Lemma Zdigits2_mul_pow2 (m n : Z) :
  0 < m → 0 ≤ n → Zdigits2 (m * 2 ^ n) = Zdigits2 m + n.
Proof.
  intros Hm Hn. pose proof (Zdigits2_bounds m Hm) as Hd.
  pose proof (Zdigits2_pos m Hm).
  assert (0 < 2 ^ n) by (apply Z.pow_pos_nonneg; lia).
  apply Zdigits2_unique; [|lia].
  replace (Zdigits2 m + n - 1) with ((Zdigits2 m - 1) + n) by lia.
  rewrite !Z.pow_add_r by lia. nia.
Qed.

Lemma shl_align_digits (mx : positive) (ex ex' : Z) :
  Zpos (digits2_pos (shl_align mx ex ex').1) + (shl_align mx ex ex').2
  = Zpos (digits2_pos mx) + ex.
Proof.
  destruct (shl_align_value mx ex ex') as [Hv He].
  change (Zpos (digits2_pos (shl_align mx ex ex').1))
    with (Zdigits2 (Zpos (shl_align mx ex ex').1)).
  rewrite Hv, Zdigits2_mul_pow2 by lia. cbn [Zdigits2]. lia.
Qed.

Lemma binary_round_bounded (s : bool) (mx : positive) (ex K : Z) :
  Zpos (digits2_pos mx) + ex ≤ K → -1074 ≤ K ≤ 970 →
  bounded_by (K + 1) (binary_round s mx ex).
Proof.
  intros Hd HK. unfold SpecFloat.binary_round.
  pose proof (shl_align_digits mx ex (fexp (Zpos (digits2_pos mx) + ex))) as Hal.
  destruct (shl_align mx ex (fexp (Zpos (digits2_pos mx) + ex))) as [mz ez].
  cbn [fst snd] in Hal.
  pose proof (binary_round_aux_bounded s (Zpos mz) ez loc_Exact K) as Hb.
  cbn [Zdigits2] in Hb. specialize (Hb ltac:(lia) ltac:(lia) HK).
  destruct (binary_round_aux s (Zpos mz) ez loc_Exact); cbn; [done..|lia].
Qed.

Lemma binary_normalize_bounded (m e K : Z) (szero : bool) :
  Zdigits2 m + e ≤ K → -1074 ≤ K ≤ 970 →
  bounded_by (K + 1) (binary_normalize m e szero).
Proof.
  intros Hd HK. destruct m as [|p|p]; cbn [SpecFloat.binary_normalize Zdigits2] in *;
    [done|by apply binary_round_bounded..].
Qed.


Lemma bounded_by_mono (K K' : Z) (x : spec_float) :
  K ≤ K' → bounded_by K x → bounded_by K' x.
Proof. destruct x; cbn; try done. lia. Qed.

Lemma Zdigits2_abs (z : Z) : Zdigits2 (Z.abs z) = Zdigits2 z.
Proof. by destruct z. Qed.

Lemma Zdigits2_le_abs (z k : Z) : 0 ≤ k → Z.abs z < 2 ^ k → Zdigits2 z ≤ k.
Proof.
  intros Hk Hz. rewrite <- Zdigits2_abs. apply Zdigits2_le_iff; [lia..|done].
Qed.

Lemma digits2_pos_lt (m : positive) (k : Z) :
  Zpos (digits2_pos m) ≤ k → Zpos m < 2 ^ k.
Proof.
  intros Hk. apply (Zdigits2_le_iff (Zpos m) k); [lia| |done].
  pose proof (Pos2Z.is_pos (digits2_pos m)). lia.
Qed.

(** The sum of the two aligned mantissas of an addition or subtraction. *)
Lemma aligned_sum_digits (mx my : positive) (ex ey K : Z) (a b : Z) :
  Zpos (digits2_pos mx) + ex ≤ K →
  Zpos (digits2_pos my) + ey ≤ K →
  Z.abs a = Zpos (shl_align mx ex (Z.min ex ey)).1 →
  Z.abs b = Zpos (shl_align my ey (Z.min ex ey)).1 →
  Zdigits2 (a + b) + Z.min ex ey ≤ K + 1 ∧ Zdigits2 (a - b) + Z.min ex ey ≤ K + 1.
Proof.
  intros Hx Hy Ha Hb.
  destruct (shl_align_value mx ex (Z.min ex ey)) as [Hvx Hex].
  destruct (shl_align_value my ey (Z.min ex ey)) as [Hvy Hey].
  rewrite Hex in Hvx. rewrite Hey in Hvy.
  replace (Z.min ex (Z.min ex ey)) with (Z.min ex ey) in Hvx by lia.
  replace (Z.min ey (Z.min ex ey)) with (Z.min ex ey) in Hvy by lia.
  set (ez := Z.min ex ey) in *.
  pose proof (Pos2Z.is_pos (digits2_pos mx)). pose proof (Pos2Z.is_pos (digits2_pos my)).
  assert (Hez : 0 ≤ K - ez) by lia.
  assert (Hax : Z.abs a < 2 ^ (K - ez)).
  { rewrite Ha, Hvx.
    apply Z.lt_le_trans with (2 ^ (K - ex) * 2 ^ (ex - ez)).
    - apply Z.mul_lt_mono_pos_r; [apply Z.pow_pos_nonneg; lia|].
      apply digits2_pos_lt. lia.
    - rewrite <- Z.pow_add_r by lia. apply Z.pow_le_mono_r; lia. }
  assert (Hbx : Z.abs b < 2 ^ (K - ez)).
  { rewrite Hb, Hvy.
    apply Z.lt_le_trans with (2 ^ (K - ey) * 2 ^ (ey - ez)).
    - apply Z.mul_lt_mono_pos_r; [apply Z.pow_pos_nonneg; lia|].
      apply digits2_pos_lt. lia.
    - rewrite <- Z.pow_add_r by lia. apply Z.pow_le_mono_r; lia. }
  assert (Hpow : 2 ^ (K + 1 - ez) = 2 * 2 ^ (K - ez)).
  { replace (K + 1 - ez) with (Z.succ (K - ez)) by lia. by rewrite Z.pow_succ_r. }
  split.
  - assert (Zdigits2 (a + b) ≤ K + 1 - ez); [|lia].
    apply Zdigits2_le_abs; [lia|]. rewrite Hpow. lia.
  - assert (Zdigits2 (a - b) ≤ K + 1 - ez); [|lia].
    apply Zdigits2_le_abs; [lia|]. rewrite Hpow. lia.
Qed.

Lemma abs_cond_Zopp (b : bool) (p : positive) : Z.abs (cond_Zopp b (Zpos p)) = Zpos p.
Proof. by destruct b. Qed.

Lemma SFadd_bounded (K : Z) (x y : spec_float) :
  bounded_by K x → bounded_by K y → -1074 ≤ K ≤ 968 →
  bounded_by (K + 2) (SFadd 53 1024 x y).
Proof.
  intros Hx Hy HK.
  destruct x as [sx|sx| |sx mx ex], y as [sy|sy| |sy my ey]; try done; cbn in Hx, Hy.
  - cbn. by destruct sx, sy.
  - cbn. lia.
  - cbn. lia.
  - cbn [SFadd].
    destruct (aligned_sum_digits mx my ex ey K
                (cond_Zopp sx (Zpos (shl_align mx ex (Z.min ex ey)).1))
                (cond_Zopp sy (Zpos (shl_align my ey (Z.min ex ey)).1)))
      as [Hsum _]; [done|done|apply abs_cond_Zopp..|].
    replace (K + 2) with (K + 1 + 1) by lia.
    apply binary_normalize_bounded; [done|lia].
Qed.

Lemma SFsub_bounded (K : Z) (x y : spec_float) :
  bounded_by K x → bounded_by K y → -1074 ≤ K ≤ 968 →
  bounded_by (K + 2) (SFsub 53 1024 x y).
Proof.
  intros Hx Hy HK.
  destruct x as [sx|sx| |sx mx ex], y as [sy|sy| |sy my ey]; try done; cbn in Hx, Hy.
  - cbn. by destruct sx, sy.
  - cbn. lia.
  - cbn. lia.
  - cbn [SFsub].
    destruct (aligned_sum_digits mx my ex ey K
                (cond_Zopp sx (Zpos (shl_align mx ex (Z.min ex ey)).1))
                (cond_Zopp sy (Zpos (shl_align my ey (Z.min ex ey)).1)))
      as [_ Hdiff]; [done|done|apply abs_cond_Zopp..|].
    replace (K + 2) with (K + 1 + 1) by lia.
    apply binary_normalize_bounded; [done|lia].
Qed.

(** A finite dividend below [2 ^ K] over a finite non-zero divisor whose
    exponent is at least [-L]. *)
Lemma SFdiv_bounded (K L : Z) (x : spec_float) (sy : bool) (my : positive) (ey : Z) :
  bounded_by K x → - L ≤ ey → -1074 ≤ K + L → K + L ≤ 970 →
  bounded_by (K + L + 1) (SFdiv 53 1024 x (S754_finite sy my ey)).
Proof.
  intros Hx Hey HK1 HK2.
  destruct x as [sx|sx| |sx mx ex]; try done; cbn in Hx.
  cbn [SFdiv]. unfold SFdiv_core_binary.
  set (e' := Z.min _ _).
  set (sh := ex - ey - e').
  assert (Hsh : 0 ≤ sh) by (subst sh e'; lia).
  set (m' := match sh with Z0 => Zpos mx | Zpos _ => Z.shiftl (Zpos mx) sh | Zneg _ => 0 end).
  assert (Hm' : m' = Zpos mx * 2 ^ sh).
  { subst m'. destruct sh as [|p|p] eqn:Hp; [lia| |lia].
    rewrite Z.shiftl_mul_pow2 by lia. done. }
  pose proof (Z_div_mod m' (Zpos my) ltac:(lia)) as Hdiv.
  destruct (Z.div_eucl m' (Zpos my)) as [q r]. destruct Hdiv as [Hqr Hr].
  assert (Hpow : 0 < 2 ^ sh) by (apply Z.pow_pos_nonneg; lia).
  assert (Hq : 0 ≤ q ≤ m') by nia.
  assert (Hdq : Zdigits2 q + e' ≤ K + L).
  { pose proof (Zdigits2_mono q m' Hq) as Hmono.
    rewrite Hm', Zdigits2_mul_pow2 in Hmono by lia. cbn [Zdigits2] in Hmono.
    subst sh. lia. }
  pose proof (binary_round_aux_bounded (xorb sx sy) q e' (new_location (Zpos my) r) (K + L)
                ltac:(lia) Hdq ltac:(lia)) as Hb.
  destruct (binary_round_aux _ q e' _); cbn; try done. lia.
Qed.


(** In the normal range a positive mantissa rounds to a finite non-zero
    number whose magnitude is kept, up to the carry of the rounding. *)
Lemma binary_round_aux_normal (s : bool) (mx ex : Z) (lx : location) (K : Z) :
  0 < mx → -1021 ≤ Zdigits2 mx + ex → Zdigits2 mx + ex ≤ K → K ≤ 970 →
  ∃ m e, binary_round_aux s mx ex lx = S754_finite s m e
         ∧ ex ≤ e
         ∧ Zdigits2 mx + ex ≤ Zpos (digits2_pos m) + e ≤ K + 1.
Proof.
  intros Hmx Hlo Hd HK.
  destruct (binary_round_aux_shape s mx ex lx ltac:(lia)) as (m2 & Hm2 & ->).
  cbn zeta in Hm2.
  set (n1 := fexp (Zdigits2 mx + ex) - ex) in *.
  set (m1 := rshift mx n1) in *. set (e1 := eshift ex n1) in *.
  set (n2 := fexp (Zdigits2 m2 + e1) - e1).
  pose proof (Zdigits2_pos mx Hmx) as Hdmx.
  assert (Hd1 : Zdigits2 m1 + e1 = Zdigits2 mx + ex ∧ ex ≤ e1 ∧ 0 < Zdigits2 m1).
  { subst m1 e1. rewrite Zdigits2_rshift by lia. unfold eshift.
    subst n1. rewrite fexp_eq.
    destruct (Z.ltb_spec 0 (Z.max (Zdigits2 mx + ex - 53) (-1074) - ex)); lia. }
  assert (Hm1 : 0 < m1).
  { pose proof (rshift_nonneg mx n1 ltac:(lia)) as Hnn. fold m1 in Hnn.
    destruct (decide (m1 = 0)) as [Hz|]; [|lia]. rewrite Hz in Hd1. cbn in Hd1. lia. }
  clearbody m1 e1. clear n1.
  assert (Hd2 : Zdigits2 m1 ≤ Zdigits2 m2 ≤ Zdigits2 m1 + 1).
  { split; [apply Zdigits2_mono; lia|].
    etrans; [apply (Zdigits2_mono m2 (m1 + 1)); lia|]. apply Zdigits2_succ. lia. }
  assert (Hm2' : 0 ≤ m2) by lia.
  pose proof (Zdigits2_rshift m2 n2 Hm2') as Hd3.
  pose proof (rshift_nonneg m2 n2 Hm2') as Hm3.
  assert (He3 : e1 ≤ eshift e1 n2
                ∧ Zdigits2 (rshift m2 n2) + eshift e1 n2 = Zdigits2 m2 + e1
                ∧ 0 < Zdigits2 (rshift m2 n2)).
  { rewrite Hd3. unfold eshift. subst n2. rewrite fexp_eq.
    destruct (Z.ltb_spec 0 (Z.max (Zdigits2 m2 + e1 - 53) (-1074) - e1)); lia. }
  destruct (rshift m2 n2) as [|m|m] eqn:Hm; [cbn in He3; lia| |lia].
  cbn [Zdigits2] in He3.
  pose proof (Pos2Z.is_pos (digits2_pos m)).
  destruct (Z.leb_spec (eshift e1 n2) 971); [|lia].
  eexists _, _. split; [reflexivity|]. lia.
Qed.

Lemma binary_round_normal (s : bool) (mx : positive) (ex K : Z) :
  -1021 ≤ Zpos (digits2_pos mx) + ex → Zpos (digits2_pos mx) + ex ≤ K → K ≤ 970 →
  ∃ m e, binary_round s mx ex = S754_finite s m e
         ∧ Z.min ex (Zpos (digits2_pos mx) + ex - 53) ≤ e
         ∧ Zpos (digits2_pos mx) + ex ≤ Zpos (digits2_pos m) + e ≤ K + 1.
Proof.
  intros Hlo Hd HK. unfold SpecFloat.binary_round.
  pose proof (shl_align_digits mx ex (fexp (Zpos (digits2_pos mx) + ex))) as Hal.
  destruct (shl_align_value mx ex (fexp (Zpos (digits2_pos mx) + ex))) as [_ Hez].
  destruct (shl_align mx ex (fexp (Zpos (digits2_pos mx) + ex))) as [mz ez].
  cbn [fst snd] in Hal, Hez. rewrite fexp_eq in Hez.
  destruct (binary_round_aux_normal s (Zpos mz) ez loc_Exact K)
    as (m & e & -> & He & Hde); cbn [Zdigits2]; [lia..|].
  exists m, e. split; [done|]. cbn [Zdigits2] in Hde. lia.
Qed.

(** The conversion of a positive [size_t] is finite and not zero. *)
Lemma of_Z_positive (z : Z) :
  0 < z < 2 ^ 64 →
  ∃ m e, Double.of_Z z = S754_finite false m e
         ∧ -52 ≤ e ∧ Zpos (digits2_pos m) + e ≤ 65.
Proof.
  intros Hz. unfold Double.of_Z, Double.prec, Double.emax.
  destruct z as [|p|p]; [lia| |lia].
  cbn [SpecFloat.binary_normalize].
  assert (Hd : Zpos (digits2_pos p) ≤ 64).
  { apply (Zdigits2_le_iff (Zpos p) 64); lia. }
  pose proof (Pos2Z.is_pos (digits2_pos p)).
  destruct (binary_round_normal false p 0 64) as (m & e & -> & He & Hde); [lia..|].
  exists m, e. split; [done|]. lia.
Qed.

Lemma of_Z_bounded (z : Z) : 0 ≤ z < 2 ^ 64 → bounded_by 65 (Double.of_Z z).
Proof.
  intros Hz. destruct (decide (z = 0)) as [->|Hne]; [done|].
  destruct (of_Z_positive z) as (m & e & -> & _ & Hd); [lia|]. done.
Qed.


Lemma canon_mantissa (z : positive) :
  Zpos (digits2_pos z) ≤ 53 →
  Zpos (shl_align z 0 (Zpos (digits2_pos z) - 53)).1
  = Zpos z * 2 ^ (53 - Zpos (digits2_pos z)).
Proof.
  intros Hd. destruct (shl_align_value z 0 (Zpos (digits2_pos z) - 53)) as [-> ->].
  f_equal. f_equal. lia.
Qed.

Lemma binary_round_aux_canonical (s : bool) (m : positive) (e : Z) :
  Zpos (digits2_pos m) = 53 → -1074 ≤ e ≤ 971 →
  binary_round_aux s (Zpos m) e loc_Exact = S754_finite s m e.
Proof.
  intros Hd He. unfold SpecFloat.binary_round_aux, SpecFloat.shr_fexp.
  cbn [Zdigits2]. rewrite Hd, fexp_eq.
  replace (Z.max (53 + e - 53) (-1074) - e) with 0 by lia.
  cbn [shr shr_record_of_loc shr_m loc_of_shr_record round_nearest_even Zdigits2].
  rewrite Hd, fexp_eq.
  replace (Z.max (53 + e - 53) (-1074) - e) with 0 by lia.
  cbn [shr shr_record_of_loc shr_m].
  destruct (Z.leb_spec e (1024 - 53)); [done|lia].
Qed.

(** Rounding is exact on an integer of at most 53 bits, whatever the number
    of zero bits it is given with. *)
Lemma binary_round_exact (s : bool) (p z : positive) (k : Z) :
  0 ≤ k → Zpos p = Zpos z * 2 ^ k → Zpos (digits2_pos z) ≤ 53 →
  binary_round s p (- k) = canon s z.
Proof.
  intros Hk Hp Hdz.
  pose proof (Pos2Z.is_pos (digits2_pos z)) as Hdz0.
  assert (Hdp : Zpos (digits2_pos p) = Zpos (digits2_pos z) + k).
  { change (Zpos (digits2_pos p)) with (Zdigits2 (Zpos p)).
    rewrite Hp, Zdigits2_mul_pow2 by lia. done. }
  pose proof (canon_mantissa z Hdz) as Hcm.
  unfold SpecFloat.binary_round, canon.
  set (q := (shl_align z 0 (Zpos (digits2_pos z) - 53)).1) in *.
  assert (Hdq : Zpos (digits2_pos q) = 53).
  { change (Zpos (digits2_pos q)) with (Zdigits2 (Zpos q)).
    rewrite Hcm, Zdigits2_mul_pow2 by lia. cbn [Zdigits2]. lia. }
  rewrite Hdp, fexp_eq.
  replace (Z.max (Zpos (digits2_pos z) + k + - k - 53) (-1074))
    with (Zpos (digits2_pos z) - 53) by lia.
  destruct (shl_align_value p (- k) (Zpos (digits2_pos z) - 53)) as [Hv He].
  destruct (shl_align p (- k) (Zpos (digits2_pos z) - 53)) as [mz ez].
  cbn [fst snd] in Hv, He. subst ez.
  destruct (Z.min_spec (- k) (Zpos (digits2_pos z) - 53)) as [[Hlt Hmin]|[Hge Hmin]];
    rewrite Hmin in *.
  - (* no left shift; the zero bits in excess are shifted out *)
    rewrite Z.sub_diag, Z.pow_0_r, Z.mul_1_r in Hv. injection Hv as ->.
    assert (Hpq : Zpos p = Zpos q * 2 ^ (Zpos (digits2_pos z) - 53 + k)).
    { rewrite Hp, Hcm, <- Z.mul_assoc, <- Z.pow_add_r by lia. f_equal. f_equal. lia. }
    destruct (Zpos (digits2_pos z) - 53 + k) as [|n|n] eqn:Hn; [| |lia].
    + rewrite Z.pow_0_r, Z.mul_1_r in Hpq. injection Hpq as ->.
      replace (- k) with (Zpos (digits2_pos z) - 53) by lia.
      apply binary_round_aux_canonical; [done|lia].
    + unfold SpecFloat.binary_round_aux, SpecFloat.shr_fexp.
      cbn [Zdigits2]. rewrite Hdp, fexp_eq.
      replace (Z.max (Zpos (digits2_pos z) + k + - k - 53) (-1074) - - k)
        with (Zpos n) by lia.
      cbn [shr shr_record_of_loc]. rewrite Hpq, iter_shr_1_exact by lia.
      cbn [shr_m loc_of_shr_record round_nearest_even Zdigits2].
      rewrite Hdq, fexp_eq.
      replace (Z.max (53 + (- k + Zpos n) - 53) (-1074) - (- k + Zpos n)) with 0 by lia.
      cbn [shr shr_record_of_loc shr_m].
      replace (- k + Zpos n) with (Zpos (digits2_pos z) - 53) by lia.
      destruct (Z.leb_spec (Zpos (digits2_pos z) - 53) (1024 - 53)); [done|lia].
  - (* left shift up to 53 bits *)
    assert (mz = q) as ->.
    { apply Pos2Z.inj. rewrite Hv, Hp, Hcm, <- Z.mul_assoc, <- Z.pow_add_r by lia.
      f_equal. f_equal. lia. }
    apply binary_round_aux_canonical; [done|lia].
Qed.

Lemma of_Z_exact (z : positive) :
  Zpos (digits2_pos z) ≤ 53 → Double.of_Z (Zpos z) = canon false z.
Proof.
  intros Hd. unfold Double.of_Z, Double.prec, Double.emax.
  cbn [SpecFloat.binary_normalize].
  apply (binary_round_exact false z z 0); [lia|cbn; lia|done].
Qed.

Lemma one_canon : Double.one = canon false 1.
Proof. reflexivity. Qed.


Lemma canon_aligned (z : positive) (ez : Z) :
  Zpos (digits2_pos z) ≤ 53 → ez ≤ Zpos (digits2_pos z) - 53 →
  Zpos (shl_align (shl_align z 0 (Zpos (digits2_pos z) - 53)).1
          (Zpos (digits2_pos z) - 53) ez).1
  = Zpos z * 2 ^ (- ez).
Proof.
  intros Hd Hez.
  destruct (shl_align_value (shl_align z 0 (Zpos (digits2_pos z) - 53)).1
              (Zpos (digits2_pos z) - 53) ez) as [-> ->].
  rewrite canon_mantissa by done.
  pose proof (Pos2Z.is_pos (digits2_pos z)).
  rewrite <- Z.mul_assoc, <- Z.pow_add_r by lia. f_equal. f_equal. lia.
Qed.

Lemma digits2_pos_mono (a b : positive) :
  (a ≤ b)%positive → Zpos (digits2_pos a) ≤ Zpos (digits2_pos b).
Proof. intros Hab. apply (Zdigits2_mono (Zpos a) (Zpos b)). lia. Qed.

Lemma SFadd_canon (a b : positive) :
  Zpos (digits2_pos (a + b)) ≤ 53 →
  SFadd 53 1024 (canon false a) (canon false b) = canon false (a + b).
Proof.
  intros Hd.
  pose proof (digits2_pos_mono a (a + b) ltac:(lia)) as Hda.
  pose proof (digits2_pos_mono b (a + b) ltac:(lia)) as Hdb.
  unfold canon at 1 2. cbn [SFadd cond_Zopp].
  set (ez := Z.min (Zpos (digits2_pos a) - 53) (Zpos (digits2_pos b) - 53)).
  rewrite (canon_aligned a ez), (canon_aligned b ez) by lia.
  rewrite <- Z.mul_add_distr_r, <- Pos2Z.inj_add.
  assert (0 < 2 ^ (- ez)) by (apply Z.pow_pos_nonneg; lia).
  destruct (Zpos (a + b) * 2 ^ (- ez)) as [|p|p] eqn:Hp; [lia| |lia].
  cbn [SpecFloat.binary_normalize].
  replace ez with (- (- ez)) at 1 by lia.
  apply binary_round_exact; [lia|done|done].
Qed.

Lemma SFsub_canon (a b : positive) :
  (b < a)%positive → Zpos (digits2_pos a) ≤ 53 →
  SFsub 53 1024 (canon false a) (canon false b) = canon false (a - b).
Proof.
  intros Hlt Hd.
  pose proof (digits2_pos_mono b a ltac:(lia)) as Hdb.
  pose proof (digits2_pos_mono (a - b) a ltac:(lia)) as Hdab.
  unfold canon at 1 2. cbn [SFsub cond_Zopp].
  set (ez := Z.min (Zpos (digits2_pos a) - 53) (Zpos (digits2_pos b) - 53)).
  rewrite (canon_aligned a ez), (canon_aligned b ez) by lia.
  rewrite <- Z.mul_sub_distr_r, <- Pos2Z.inj_sub by done.
  assert (0 < 2 ^ (- ez)) by (apply Z.pow_pos_nonneg; lia).
  destruct (Zpos (a - b) * 2 ^ (- ez)) as [|p|p] eqn:Hp; [lia| |lia].
  cbn [SpecFloat.binary_normalize].
  replace ez with (- (- ez)) at 1 by lia.
  apply binary_round_exact; [lia|done|lia].
Qed.

(** [epsilon + maxedges - minedges] is computed exactly below [2 ^ 53]. *)
Lemma denominator_exact (minedges maxedges : Z) :
  0 ≤ minedges ≤ maxedges → maxedges + 1 < 2 ^ 53 →
  Double.sub (Double.add Double.one (Double.of_Z maxedges)) (Double.of_Z minedges)
  = canon false (Z.to_pos (maxedges + 1 - minedges)).
Proof.
  intros Hle Hmax.
  assert (Hdig : ∀ p : positive, Zpos p < 2 ^ 53 → Zpos (digits2_pos p) ≤ 53).
  { intros p Hp. apply (Zdigits2_le_iff (Zpos p) 53); lia. }
  assert (Hadd : Double.add Double.one (Double.of_Z maxedges)
                 = canon false (Z.to_pos (maxedges + 1))).
  { destruct maxedges as [|mx|mx]; [reflexivity| |lia].
    rewrite of_Z_exact, one_canon by (apply Hdig; lia).
    unfold Double.add, Double.prec, Double.emax.
    rewrite SFadd_canon by (apply Hdig; lia).
    f_equal. lia. }
  rewrite Hadd.
  destruct minedges as [|mn|mn]; [|clear Hadd|lia].
  - rewrite Z.sub_0_r. reflexivity.
  - rewrite of_Z_exact by (apply Hdig; lia).
    unfold Double.sub, Double.prec, Double.emax.
    rewrite SFsub_canon; [f_equal; lia|lia|apply Hdig; lia].
Qed.

Lemma sub_self (K : Z) (x : spec_float) :
  bounded_by K x → Double.sub x x = S754_zero false.
Proof.
  destruct x as [[]| | |s m e]; try done. intros _.
  unfold Double.sub. cbn [SFsub]. by rewrite Z.sub_diag.
Qed.

End Rounding.

(** * Properties of the edge decision oracle *)

Section OracleBasics.

Import Oracle.
Variable hash_edge : vertex_id_type * vertex_id_type → N.

Lemma hash_mod_lt (source target : vertex_id_type) (n k : nat) :
  hash_mod hash_edge source target n = Done k → (k < n)%nat.
Proof.
  unfold hash_mod. destruct (decide (n = 0%nat)) as [|Hn]; [done|].
  intros [= <-].
  assert (hash_edge (edge_pair source target) mod N.of_nat n < N.of_nat n)%N
    by (apply N.mod_lt; lia).
  lia.
Qed.

Lemma hash_mod_done (source target : vertex_id_type) (n : nat) :
  n ≠ 0%nat →
  hash_mod hash_edge source target n =
    Done (N.to_nat (hash_edge (edge_pair source target) mod N.of_nat n)).
Proof. intros Hn. unfold hash_mod. by destruct (decide (n = 0%nat)). Qed.

Lemma read_size_t_insert (cells : gmap ref Z) (r r' : ref) (x : Z) :
  read_size_t (<[ r := x ]> cells) r' = if decide (r = r') then x else read_size_t cells r'.
Proof.
  unfold read_size_t. rewrite lookup_insert. by destruct (decide (r = r')).
Qed.

Lemma read_bins_insert (bins : gmap ref bin_counts_type) (r r' : ref) (b : bin_counts_type) :
  read_bins (<[ r := b ]> bins) r' = if decide (r = r') then b else read_bins bins r'.
Proof.
  unfold read_bins. rewrite lookup_insert. by destruct (decide (r = r')).
Qed.

(** Two distinct counters are each incremented once; one counter passed
    through both references is incremented twice. *)
Lemma count_edge_read (s d r : ref) (degs : gmap ref Z) :
  read_size_t (count_edge s d degs) r =
    if decide (d = r) then
      incr (if decide (s = d) then incr (read_size_t degs s) else read_size_t degs d)
    else if decide (s = r) then incr (read_size_t degs s)
    else read_size_t degs r.
Proof.
  unfold count_edge. rewrite !read_size_t_insert.
  repeat case_decide; congruence.
Qed.

(** C1. HDRF scenario: four machines, load [[0;0;0;0]], no replicas, both
    true-degree counters 0, both policies off, edge (10, 7).  Every balance
    term is +0 and every replica bonus is 0, so all four machines tie; the
    decider returns [hash_edge (7, 10) mod 4]; afterwards that machine's
    load is 1, the other three are 0, and both true-degree counters are 1. *)
Theorem hdrf_first_edge_scenario
    (bins : gmap ref bin_counts_type) (degs : gmap ref Z) :
  read_bins bins 10%N = ∅ →
  read_bins bins 7%N = ∅ →
  read_size_t degs 10%N = 0 →
  read_size_t degs 7%N = 0 →
  let winner := N.to_nat (hash_edge (7%N, 10%N) mod 4) in
  (∀ i load_i, [0; 0; 0; 0] !! i = Some load_i →
     balance 0 0 load_i = S754_zero false
     ∧ presence false 4 10%N ∅ i = 0 ∧ presence false 4 7%N ∅ i = 0)
  ∧ hdrf_top_procs 10%N 7%N ∅ ∅ 0 0 false [0; 0; 0; 0]
    = Done [0; 1; 2; 3]%nat
  ∧ (winner < 4)%nat
  ∧ ∃ bins' degs',
      edge_to_proc_hdrf hash_edge 10%N 7%N 10%N 7%N 10%N 7%N
        bins degs [0; 0; 0; 0] false false
      = Done (winner, bins', degs', <[ winner := 1 ]> [0; 0; 0; 0])
      ∧ read_size_t degs' 10%N = 1
      ∧ read_size_t degs' 7%N = 1.
Proof.
  intros Hb10 Hb7 Hd10 Hd7 winner.
  assert (Hw : (winner < 4)%nat).
  { subst winner.
    assert (hash_edge (7%N, 10%N) mod 4 < 4)%N by (apply N.mod_lt; lia). lia. }
  split; [|split; [|split]]; [| reflexivity | exact Hw |].
  - intros i load_i Hi.
    do 4 (destruct i as [|i]; [injection Hi as <-; by vm_compute|]).
    by destruct i.
  - exists (place 10%N 7%N false winner bins), (count_edge 10%N 7%N degs).
    split; [|split].
    + unfold edge_to_proc_hdrf. rewrite Hb10, Hb7, Hd10, Hd7.
      change (hdrf_top_procs 10%N 7%N ∅ ∅ 0 0 false [0; 0; 0; 0])
        with (Done (A:=list procid_t) [0; 1; 2; 3]%nat).
      unfold pick_best. cbn [mbind outcome_bind].
      rewrite hash_mod_done by done.
      change (edge_pair 10%N 7%N) with (7%N, 10%N).
      change (N.of_nat (length [0; 1; 2; 3]%nat)) with 4%N.
      fold winner. cbn [mbind outcome_bind].
      clearbody winner.
      do 4 (destruct winner as [|winner]; [reflexivity|]). lia.
    + rewrite count_edge_read, Hd10. reflexivity.
    + rewrite count_edge_read, Hd7. reflexivity.
Qed.

End OracleBasics.

Lemma hdrf_first_edge_scenario_witness :
  ∃ bins' degs',
    Oracle.edge_to_proc_hdrf (λ _, 7%N) 10%N 7%N 10%N 7%N 10%N 7%N
      ∅ ∅ [0; 0; 0; 0] false false
    = Done (3%nat, bins', degs', [0; 0; 0; 1])
    ∧ Oracle.read_size_t degs' 10%N = 1
    ∧ Oracle.read_size_t degs' 7%N = 1.
Proof.
  refine (proj2 (proj2 (proj2
            (hdrf_first_edge_scenario (λ _, 7%N) ∅ ∅ _ _ _ _))));
    vm_compute; reflexivity.
Defined.

Lemma bind_done {A B} (x : outcome A) (k : A → outcome B) (b : B) :
  x ≫= k = Done b → ∃ a, x = Done a ∧ k a = Done b.
Proof. destruct x as [a|f]; [eauto | discriminate]. Qed.

Section GreedyScore.
Import Oracle.

(** C5 as stated fails: with the source's replica bit set on machine 0 and
    the hash fallback hitting machine 0 too, the source side adds 1, not 2. *)
Lemma greedy_score_not_additive :
  greedy_score 0%N 1%N {[ 0%nat ]} ∅ true 2 0 0 0%nat 0 = Double.of_Z 1
  ∧ greedy_score_additive 0%N 1%N {[ 0%nat ]} ∅ true 2 0 0 0%nat 0 = Double.of_Z 2
  ∧ greedy_score 0%N 1%N {[ 0%nat ]} ∅ true 2 0 0 0%nat 0
    ≠ greedy_score_additive 0%N 1%N {[ 0%nat ]} ∅ true 2 0 0 0%nat 0.
Proof. vm_compute. repeat split; discriminate. Qed.

Lemma presence_pos usehash numprocs v deg i :
  (0 <? presence usehash numprocs v deg i) = credited usehash numprocs v deg i.
Proof.
  unfold presence, credited.
  destruct (Bitset.get deg i), usehash,
    (v mod N.of_nat numprocs =? N.of_nat i)%N; reflexivity.
Qed.

(** C5 (amended). In the greedy scorer machine [i]'s score is its balance
    plus one for the source when the source's replica bit [i] is set or, under
    [usehash], [source mod numMachines = i], plus one for the target likewise:
    each endpoint contributes at most 1. *)
Theorem greedy_score_capped source target src_bits dst_bits usehash numprocs
    minedges maxedges i load_i :
  greedy_score source target src_bits dst_bits usehash numprocs
    minedges maxedges i load_i
  = Double.add (balance minedges maxedges load_i)
      (Double.of_Z (Z.b2z (credited usehash numprocs source src_bits i)
                    + Z.b2z (credited usehash numprocs target dst_bits i))).
Proof. unfold greedy_score. by rewrite !presence_pos. Qed.

End GreedyScore.

Section Placement.
Import Oracle.
Variable hash_edge : vertex_id_type * vertex_id_type → N.

Lemma place_read (s d r : ref) (userecent : bool) (p : procid_t)
    (bins : gmap ref bin_counts_type) :
  read_bins (place s d userecent p bins) r =
    if decide (r = s ∨ r = d) then
      if userecent then {[ p ]} else {[ p ]} ∪ read_bins bins r
    else read_bins bins r.
Proof.
  unfold place, set_bit_at, clear_at, Bitset.set_bit, Bitset.clear.
  destruct userecent; rewrite !read_bins_insert;
    repeat case_decide; first [tauto | set_solver].
Qed.

Lemma increment_done (v v' : list Z) (i : nat) :
  increment v i = Done v' →
  ∃ x, v !! i = Some x ∧ v' = <[ i := incr x ]> v.
Proof.
  unfold increment, index. destruct (v !! i) as [x|]; [|discriminate].
  intros [= <-]. eauto.
Qed.

(** What a returned decision of the greedy decider leaves behind. *)
Lemma greedy_decision_effect source target (src_degree dst_degree : ref)
    (bins : gmap ref bin_counts_type) (proc_num_edges : list Z)
    (usehash userecent : bool) p bins' loads' :
  edge_to_proc_greedy hash_edge source target src_degree dst_degree
    bins proc_num_edges usehash userecent = Done (p, bins', loads') →
  bins' = place src_degree dst_degree userecent p bins
  ∧ ∃ x, proc_num_edges !! p = Some x
         ∧ loads' = <[ p := incr x ]> proc_num_edges.
Proof.
  intros H. unfold edge_to_proc_greedy in H.
  apply bind_done in H as (top & _ & H).
  apply bind_done in H as (best & _ & H).
  apply bind_done in H as (l' & Hinc & H).
  injection H as <- <- <-. split; [done|]. by apply increment_done.
Qed.

Lemma hdrf_decision_effect source target
    (src_degree dst_degree src_true_degree dst_true_degree : ref)
    (bins : gmap ref bin_counts_type) (degs : gmap ref Z)
    (proc_num_edges : list Z) (usehash userecent : bool) p bins' degs' loads' :
  edge_to_proc_hdrf hash_edge source target src_degree dst_degree
    src_true_degree dst_true_degree bins degs proc_num_edges
    usehash userecent = Done (p, bins', degs', loads') →
  bins' = place src_degree dst_degree userecent p bins
  ∧ degs' = count_edge src_true_degree dst_true_degree degs
  ∧ ∃ x, proc_num_edges !! p = Some x
         ∧ loads' = <[ p := incr x ]> proc_num_edges.
Proof.
  intros H. unfold edge_to_proc_hdrf in H.
  apply bind_done in H as (top & _ & H).
  apply bind_done in H as (best & _ & H).
  apply bind_done in H as (l' & Hinc & H).
  injection H as <- <- <- <-. split; [done|]. split; [done|]. by apply increment_done.
Qed.

Lemma place_sets_bit (src_degree dst_degree : ref) (userecent : bool)
    (p : procid_t) (bins : gmap ref bin_counts_type) :
  let bins' := place src_degree dst_degree userecent p bins in
  Bitset.get (read_bins bins' src_degree) p = true
  ∧ Bitset.get (read_bins bins' dst_degree) p = true
  ∧ (userecent = true →
       read_bins bins' src_degree = {[ p ]}
       ∧ read_bins bins' dst_degree = {[ p ]}).
Proof.
  intros bins'. subst bins'. unfold Bitset.get. rewrite !place_read.
  rewrite !decide_True by tauto.
  destruct userecent; repeat split;
    try (apply bool_decide_eq_true; set_solver); try done.
Qed.

(** C7. After a greedy or HDRF decision returning machine [p], bit [p] is
    set in the source's and in the target's replica vector; under [userecent]
    both vectors were cleared before, so each holds exactly bit [p]; the set
    comes after any clear; and [load[p]] was incremented. *)
Theorem decided_machine_recorded source target (src_degree dst_degree : ref)
    (src_true_degree dst_true_degree : ref)
    (bins : gmap ref bin_counts_type) (degs : gmap ref Z)
    (proc_num_edges : list Z) (usehash userecent : bool) :
  (∀ p bins' loads',
      edge_to_proc_greedy hash_edge source target src_degree dst_degree
        bins proc_num_edges usehash userecent = Done (p, bins', loads') →
      Bitset.get (read_bins bins' src_degree) p = true
      ∧ Bitset.get (read_bins bins' dst_degree) p = true
      ∧ (userecent = true →
           read_bins bins' src_degree = {[ p ]}
           ∧ read_bins bins' dst_degree = {[ p ]})
      ∧ bins' = set_bit_at dst_degree p (set_bit_at src_degree p
                  (if userecent then clear_at dst_degree (clear_at src_degree bins) else bins))
      ∧ ∃ x, proc_num_edges !! p = Some x
             ∧ loads' = <[ p := incr x ]> proc_num_edges)
  ∧ (∀ p bins' degs' loads',
      edge_to_proc_hdrf hash_edge source target src_degree dst_degree
        src_true_degree dst_true_degree bins degs proc_num_edges
        usehash userecent = Done (p, bins', degs', loads') →
      Bitset.get (read_bins bins' src_degree) p = true
      ∧ Bitset.get (read_bins bins' dst_degree) p = true
      ∧ (userecent = true →
           read_bins bins' src_degree = {[ p ]}
           ∧ read_bins bins' dst_degree = {[ p ]})
      ∧ bins' = set_bit_at dst_degree p (set_bit_at src_degree p
                  (if userecent then clear_at dst_degree (clear_at src_degree bins) else bins))
      ∧ ∃ x, proc_num_edges !! p = Some x
             ∧ loads' = <[ p := incr x ]> proc_num_edges).
Proof.
  split.
  - intros p bins' loads' H.
    apply greedy_decision_effect in H as (-> & Hload).
    destruct (place_sets_bit src_degree dst_degree userecent p bins) as (? & ? & ?).
    repeat split; try tauto.
  - intros p bins' degs' loads' H.
    apply hdrf_decision_effect in H as (-> & _ & Hload).
    destruct (place_sets_bit src_degree dst_degree userecent p bins) as (? & ? & ?).
    repeat split; try tauto.
Qed.
End Placement.

Lemma decided_machine_recorded_witness :
  let bins : gmap Oracle.ref bin_counts_type := {[ 10%N := {[ 2%nat ]}; 7%N := ∅ ]} in
  let bins' := Oracle.place 10%N 7%N true 1%nat bins in
  Oracle.edge_to_proc_greedy (λ _, 0%N) 10%N 7%N 10%N 7%N bins [3; 1] false true
  = Done (1%nat, bins', [3; 2])
  ∧ Oracle.read_bins bins' 10%N = {[ 1%nat ]}
  ∧ Oracle.read_bins bins' 7%N = {[ 1%nat ]}.
Proof.
  intros bins bins'.
  assert (H : Oracle.edge_to_proc_greedy (λ _, 0%N) 10%N 7%N 10%N 7%N
                bins [3; 1] false true = Done (1%nat, bins', [3; 2]))
    by (vm_compute; reflexivity).
  split; [exact H|].
  destruct (proj1 (decided_machine_recorded (λ _, 0%N) 10%N 7%N 10%N 7%N
                     10%N 7%N bins ∅ [3; 1] false true) 1%nat bins' [3; 2] H)
    as (_ & _ & Hrecent & _).
  exact (Hrecent eq_refl).
Defined.

Section Symmetry.
Import Oracle.
Variable hash_edge : vertex_id_type * vertex_id_type → N.

Lemma edge_pair_comm (u v : vertex_id_type) : edge_pair u v = edge_pair v u.
Proof. unfold edge_pair. by rewrite N.min_comm, N.max_comm. Qed.

Lemma hash_mod_comm (u v : vertex_id_type) (n : nat) :
  hash_mod hash_edge u v n = hash_mod hash_edge v u n.
Proof. unfold hash_mod. by rewrite edge_pair_comm. Qed.

Lemma pick_best_comm (u v : vertex_id_type) (top : list procid_t) (n : nat) :
  pick_best hash_edge u v top n = pick_best hash_edge v u top n.
Proof. unfold pick_best. by rewrite hash_mod_comm. Qed.

Lemma edge_to_proc_random_comm (u v : vertex_id_type) (numprocs : nat) :
  edge_to_proc_random hash_edge u v numprocs
  = edge_to_proc_random hash_edge v u numprocs.
Proof. apply hash_mod_comm. Qed.

Lemma edge_to_proc_random_candidates_comm (u v : vertex_id_type)
    (candidates : list procid_t) :
  edge_to_proc_random_candidates hash_edge u v candidates
  = edge_to_proc_random_candidates hash_edge v u candidates.
Proof. unfold edge_to_proc_random_candidates. by rewrite hash_mod_comm. Qed.

Lemma greedy_score_comm u v su sv usehash numprocs minedges maxedges i load_i :
  greedy_score u v su sv usehash numprocs minedges maxedges i load_i
  = greedy_score v u sv su usehash numprocs minedges maxedges i load_i.
Proof. unfold greedy_score. by rewrite Z.add_comm. Qed.

Lemma greedy_top_procs_comm u v su sv usehash loads :
  greedy_top_procs u v su sv usehash loads
  = greedy_top_procs v u sv su usehash loads.
Proof.
  unfold greedy_top_procs, greedy_scores.
  destruct (min_element loads) as [mn|]; [|done].
  destruct (max_element loads) as [mx|]; [|done]. cbn.
  assert (imap (greedy_score u v su sv usehash (length loads) mn mx) loads
          = imap (greedy_score v u sv su usehash (length loads) mn mx) loads) as ->; [|done].
  apply imap_ext. intros. apply greedy_score_comm.
Qed.

Lemma set_bit_at_comm (r1 r2 : ref) (p : procid_t) (bins : gmap ref bin_counts_type) :
  set_bit_at r1 p (set_bit_at r2 p bins) = set_bit_at r2 p (set_bit_at r1 p bins).
Proof.
  unfold set_bit_at. destruct (decide (r1 = r2)) as [->|Hne]; [done|].
  rewrite !read_bins_insert. rewrite !decide_False by done.
  by rewrite insert_insert_ne. 
Qed.

Lemma clear_at_comm (r1 r2 : ref) (bins : gmap ref bin_counts_type) :
  clear_at r1 (clear_at r2 bins) = clear_at r2 (clear_at r1 bins).
Proof.
  unfold clear_at, Bitset.clear. destruct (decide (r1 = r2)) as [->|Hne]; [done|].
  by rewrite insert_insert_ne.
Qed.

Lemma place_comm (s d : ref) userecent p (bins : gmap ref bin_counts_type) :
  place s d userecent p bins = place d s userecent p bins.
Proof.
  unfold place. rewrite set_bit_at_comm. destruct userecent; [|done].
  by rewrite clear_at_comm.
Qed.

(** The greedy decider takes the same decision, and leaves the same state,
    when the roles of source and target are exchanged. *)
Lemma edge_to_proc_greedy_comm u v (ru rv : ref) bins loads usehash userecent :
  edge_to_proc_greedy hash_edge u v ru rv bins loads usehash userecent
  = edge_to_proc_greedy hash_edge v u rv ru bins loads usehash userecent.
Proof.
  unfold edge_to_proc_greedy.
  rewrite greedy_top_procs_comm.
  destruct (greedy_top_procs v u _ _ usehash loads) as [top|]; [|done]. cbn.
  rewrite pick_best_comm.
  destruct (pick_best hash_edge v u top (length loads)) as [best|]; [|done]. cbn.
  by rewrite place_comm.
Qed.

(** C4, HDRF. With loads [[0; 25002; 25003; 99999]], replicas of both
    endpoints on machines 1 and 2, true degrees 0 and 1 and both policies off,
    the score of machine 2 is [(bal + new_sd) + new_td]; exchanging the roles
    of the endpoints rounds the sum differently, machine 2 enters the tied
    set, and an edge whose canonical pair hashes to an odd value is sent to
    machine 1 in one order and to machine 2 in the other. *)
Theorem hdrf_swap_changes_decision :
  let both : bin_counts_type := {[ 1%nat; 2%nat ]} in
  let bins : gmap ref bin_counts_type := {[ 10%N := both; 7%N := both ]} in
  let degs : gmap ref Z := {[ 10%N := 0; 7%N := 1 ]} in
  hdrf_top_procs 10%N 7%N both both 0 1 false [0; 25002; 25003; 99999] = Done [1%nat]
  ∧ hdrf_top_procs 7%N 10%N both both 1 0 false [0; 25002; 25003; 99999] = Done [1%nat; 2%nat]
  ∧ ((hash_edge (7%N, 10%N) mod 2)%N = 1%N →
     (∃ bins' degs' loads',
        edge_to_proc_hdrf hash_edge 10%N 7%N 10%N 7%N 10%N 7%N
          bins degs [0; 25002; 25003; 99999] false false = Done (1%nat, bins', degs', loads'))
     ∧ (∃ bins' degs' loads',
        edge_to_proc_hdrf hash_edge 7%N 10%N 7%N 10%N 7%N 10%N
          bins degs [0; 25002; 25003; 99999] false false = Done (2%nat, bins', degs', loads'))).
Proof.
  intros both bins degs.
  assert (H1 : hdrf_top_procs 10%N 7%N both both 0 1 false [0; 25002; 25003; 99999] = Done [1%nat])
    by (vm_compute; reflexivity).
  assert (H2 : hdrf_top_procs 7%N 10%N both both 1 0 false [0; 25002; 25003; 99999] = Done [1%nat; 2%nat])
    by (vm_compute; reflexivity).
  split; [exact H1|]. split; [exact H2|].
  intros Hodd. split.
  - unfold edge_to_proc_hdrf.
    change (read_bins bins 10%N) with both. change (read_bins bins 7%N) with both.
    change (read_size_t degs 10%N) with 0. change (read_size_t degs 7%N) with 1.
    rewrite H1. unfold pick_best. cbn [mbind outcome_bind].
    rewrite hash_mod_done by done. cbn [length].
    rewrite N.mod_1_r. cbn. eauto.
  - unfold edge_to_proc_hdrf.
    change (read_bins bins 10%N) with both. change (read_bins bins 7%N) with both.
    change (read_size_t degs 10%N) with 0. change (read_size_t degs 7%N) with 1.
    rewrite H2. unfold pick_best. cbn [mbind outcome_bind].
    rewrite hash_mod_done by done.
    change (edge_pair 7%N 10%N) with (7%N, 10%N).
    change (N.of_nat (length [1%nat; 2%nat])) with 2%N.
    rewrite Hodd. cbn. eauto.
Qed.
End Symmetry.

Lemma hdrf_swap_changes_decision_witness :
  let both : bin_counts_type := {[ 1%nat; 2%nat ]} in
  let bins : gmap Oracle.ref bin_counts_type := {[ 10%N := both; 7%N := both ]} in
  let degs : gmap Oracle.ref Z := {[ 10%N := 0; 7%N := 1 ]} in
  (∃ bins' degs' loads',
      Oracle.edge_to_proc_hdrf (λ _, 1%N) 10%N 7%N 10%N 7%N 10%N 7%N
        bins degs [0; 25002; 25003; 99999] false false
      = Done (1%nat, bins', degs', loads'))
  ∧ (∃ bins' degs' loads',
      Oracle.edge_to_proc_hdrf (λ _, 1%N) 7%N 10%N 7%N 10%N 7%N 10%N
        bins degs [0; 25002; 25003; 99999] false false
      = Done (2%nat, bins', degs', loads')).
Proof.
  exact (proj2 (proj2 (hdrf_swap_changes_decision (λ _, 1%N))) eq_refl).
Defined.

(** * Properties of the ingress front-ends *)

Section Finalize.
Import HdrfIngress.

Lemma fold_left_add_mod (l : list Z) (a : Z) :
  fold_left (λ count x, (count + x) mod size_t_modulus) l (a mod size_t_modulus)
  = (a + foldr Z.add 0 l) mod size_t_modulus.
Proof.
  revert a. induction l as [|x l IH]; intros a; cbn.
  - by rewrite Z.add_0_r.
  - rewrite Zplus_mod_idemp_l, IH. f_equal. lia.
Qed.

(** C6 as stated fails: two machines, one edge added on the first and two on
    the second; [finalize] on the first logs 1, the cluster decided 3. *)
Lemma finalize_count_is_not_cluster_total :
  ∃ s0 s1 sent0 sent1,
    add_edges (EdgeData := unit) (λ _, 0%N) (construct 2 false false)
      [(1%N, 2%N, ())] = Done (s0, sent0)
    ∧ add_edges (EdgeData := unit) (λ _, 0%N) (construct 2 false false)
        [(3%N, 4%N, ()); (5%N, 6%N, ())] = Done (s1, sent1)
    ∧ snd (finalize s0) = 1
    ∧ cluster_total [s0; s1] = 3
    ∧ snd (finalize s0) ≠ cluster_total [s0; s1].
Proof.
  destruct (add_edges (EdgeData := unit) (λ _, 0%N) (construct 2 false false)
              [(1%N, 2%N, ())]) as [[s0 sent0]|] eqn:H0;
    [|by vm_compute in H0].
  destruct (add_edges (EdgeData := unit) (λ _, 0%N) (construct 2 false false)
              [(3%N, 4%N, ()); (5%N, 6%N, ())]) as [[s1 sent1]|] eqn:H1;
    [|by vm_compute in H1].
  exists s0, s1, sent0, sent1.
  vm_compute in H0. vm_compute in H1.
  injection H0 as <- <-. injection H1 as <- <-.
  repeat split; vm_compute; congruence.
Qed.

(** C6 (amended). [finalize] of the HDRF front-end clears both tables and
    logs the sum, in a [size_t], of the entries of its own [proc_num_edges]:
    the edges decided by this instance, whatever other machines did. *)
Theorem finalize_reports_local_count (st : distributed_hdrf_ingress) :
  dht (fst (finalize st)) = ∅
  ∧ degree_dht (fst (finalize st)) = ∅
  ∧ proc_num_edges (fst (finalize st)) = proc_num_edges st
  ∧ snd (finalize st) = foldr Z.add 0 (proc_num_edges st) mod size_t_modulus.
Proof.
  repeat split. unfold finalize. cbn [snd].
  change 0 with (0 mod size_t_modulus) at 1.
  by rewrite fold_left_add_mod.
Qed.

End Finalize.

Section Totality.
Import Oracle.
Variable hash_edge : vertex_id_type * vertex_id_type → N.

Lemma fold_left_min_spec (rest : list Z) (x : Z) :
  (fold_left Z.min rest x ≤ x ∧ ∀ y, y ∈ rest → fold_left Z.min rest x ≤ y)
  ∧ fold_left Z.min rest x ∈ x :: rest.
Proof.
  revert x. induction rest as [|z rest IH]; intros x; cbn.
  - split; [split; [lia|]|]; [by intros y ?%elem_of_nil|set_solver].
  - destruct (IH (Z.min x z)) as [[Hle Hall] Hin]. split; [split|].
    + lia.
    + intros y [->|Hy]%elem_of_cons; [lia|by apply Hall].
    + apply elem_of_cons in Hin as [Heq|Hin]; [|set_solver].
      rewrite Heq. destruct (Z.min_spec x z) as [[_ ->]|[_ ->]]; set_solver.
Qed.

Lemma fold_left_max_spec (rest : list Z) (x : Z) :
  (x ≤ fold_left Z.max rest x ∧ ∀ y, y ∈ rest → y ≤ fold_left Z.max rest x)
  ∧ fold_left Z.max rest x ∈ x :: rest.
Proof.
  revert x. induction rest as [|z rest IH]; intros x; cbn.
  - split; [split; [lia|]|]; [by intros y ?%elem_of_nil|set_solver].
  - destruct (IH (Z.max x z)) as [[Hle Hall] Hin]. split; [split|].
    + lia.
    + intros y [->|Hy]%elem_of_cons; [lia|by apply Hall].
    + apply elem_of_cons in Hin as [Heq|Hin]; [|set_solver].
      rewrite Heq. destruct (Z.max_spec x z) as [[_ ->]|[_ ->]]; set_solver.
Qed.

Lemma min_max_element_spec (v : list Z) :
  v ≠ [] →
  ∃ mn mx, min_element v = Done mn ∧ max_element v = Done mx
           ∧ mn ∈ v ∧ mx ∈ v ∧ ∀ y, y ∈ v → mn ≤ y ≤ mx.
Proof.
  destruct v as [|x rest]; [done|]. intros _.
  destruct (fold_left_min_spec rest x) as [[Hmn Hmnall] Hmnin].
  destruct (fold_left_max_spec rest x) as [[Hmx Hmxall] Hmxin].
  eexists _, _. split; [done|]. split; [done|]. split; [done|]. split; [done|].
  intros y [->|Hy]%elem_of_cons; auto.
Qed.

Lemma max_element_double_in (v : list Double.double) :
  v ≠ [] → ∃ ms, max_element_double v = Done ms ∧ ms ∈ v.
Proof.
  destruct v as [|x rest]; [done|]. intros _. eexists. split; [done|].
  revert x. induction rest as [|y rest IH]; intros x; cbn; [set_solver|].
  destruct (Double.ltb x y); [specialize (IH y)|specialize (IH x)]; set_solver.
Qed.

Lemma tied_self (K : Z) (x : Double.double) : bounded_by K x → tied x x = true.
Proof. intros Hx. unfold tied. by rewrite (sub_self K x Hx). Qed.

Lemma top_procs_from_range (i : nat) (scores : list Double.double)
    (ms : Double.double) (p : procid_t) :
  p ∈ top_procs_from i scores ms → (i ≤ p < i + length scores)%nat.
Proof.
  revert i. induction scores as [|s rest IH]; intros i; cbn; [by intros ?%elem_of_nil|].
  destruct (tied s ms).
  - intros [->|Hp]%elem_of_cons; [lia|]. apply IH in Hp. lia.
  - intros Hp. apply IH in Hp. lia.
Qed.

Lemma top_procs_from_nonempty (i : nat) (scores : list Double.double)
    (ms : Double.double) :
  ms ∈ scores → tied ms ms = true → top_procs_from i scores ms ≠ [].
Proof.
  intros Hin Htied. revert i.
  induction scores as [|s rest IH]; intros i; [by apply elem_of_nil in Hin|].
  cbn. apply elem_of_cons in Hin as [<-|Hin].
  - by rewrite Htied.
  - destruct (tied s ms); [done|]. by apply IH.
Qed.

Lemma pick_best_total (source target : vertex_id_type) (top : list procid_t) (n : nat) :
  top ≠ [] → (∀ p, p ∈ top → (p < n)%nat) →
  ∃ p, pick_best hash_edge source target top n = Done p ∧ p ∈ top ∧ (p < n)%nat.
Proof.
  intros Hne Hrange. unfold pick_best.
  rewrite hash_mod_done by (by destruct top).
  cbn [mbind outcome_bind].
  set (k := N.to_nat _).
  assert (Hk : (k < length top)%nat).
  { subst k.
    assert (hash_edge (edge_pair source target) mod N.of_nat (length top)
            < N.of_nat (length top))%N by (apply N.mod_lt; destruct top; cbn; [done|lia]).
    lia. }
  destruct (lookup_lt_is_Some_2 top k Hk) as [p Hp].
  unfold index. rewrite Hp. cbn [mbind outcome_bind].
  assert (p ∈ top) by (by eapply list_elem_of_lookup_2).
  rewrite decide_True by auto. eauto.
Qed.

Lemma increment_total (v : list Z) (i : nat) :
  (i < length v)%nat →
  ∃ x, v !! i = Some x ∧ increment v i = Done (<[ i := incr x ]> v).
Proof.
  intros Hi. destruct (lookup_lt_is_Some_2 v i Hi) as [x Hx].
  exists x. split; [done|]. unfold increment, index. by rewrite Hx.
Qed.


Lemma balance_bounded (minedges maxedges load_i : Z) :
  0 ≤ minedges ≤ load_i → load_i ≤ maxedges → maxedges + 1 < 2 ^ 53 →
  bounded_by 118 (balance minedges maxedges load_i).
Proof.
  intros Hmin Hmax Hsmall. unfold balance.
  rewrite denominator_exact by lia. unfold canon, Double.div.
  assert (Hpow : 2 ^ 53 < 2 ^ 64) by (by apply Z.pow_lt_mono_r).
  rewrite Z.mod_small by (unfold size_t_modulus; lia).
  pose proof (Pos2Z.is_pos (digits2_pos (Z.to_pos (maxedges + 1 - minedges)))).
  apply (SFdiv_bounded 65 52); [apply of_Z_bounded| | |]; lia.
Qed.

Lemma of_small_bounded (K k : Z) : 0 ≤ k ≤ 2 → 65 ≤ K → bounded_by K (Double.of_Z k).
Proof. intros Hk HK. apply (bounded_by_mono 65); [done|]. apply of_Z_bounded. lia. Qed.

Lemma b2z_sum_range (a b : bool) : 0 ≤ Z.b2z a + Z.b2z b ≤ 2.
Proof. destruct a, b; cbn; lia. Qed.

Lemma greedy_score_bounded source target src_bits dst_bits usehash numprocs
    (minedges maxedges : Z) (i : procid_t) (load_i : Z) :
  0 ≤ minedges ≤ load_i → load_i ≤ maxedges → maxedges + 1 < 2 ^ 53 →
  bounded_by 120 (greedy_score source target src_bits dst_bits usehash
                    numprocs minedges maxedges i load_i).
Proof.
  intros. unfold greedy_score, Double.add. apply (SFadd_bounded 118); [|  |lia].
  - by apply balance_bounded.
  - apply of_small_bounded; [apply b2z_sum_range|lia].
Qed.

Lemma hdrf_bonus_bounded (sd : Z) (f : Double.double) :
  bounded_by 118 f →
  bounded_by 122 (if 0 <? sd
                  then Double.add (Double.of_Z 1) (Double.sub (Double.of_Z 1) f)
                  else Double.of_Z 0).
Proof.
  intros Hf. destruct (0 <? sd); [|done].
  unfold Double.add, Double.sub. apply (SFadd_bounded 120); [| |lia].
  - apply of_small_bounded; lia.
  - apply (SFsub_bounded 118); [apply of_small_bounded; lia|done|lia].
Qed.

Lemma hdrf_score_bounded source target src_bits dst_bits fu fv usehash numprocs
    (minedges maxedges : Z) (i : procid_t) (load_i : Z) :
  bounded_by 118 fu → bounded_by 118 fv →
  0 ≤ minedges ≤ load_i → load_i ≤ maxedges → maxedges + 1 < 2 ^ 53 →
  bounded_by 126 (hdrf_score source target src_bits dst_bits fu fv usehash
                    numprocs minedges maxedges i load_i).
Proof.
  intros Hfu Hfv ???. unfold hdrf_score, Double.add at 1 2.
  apply (SFadd_bounded 124); [| |lia].
  - apply (SFadd_bounded 122); [| |lia].
    + apply (bounded_by_mono 118); [lia|]. by apply balance_bounded.
    + by apply hdrf_bonus_bounded.
  - apply (bounded_by_mono 122); [lia|]. by apply hdrf_bonus_bounded.
Qed.

Lemma degree_fraction_bounded (degree SUM : Z) :
  0 ≤ degree < 2 ^ 64 → 0 < SUM < 2 ^ 64 →
  bounded_by 118 (Double.div (Double.of_Z degree) (Double.of_Z SUM)).
Proof.
  intros Hd HS. destruct (of_Z_positive SUM HS) as (m & e & -> & He & _).
  unfold Double.div. apply (SFdiv_bounded 65 52); [by apply of_Z_bounded|lia..].
Qed.

Lemma tied_set_total (scores : list Double.double) (K : Z) :
  scores ≠ [] → Forall (bounded_by K) scores →
  ∃ ms top, max_element_double scores = Done ms
            ∧ top = top_procs_from 0 scores ms
            ∧ top ≠ []
            ∧ ∀ p, p ∈ top → (p < length scores)%nat.
Proof.
  intros Hne Hb. destruct (max_element_double_in scores Hne) as (ms' & Hms & Hin).
  exists ms', (top_procs_from 0 scores ms'). split; [done|]. split; [done|]. split.
  - apply top_procs_from_nonempty; [done|].
    apply (tied_self K). by eapply Forall_forall in Hb.
  - intros p Hp. apply top_procs_from_range in Hp. lia.
Qed.

Lemma greedy_top_procs_total source target src_bits dst_bits usehash (v : list Z) :
  v ≠ [] → small_loads v →
  ∃ top, greedy_top_procs source target src_bits dst_bits usehash v = Done top
         ∧ top ≠ [] ∧ ∀ p, p ∈ top → (p < length v)%nat.
Proof.
  intros Hne Hsmall.
  destruct (min_max_element_spec v Hne) as (mn & mx & Hmn & Hmx & Hmnin & Hmxin & Hall).
  unfold greedy_top_procs. rewrite Hmn, Hmx. cbn [mbind outcome_bind].
  unfold small_loads in Hsmall. rewrite Forall_forall in Hsmall.
  set (scores := greedy_scores _ _ _ _ _ _ _ _).
  assert (Hlen : length scores = length v) by (subst scores; unfold greedy_scores; by rewrite length_imap).
  destruct (tied_set_total scores 120) as (ms & top & Hms & -> & Htop & Hrange).
  - intros Hnil. apply (f_equal length) in Hnil. rewrite Hlen in Hnil. by destruct v.
  - apply Forall_forall. intros s Hs. subst scores. unfold greedy_scores in Hs.
    apply elem_of_lookup_imap in Hs as (i & x & -> & Hx).
    apply list_elem_of_lookup_2 in Hx.
    pose proof (Hall x Hx). pose proof (Hsmall mn Hmnin). pose proof (Hsmall mx Hmxin).
    apply greedy_score_bounded; lia.
  - rewrite Hms. cbn [mbind outcome_bind]. eexists. split; [done|]. split; [done|].
    intros p Hp. rewrite <- Hlen. by apply Hrange.
Qed.

Lemma hdrf_top_procs_total source target src_bits dst_bits (src_true dst_true : Z)
    usehash (v : list Z) :
  v ≠ [] → small_loads v →
  0 ≤ src_true ∧ src_true + 1 < 2 ^ 63 → 0 ≤ dst_true ∧ dst_true + 1 < 2 ^ 63 →
  ∃ top, hdrf_top_procs source target src_bits dst_bits src_true dst_true usehash v
         = Done top
         ∧ top ≠ [] ∧ ∀ p, p ∈ top → (p < length v)%nat.
Proof.
  intros Hne Hsmall Hsrc Hdst.
  destruct (min_max_element_spec v Hne) as (mn & mx & Hmn & Hmx & Hmnin & Hmxin & Hall).
  unfold hdrf_top_procs. rewrite Hmn, Hmx. cbn [mbind outcome_bind].
  unfold small_loads in Hsmall. rewrite Forall_forall in Hsmall.
  set (scores := hdrf_scores _ _ _ _ _ _ _ _ _ _).
  assert (Hlen : length scores = length v) by (subst scores; unfold hdrf_scores; by rewrite length_imap).
  assert (Hpow : 2 ^ 64 = 2 * 2 ^ 63) by done.
  assert (Hu : incr src_true = src_true + 1)
    by (unfold incr, size_t_modulus; rewrite Z.mod_small; lia).
  assert (Hv : incr dst_true = dst_true + 1)
    by (unfold incr, size_t_modulus; rewrite Z.mod_small; lia).
  destruct (tied_set_total scores 126) as (ms & top & Hms & -> & Htop & Hrange).
  - intros Hnil. apply (f_equal length) in Hnil. rewrite Hlen in Hnil. by destruct v.
  - apply Forall_forall. intros s Hs. subst scores. unfold hdrf_scores in Hs.
    apply elem_of_lookup_imap in Hs as (i & x & -> & Hx).
    apply list_elem_of_lookup_2 in Hx.
    pose proof (Hall x Hx). pose proof (Hsmall mn Hmnin). pose proof (Hsmall mx Hmxin).
    rewrite Hu, Hv. unfold size_t_modulus. rewrite Z.mod_small by lia.
    apply hdrf_score_bounded; [apply degree_fraction_bounded; lia..|lia|lia|lia].
  - rewrite Hms. cbn [mbind outcome_bind]. eexists. split; [done|]. split; [done|].
    intros p Hp. rewrite <- Hlen. by apply Hrange.
Qed.


(** C2 as stated fails: when both loads are [2 ^ 53] the denominator
    [1.0 + maxedges - minedges] rounds to zero, every score is NaN, no index
    is tied with the maximum, and [hash % top_procs.size()] divides by zero. *)
Lemma greedy_tied_set_can_be_empty :
  greedy_top_procs 1%N 2%N ∅ ∅ false [2 ^ 53; 2 ^ 53] = Done []
  ∧ edge_to_proc_greedy (λ _, 0%N) 1%N 2%N 1%N 2%N ∅ [2 ^ 53; 2 ^ 53] false false
    = Fault DivByZero
  ∧ hdrf_top_procs 1%N 2%N ∅ ∅ 0 0 false [2 ^ 53; 2 ^ 53] = Done []
  ∧ edge_to_proc_hdrf (λ _, 0%N) 1%N 2%N 1%N 2%N 1%N 2%N ∅ ∅ [2 ^ 53; 2 ^ 53] false false
    = Fault DivByZero.
Proof. repeat split; vm_compute; reflexivity. Qed.

Lemma edge_to_proc_random_total (source target : vertex_id_type) (numprocs : nat) :
  numprocs ≠ 0%nat →
  ∃ p, edge_to_proc_random hash_edge source target numprocs = Done p
       ∧ (p < numprocs)%nat.
Proof.
  intros Hn. unfold edge_to_proc_random.
  rewrite hash_mod_done by done. eexists. split; [done|].
  assert (hash_edge (edge_pair source target) mod N.of_nat numprocs
          < N.of_nat numprocs)%N by (apply N.mod_lt; lia).
  lia.
Qed.

Lemma edge_to_proc_random_candidates_total (source target : vertex_id_type)
    (candidates : list procid_t) :
  candidates ≠ [] →
  ∃ p, edge_to_proc_random_candidates hash_edge source target candidates = Done p
       ∧ p ∈ candidates.
Proof.
  intros Hne. unfold edge_to_proc_random_candidates.
  rewrite hash_mod_done by (by destruct candidates). cbn [mbind outcome_bind].
  set (k := N.to_nat _).
  assert (Hk : (k < length candidates)%nat).
  { subst k.
    assert (hash_edge (edge_pair source target) mod N.of_nat (length candidates)
            < N.of_nat (length candidates))%N
      by (apply N.mod_lt; destruct candidates; cbn; [done|lia]).
    lia. }
  destruct (lookup_lt_is_Some_2 candidates k Hk) as [p Hp].
  exists p. unfold index. rewrite Hp. split; [done|].
  by eapply list_elem_of_lookup_2.
Qed.

Lemma edge_to_proc_greedy_total (source target : vertex_id_type)
    (src_degree dst_degree : ref) (bins : gmap ref bin_counts_type)
    (v : list Z) (usehash userecent : bool) :
  v ≠ [] → small_loads v →
  ∃ top p bins' loads',
    greedy_top_procs source target (read_bins bins src_degree)
      (read_bins bins dst_degree) usehash v = Done top
    ∧ top ≠ []
    ∧ edge_to_proc_greedy hash_edge source target src_degree dst_degree
        bins v usehash userecent = Done (p, bins', loads')
    ∧ p ∈ top
    ∧ (p < length v)%nat.
Proof.
  intros Hne Hsmall.
  destruct (greedy_top_procs_total source target (read_bins bins src_degree)
              (read_bins bins dst_degree) usehash v Hne Hsmall)
    as (top & Htop & Htopne & Hrange).
  destruct (pick_best_total source target top (length v) Htopne Hrange)
    as (p & Hp & Hin & Hlt).
  destruct (increment_total v p Hlt) as (x & _ & Hinc).
  exists top, p. eexists _, _. split; [done|]. split; [done|].
  split; [|done]. unfold edge_to_proc_greedy.
  rewrite Htop. cbn [mbind outcome_bind]. rewrite Hp. cbn [mbind outcome_bind].
  rewrite Hinc. done.
Qed.

Lemma edge_to_proc_hdrf_total (source target : vertex_id_type)
    (src_degree dst_degree src_true_degree dst_true_degree : ref)
    (bins : gmap ref bin_counts_type) (degs : gmap ref Z)
    (v : list Z) (usehash userecent : bool) :
  v ≠ [] → small_loads v →
  0 ≤ read_size_t degs src_true_degree ∧ read_size_t degs src_true_degree + 1 < 2 ^ 63 →
  0 ≤ read_size_t degs dst_true_degree ∧ read_size_t degs dst_true_degree + 1 < 2 ^ 63 →
  ∃ top p bins' degs' loads',
    hdrf_top_procs source target (read_bins bins src_degree)
      (read_bins bins dst_degree) (read_size_t degs src_true_degree)
      (read_size_t degs dst_true_degree) usehash v = Done top
    ∧ top ≠ []
    ∧ edge_to_proc_hdrf hash_edge source target src_degree dst_degree
        src_true_degree dst_true_degree bins degs v
        usehash userecent = Done (p, bins', degs', loads')
    ∧ p ∈ top
    ∧ (p < length v)%nat.
Proof.
  intros Hne Hsmall Hsrc Hdst.
  destruct (hdrf_top_procs_total source target (read_bins bins src_degree)
              (read_bins bins dst_degree) (read_size_t degs src_true_degree)
              (read_size_t degs dst_true_degree) usehash v Hne Hsmall Hsrc Hdst)
    as (top & Htop & Htopne & Hrange).
  destruct (pick_best_total source target top (length v) Htopne Hrange)
    as (p & Hp & Hin & Hlt).
  destruct (increment_total v p Hlt) as (x & _ & Hinc).
  exists top, p. eexists _, _, _. split; [done|]. split; [done|].
  split; [|done]. unfold edge_to_proc_hdrf.
  rewrite Htop. cbn [mbind outcome_bind]. rewrite Hp. cbn [mbind outcome_bind].
  rewrite Hinc. done.
Qed.

(** C2 (amended). The random decider called with [numprocs >= 1] returns a
    machine below [numprocs]; its restricted form called with a non-empty
    candidate list returns one of the candidates; the greedy and the HDRF
    decider, called with a non-empty load vector whose entries are all below
    [2 ^ 53 - 1] (and, for HDRF, true-degree counters below [2 ^ 63 - 1]),
    find a non-empty tied set, pass [ASSERT_LT] and return a machine below
    [numprocs]. *)
Theorem decided_machine_in_range (source target : vertex_id_type) :
  (∀ numprocs : nat,
     numprocs ≠ 0%nat →
     ∃ p, edge_to_proc_random hash_edge source target numprocs = Done p
          ∧ (p < numprocs)%nat)
  ∧ (∀ candidates : list procid_t,
       candidates ≠ [] →
       ∃ p, edge_to_proc_random_candidates hash_edge source target candidates = Done p
            ∧ p ∈ candidates)
  ∧ (∀ (src_degree dst_degree : ref) (bins : gmap ref bin_counts_type)
       (proc_num_edges : list Z) (usehash userecent : bool),
       proc_num_edges ≠ [] →
       Forall (λ x, 0 ≤ x ∧ x + 1 < 2 ^ 53) proc_num_edges →
       ∃ top p bins' loads',
         greedy_top_procs source target (read_bins bins src_degree)
           (read_bins bins dst_degree) usehash proc_num_edges = Done top
         ∧ top ≠ []
         ∧ edge_to_proc_greedy hash_edge source target src_degree dst_degree
             bins proc_num_edges usehash userecent = Done (p, bins', loads')
         ∧ p ∈ top
         ∧ (p < length proc_num_edges)%nat)
  ∧ (∀ (src_degree dst_degree src_true_degree dst_true_degree : ref)
       (bins : gmap ref bin_counts_type) (degs : gmap ref Z)
       (proc_num_edges : list Z) (usehash userecent : bool),
       proc_num_edges ≠ [] →
       Forall (λ x, 0 ≤ x ∧ x + 1 < 2 ^ 53) proc_num_edges →
       0 ≤ read_size_t degs src_true_degree ∧ read_size_t degs src_true_degree + 1 < 2 ^ 63 →
       0 ≤ read_size_t degs dst_true_degree ∧ read_size_t degs dst_true_degree + 1 < 2 ^ 63 →
       ∃ top p bins' degs' loads',
         hdrf_top_procs source target (read_bins bins src_degree)
           (read_bins bins dst_degree) (read_size_t degs src_true_degree)
           (read_size_t degs dst_true_degree) usehash proc_num_edges = Done top
         ∧ top ≠ []
         ∧ edge_to_proc_hdrf hash_edge source target src_degree dst_degree
             src_true_degree dst_true_degree bins degs proc_num_edges
             usehash userecent = Done (p, bins', degs', loads')
         ∧ p ∈ top
         ∧ (p < length proc_num_edges)%nat).
Proof.
  split; [|split; [|split]].
  - apply edge_to_proc_random_total.
  - apply edge_to_proc_random_candidates_total.
  - intros. by apply edge_to_proc_greedy_total.
  - intros. by apply edge_to_proc_hdrf_total.
Qed.

End Totality.

Lemma decided_machine_in_range_witness :
  ∃ top p bins' loads',
    Oracle.greedy_top_procs 10%N 7%N (Oracle.read_bins ∅ 10%N)
      (Oracle.read_bins ∅ 7%N) false [3; 1] = Done top
    ∧ top ≠ []
    ∧ Oracle.edge_to_proc_greedy (λ _, 0%N) 10%N 7%N 10%N 7%N ∅ [3; 1] false false
      = Done (p, bins', loads')
    ∧ p ∈ top
    ∧ (p < length [3; 1])%nat.
Proof.
  refine (proj1 (proj2 (proj2 (decided_machine_in_range (λ _, 0%N) 10%N 7%N)))
            10%N 7%N ∅ [3; 1] false false _ _).
  - discriminate.
  - repeat constructor; lia.
Defined.

Section LoadConservation.
Import Oracle.
Variable hash_edge : vertex_id_type * vertex_id_type → N.
Context {EdgeData : Type}.

Notation total v := (foldr Z.add 0 v).

Lemma total_insert (v : list Z) (p : nat) (x y : Z) :
  v !! p = Some x → total (<[ p := y ]> v) = total v - x + y.
Proof.
  revert p. induction v as [|z v IH]; intros [|p] Hp; simpl in *; try done.
  - injection Hp as ->. lia.
  - rewrite (IH p Hp). lia.
Qed.

Lemma entry_le_total (v : list Z) (x : Z) :
  Forall (λ y, 0 ≤ y) v → x ∈ v → x ≤ total v.
Proof.
  induction 1 as [|z v Hz Hv IH]; [by intros ?%elem_of_nil|].
  assert (0 ≤ total v) by (clear -Hv; induction Hv; cbn; lia).
  intros [->|Hx]%elem_of_cons; cbn; [lia|]. specialize (IH Hx). lia.
Qed.

Lemma small_loads_of_total (v : list Z) (n : Z) :
  Forall (λ y, 0 ≤ y) v → total v = n → n + 1 < 2 ^ 53 → small_loads v.
Proof.
  intros Hpos Hsum Hn. apply Forall_forall. intros x Hx.
  pose proof (entry_le_total v x Hpos Hx).
  rewrite Forall_forall in Hpos. specialize (Hpos x Hx). lia.
Qed.

Lemma insert_succ_le (v : list Z) (p : nat) (x : Z) :
  v !! p = Some x → Forall2 Z.le v (<[ p := x + 1 ]> v).
Proof.
  revert p. induction v as [|z v IH]; intros [|p] Hp; simpl in *; try done.
  - injection Hp as ->. constructor; [lia|]. apply Forall2_same_length_lookup_2; [done|].
    intros i a b Ha Hb. assert (a = b) by congruence. lia.
  - constructor; [lia|]. by apply IH.
Qed.

Lemma Forall2_le_trans (u v w : list Z) :
  Forall2 Z.le u v → Forall2 Z.le v w → Forall2 Z.le u w.
Proof.
  intros Huv. revert w. induction Huv; intros w Hvw; inversion Hvw; subst; constructor.
  - lia.
  - auto.
Qed.

Lemma Forall2_le_refl (v : list Z) : Forall2 Z.le v v.
Proof. induction v; constructor; [lia|done]. Qed.

Lemma incr_small (x : Z) : 0 ≤ x → x + 1 < 2 ^ 63 → incr x = x + 1.
Proof.
  intros. unfold incr, size_t_modulus. apply Z.mod_small.
  assert (2 ^ 64 = 2 * 2 ^ 63) by done. lia.
Qed.

(** One decision under small loads: entry [p] grows by one, nothing else
    changes. *)
Lemma greedy_step source target (sr dr : ref) (bins : gmap ref bin_counts_type)
    (v : list Z) usehash userecent p bins' v' :
  small_loads v →
  edge_to_proc_greedy hash_edge source target sr dr bins v usehash userecent
  = Done (p, bins', v') →
  ∃ x, v !! p = Some x ∧ v' = <[ p := x + 1 ]> v.
Proof.
  intros Hsmall Hrun.
  apply greedy_decision_effect in Hrun as (_ & x & Hx & ->).
  exists x. split; [done|]. f_equal.
  unfold small_loads in Hsmall. rewrite Forall_forall in Hsmall.
  destruct (Hsmall x (list_elem_of_lookup_2 _ _ _ Hx)).
  apply incr_small; [done|]. assert (2 ^ 53 < 2 ^ 63) by done. lia.
Qed.

Lemma hdrf_step source target (sr dr str dtr : ref) (bins : gmap ref bin_counts_type)
    (degs : gmap ref Z) (v : list Z) usehash userecent p bins' degs' v' :
  small_loads v →
  edge_to_proc_hdrf hash_edge source target sr dr str dtr bins degs v usehash userecent
  = Done (p, bins', degs', v') →
  (∃ x, v !! p = Some x ∧ v' = <[ p := x + 1 ]> v)
  ∧ degs' = count_edge str dtr degs.
Proof.
  intros Hsmall Hrun.
  apply hdrf_decision_effect in Hrun as (_ & -> & x & Hx & ->).
  split; [|done].
  exists x. split; [done|]. f_equal.
  unfold small_loads in Hsmall. rewrite Forall_forall in Hsmall.
  destruct (Hsmall x (list_elem_of_lookup_2 _ _ _ Hx)).
  apply incr_small; [done|]. assert (2 ^ 53 < 2 ^ 63) by done. lia.
Qed.


Lemma read_size_t_lookup_or_default (t : gmap vertex_id_type Z) (k r : vertex_id_type) :
  read_size_t (lookup_or_default 0 k t) r = read_size_t t r.
Proof.
  unfold lookup_or_default. destruct (t !! k) eqn:Hk; [done|].
  rewrite read_size_t_insert. case_decide as Heq; [|done]. rewrite <- Heq.
  unfold read_size_t, ref, vertex_id_type in *. by rewrite Hk.
Qed.

Lemma Forall_nonneg_insert (v : list Z) (p : nat) (y : Z) :
  Forall (λ x, 0 ≤ x) v → 0 ≤ y → Forall (λ x, 0 ≤ x) (<[ p := y ]> v).
Proof. intros Hv Hy. by apply Forall_insert. Qed.

Section Hdrf.
Import HdrfIngress.

Notation hdrf_inv numprocs n st :=
  (length (proc_num_edges st) = numprocs
   ∧ Forall (λ x, 0 ≤ x) (proc_num_edges st)
   ∧ total (proc_num_edges st) = n
   ∧ ∀ r, 0 ≤ read_size_t (degree_dht st) r ≤ 2 * n).

Lemma hdrf_add_edge_total (numprocs : nat) (n : Z)
    (st : distributed_hdrf_ingress) source target (edata : EdgeData) :
  numprocs ≠ 0%nat → hdrf_inv numprocs n st → 0 ≤ n → n + 1 < 2 ^ 53 →
  ∃ st' p x,
    add_edge hash_edge st source target edata
    = Done (st', (p, {| source := source; target := target; edata := edata |}))
    ∧ proc_num_edges st !! p = Some x
    ∧ proc_num_edges st' = <[ p := x + 1 ]> (proc_num_edges st)
    ∧ hdrf_inv numprocs (n + 1) st'.
Proof.
  intros Hnp (Hlen & Hpos & Hsum & Hdeg) Hn0 Hn.
  assert (Hsmall : small_loads (proc_num_edges st))
    by (by eapply small_loads_of_total).
  assert (Hne : proc_num_edges st ≠ []) by (intros Hnil; rewrite Hnil in Hlen; done).
  assert (Hpow : 2 ^ 54 < 2 ^ 63) by done.
  assert (Hpow' : 2 ^ 54 = 2 * 2 ^ 53) by done.
  set (dht1 := lookup_or_default ∅ target (lookup_or_default ∅ source (dht st))).
  set (deg1 := lookup_or_default 0 target (lookup_or_default 0 source (degree_dht st))).
  assert (Hdeg1 : ∀ r, read_size_t deg1 r = read_size_t (degree_dht st) r).
  { intros r. subst deg1. by rewrite !read_size_t_lookup_or_default. }
  destruct (edge_to_proc_hdrf_total hash_edge source target
              source target source target dht1 deg1 (proc_num_edges st)
              (usehash st) (userecent st) Hne Hsmall)
    as (top & p & bins' & degs' & loads' & _ & _ & Hrun & _ & Hlt).
  { rewrite Hdeg1. specialize (Hdeg source). lia. }
  { rewrite Hdeg1. specialize (Hdeg target). lia. }
  destruct (hdrf_step _ _ _ _ _ _ _ _ _ _ _ _ _ _ _ Hsmall Hrun) as [(x & Hx & ->) ->].
  eexists _, p, x. unfold add_edge. fold dht1 deg1. rewrite Hrun.
  cbn [mbind outcome_bind]. split; [reflexivity|]. split; [done|]. split; [done|].
  cbn [proc_num_edges degree_dht].
  assert (Hxpos : 0 ≤ x).
  { rewrite Forall_forall in Hpos. apply Hpos. by eapply list_elem_of_lookup_2. }
  split; [by rewrite length_insert|]. split; [apply Forall_nonneg_insert; [done|lia]|].
  split; [rewrite (total_insert _ _ x) by done; lia|].
  intros r. rewrite count_edge_read, !Hdeg1.
  pose proof (Hdeg source). pose proof (Hdeg target). pose proof (Hdeg r).
  repeat case_decide; rewrite ?incr_small; rewrite ?incr_small; lia.
Qed.

Lemma hdrf_add_edges_total (numprocs : nat)
    (edges : list (vertex_id_type * vertex_id_type * EdgeData)) :
  numprocs ≠ 0%nat →
  ∀ (n : Z) (st : distributed_hdrf_ingress),
    hdrf_inv numprocs n st → 0 ≤ n → n + Z.of_nat (length edges) < 2 ^ 53 →
    ∃ st' sent,
      add_edges hash_edge st edges = Done (st', sent)
      ∧ length sent = length edges
      ∧ Forall2 Z.le (proc_num_edges st) (proc_num_edges st')
      ∧ hdrf_inv numprocs (n + Z.of_nat (length edges)) st'.
Proof.
  intros Hnp. induction edges as [|[[source target] edata] edges IH];
    intros n st Hinv Hn0 Hn.
  - exists st, []. cbn. rewrite Z.add_0_r. split; [done|]. split; [done|].
    split; [apply Forall2_le_refl|done].
  - cbn [length] in Hn.
    destruct (hdrf_add_edge_total numprocs n st source target edata Hnp Hinv Hn0)
      as (st1 & p & x & Hrun1 & Hx & Hloads & Hinv1); [lia|].
    destruct (IH (n + 1) st1 Hinv1) as (st' & sent & Hrun & Hlen & Hmono & Hinv');
      [lia..|].
    exists st', ((p, {| source := source; target := target; edata := edata |}) :: sent).
    cbn [add_edges]. rewrite Hrun1. cbn [mbind outcome_bind]. rewrite Hrun.
    cbn [mbind outcome_bind]. split; [done|]. split; [cbn; lia|].
    split.
    + eapply Forall2_le_trans; [|exact Hmono]. rewrite Hloads. by apply insert_succ_le.
    + replace (n + Z.of_nat (length ((source, target, edata) :: edges)))
        with (n + 1 + Z.of_nat (length edges)) by (cbn [length]; lia).
      exact Hinv'.
Qed.

End Hdrf.


Section Oblivious.
Import ObliviousIngress.

Notation obl_inv numprocs n st :=
  (length (proc_num_edges st) = numprocs
   ∧ Forall (λ x, 0 ≤ x) (proc_num_edges st)
   ∧ total (proc_num_edges st) = n).

Lemma oblivious_add_edge_total (numprocs : nat) (n : Z)
    (st : distributed_oblivious_ingress) source target (edata : EdgeData) :
  numprocs ≠ 0%nat → obl_inv numprocs n st → 0 ≤ n → n + 1 < 2 ^ 53 →
  ∃ st' p x,
    add_edge hash_edge st source target edata
    = Done (st', (p, {| source := source; target := target; edata := edata |}))
    ∧ proc_num_edges st !! p = Some x
    ∧ proc_num_edges st' = <[ p := x + 1 ]> (proc_num_edges st)
    ∧ obl_inv numprocs (n + 1) st'.
Proof.
  intros Hnp (Hlen & Hpos & Hsum) Hn0 Hn.
  assert (Hsmall : small_loads (proc_num_edges st))
    by (by eapply small_loads_of_total).
  assert (Hne : proc_num_edges st ≠ []) by (intros Hnil; rewrite Hnil in Hlen; done).
  set (dht1 := lookup_or_default ∅ target (lookup_or_default ∅ source (dht st))).
  destruct (edge_to_proc_greedy_total hash_edge source target
              source target dht1 (proc_num_edges st)
              (usehash st) (userecent st) Hne Hsmall)
    as (top & p & bins' & loads' & _ & _ & Hrun & _ & Hlt).
  destruct (greedy_step _ _ _ _ _ _ _ _ _ _ _ Hsmall Hrun) as (x & Hx & ->).
  eexists _, p, x. unfold add_edge. fold dht1. rewrite Hrun.
  cbn [mbind outcome_bind]. split; [reflexivity|]. split; [done|]. split; [done|].
  cbn [proc_num_edges].
  assert (Hxpos : 0 ≤ x).
  { rewrite Forall_forall in Hpos. apply Hpos. by eapply list_elem_of_lookup_2. }
  split; [by rewrite length_insert|]. split; [apply Forall_nonneg_insert; [done|lia]|].
  rewrite (total_insert _ _ x) by done; lia.
Qed.

Lemma oblivious_add_edges_total (numprocs : nat)
    (edges : list (vertex_id_type * vertex_id_type * EdgeData)) :
  numprocs ≠ 0%nat →
  ∀ (n : Z) (st : distributed_oblivious_ingress),
    obl_inv numprocs n st → 0 ≤ n → n + Z.of_nat (length edges) < 2 ^ 53 →
    ∃ st' sent,
      add_edges hash_edge st edges = Done (st', sent)
      ∧ length sent = length edges
      ∧ Forall2 Z.le (proc_num_edges st) (proc_num_edges st')
      ∧ obl_inv numprocs (n + Z.of_nat (length edges)) st'.
Proof.
  intros Hnp. induction edges as [|[[source target] edata] edges IH];
    intros n st Hinv Hn0 Hn.
  - exists st, []. cbn. rewrite Z.add_0_r. split; [done|]. split; [done|].
    split; [apply Forall2_le_refl|done].
  - cbn [length] in Hn.
    destruct (oblivious_add_edge_total numprocs n st source target edata Hnp Hinv Hn0)
      as (st1 & p & x & Hrun1 & Hx & Hloads & Hinv1); [lia|].
    destruct (IH (n + 1) st1 Hinv1) as (st' & sent & Hrun & Hlen & Hmono & Hinv');
      [lia..|].
    exists st', ((p, {| source := source; target := target; edata := edata |}) :: sent).
    cbn [add_edges]. rewrite Hrun1. cbn [mbind outcome_bind]. rewrite Hrun.
    cbn [mbind outcome_bind]. split; [done|]. split; [cbn; lia|].
    split.
    + eapply Forall2_le_trans; [|exact Hmono]. rewrite Hloads. by apply insert_succ_le.
    + replace (n + Z.of_nat (length ((source, target, edata) :: edges)))
        with (n + 1 + Z.of_nat (length edges)) by (cbn [length]; lia).
      exact Hinv'.
Qed.

End Oblivious.

Lemma total_replicate_zero (n : nat) : total (replicate n 0) = 0.
Proof. induction n; cbn; lia. Qed.

Lemma hdrf_add_edges_app (st : HdrfIngress.distributed_hdrf_ingress)
    (es1 es2 : list (vertex_id_type * vertex_id_type * EdgeData)) :
  HdrfIngress.add_edges hash_edge st (es1 ++ es2)
  = '(st1, sent1) ← HdrfIngress.add_edges hash_edge st es1;
    '(st2, sent2) ← HdrfIngress.add_edges hash_edge st1 es2;
    Done (st2, sent1 ++ sent2).
Proof.
  revert st. induction es1 as [|[[s t] e] es1 IH]; intros st; cbn.
  - by destruct (HdrfIngress.add_edges hash_edge st es2) as [[??]|].
  - destruct (HdrfIngress.add_edge hash_edge st s t e) as [[st1 msg]|]; cbn; [|done].
    rewrite IH. destruct (HdrfIngress.add_edges hash_edge st1 es1) as [[st2 sent1]|]; cbn; [|done].
    by destruct (HdrfIngress.add_edges hash_edge st2 es2) as [[??]|].
Qed.

Lemma oblivious_add_edges_app (st : ObliviousIngress.distributed_oblivious_ingress)
    (es1 es2 : list (vertex_id_type * vertex_id_type * EdgeData)) :
  ObliviousIngress.add_edges hash_edge st (es1 ++ es2)
  = '(st1, sent1) ← ObliviousIngress.add_edges hash_edge st es1;
    '(st2, sent2) ← ObliviousIngress.add_edges hash_edge st1 es2;
    Done (st2, sent1 ++ sent2).
Proof.
  revert st. induction es1 as [|[[s t] e] es1 IH]; intros st; cbn.
  - by destruct (ObliviousIngress.add_edges hash_edge st es2) as [[??]|].
  - destruct (ObliviousIngress.add_edge hash_edge st s t e) as [[st1 msg]|]; cbn; [|done].
    rewrite IH. destruct (ObliviousIngress.add_edges hash_edge st1 es1) as [[st2 sent1]|]; cbn; [|done].
    by destruct (ObliviousIngress.add_edges hash_edge st2 es2) as [[??]|].
Qed.

(** C3 as stated fails: the counters are [size_t]; with loads
    [[0; 2^64 - 1]] and replicas of both endpoints on machine 1 the decision
    is machine 1 and its entry wraps to 0. *)
Lemma load_entry_can_wrap :
  let bins : gmap ref bin_counts_type :=
    {[ 1%N := {[ 1%nat ]}; 2%N := {[ 1%nat ]} ]} in
  (∃ bins', edge_to_proc_greedy (λ _, 0%N) 1%N 2%N 1%N 2%N bins
              [0; 2 ^ 64 - 1] false false = Done (1%nat, bins', [0; 0]))
  ∧ (∃ bins' degs', edge_to_proc_hdrf (λ _, 0%N) 1%N 2%N 1%N 2%N 1%N 2%N bins ∅
              [0; 2 ^ 64 - 1] false false = Done (1%nat, bins', degs', [0; 0])).
Proof.
  intros bins. split.
  - destruct (edge_to_proc_greedy (λ _, 0%N) 1%N 2%N 1%N 2%N bins
                [0; 2 ^ 64 - 1] false false) as [[[p b] l]|] eqn:Hrun.
    + exists b. assert (Hpl : (p, l) = (1%nat, [0; 0])).
      { change (p, l) with (match Done (A:=procid_t * gmap ref bin_counts_type * list Z) (p, b, l) with Done (p, _, l) => (p, l) | Fault _ => (0%nat, []) end).
        rewrite <- Hrun. vm_compute. reflexivity. }
      by injection Hpl as -> ->.
    + exfalso. assert (is_done (Fault (A:=procid_t * gmap ref bin_counts_type * list Z) f) = true)
        by (rewrite <- Hrun; vm_compute; reflexivity). done.
  - destruct (edge_to_proc_hdrf (λ _, 0%N) 1%N 2%N 1%N 2%N 1%N 2%N bins ∅
                [0; 2 ^ 64 - 1] false false) as [[[[p b] d] l]|] eqn:Hrun.
    + exists b, d. assert (Hpl : (p, l) = (1%nat, [0; 0])).
      { change (p, l) with (match Done (A:=procid_t * gmap ref bin_counts_type * gmap ref Z * list Z) (p, b, d, l) with Done (p, _, _, l) => (p, l) | Fault _ => (0%nat, []) end).
        rewrite <- Hrun. vm_compute. reflexivity. }
      by injection Hpl as -> ->.
    + exfalso. assert (is_done (Fault (A:=procid_t * gmap ref bin_counts_type * gmap ref Z * list Z) f) = true)
        by (rewrite <- Hrun; vm_compute; reflexivity). done.
Qed.


(** C3 (amended). While every load is below [2 ^ 53 - 1], a greedy or HDRF
    decision adds exactly one to the entry of the returned machine and leaves
    every other entry as it is.  Hence, from the all-zero load vector of a
    front-end built for at least one machine, [N < 2 ^ 53] sequential
    [add_edge] calls all return, the load vector then sums to [N], and the
    vector after any prefix of the calls is entry-wise below or equal to the
    final one. *)
Theorem load_conservation :
  (∀ source target (src_degree dst_degree : ref)
     (bins : gmap ref bin_counts_type) (v : list Z) usehash userecent p bins' v',
     small_loads v →
     edge_to_proc_greedy hash_edge source target src_degree dst_degree bins v
       usehash userecent = Done (p, bins', v') →
     ∃ x, v !! p = Some x ∧ v' = <[ p := x + 1 ]> v)
  ∧ (∀ source target (src_degree dst_degree src_true_degree dst_true_degree : ref)
       (bins : gmap ref bin_counts_type) (degs : gmap ref Z) (v : list Z)
       usehash userecent p bins' degs' v',
       small_loads v →
       edge_to_proc_hdrf hash_edge source target src_degree dst_degree
         src_true_degree dst_true_degree bins degs v usehash userecent
       = Done (p, bins', degs', v') →
       ∃ x, v !! p = Some x ∧ v' = <[ p := x + 1 ]> v)
  ∧ (∀ (numprocs : nat) usehash userecent
       (edges : list (vertex_id_type * vertex_id_type * EdgeData)),
       numprocs ≠ 0%nat → Z.of_nat (length edges) < 2 ^ 53 →
       ∃ st sent,
         ObliviousIngress.add_edges hash_edge
           (ObliviousIngress.construct numprocs usehash userecent) edges
         = Done (st, sent)
         ∧ total (ObliviousIngress.proc_num_edges st) = Z.of_nat (length edges)
         ∧ ∀ es1 es2, edges = es1 ++ es2 →
             ∃ st1 sent1,
               ObliviousIngress.add_edges hash_edge
                 (ObliviousIngress.construct numprocs usehash userecent) es1
               = Done (st1, sent1)
               ∧ total (ObliviousIngress.proc_num_edges st1) = Z.of_nat (length es1)
               ∧ Forall2 Z.le (ObliviousIngress.proc_num_edges st1)
                   (ObliviousIngress.proc_num_edges st))
  ∧ (∀ (numprocs : nat) usehash userecent
       (edges : list (vertex_id_type * vertex_id_type * EdgeData)),
       numprocs ≠ 0%nat → Z.of_nat (length edges) < 2 ^ 53 →
       ∃ st sent,
         HdrfIngress.add_edges hash_edge
           (HdrfIngress.construct numprocs usehash userecent) edges
         = Done (st, sent)
         ∧ total (HdrfIngress.proc_num_edges st) = Z.of_nat (length edges)
         ∧ ∀ es1 es2, edges = es1 ++ es2 →
             ∃ st1 sent1,
               HdrfIngress.add_edges hash_edge
                 (HdrfIngress.construct numprocs usehash userecent) es1
               = Done (st1, sent1)
               ∧ total (HdrfIngress.proc_num_edges st1) = Z.of_nat (length es1)
               ∧ Forall2 Z.le (HdrfIngress.proc_num_edges st1)
                   (HdrfIngress.proc_num_edges st)).
Proof.
  split; [|split; [|split]].
  - intros. by eapply greedy_step.
  - intros * Hsmall Hrun. by destruct (hdrf_step _ _ _ _ _ _ _ _ _ _ _ _ _ _ _ Hsmall Hrun).
  - intros numprocs usehash userecent edges Hnp Hlen.
    set (init := ObliviousIngress.construct numprocs usehash userecent).
    assert (Hinit : length (ObliviousIngress.proc_num_edges init) = numprocs
                    ∧ Forall (λ x, 0 ≤ x) (ObliviousIngress.proc_num_edges init)
                    ∧ total (ObliviousIngress.proc_num_edges init) = 0).
    { cbn. rewrite length_replicate, total_replicate_zero. split; [done|]. split; [|done].
      apply Forall_forall. by intros x [-> _]%elem_of_replicate. }
    destruct (oblivious_add_edges_total numprocs edges Hnp 0 init Hinit)
      as (st & sent & Hrun & _ & _ & _ & _ & Hsum); [lia..|].
    exists st, sent. split; [done|]. split; [lia|].
    intros es1 es2 ->. rewrite length_app in Hlen.
    destruct (oblivious_add_edges_total numprocs es1 Hnp 0 init Hinit)
      as (st1 & sent1 & Hrun1 & _ & _ & Hinv1); [lia..|].
    destruct (oblivious_add_edges_total numprocs es2 Hnp _ st1 Hinv1)
      as (st2 & sent2 & Hrun2 & _ & Hmono & _); [lia..|].
    rewrite oblivious_add_edges_app, Hrun1 in Hrun. cbn [mbind outcome_bind] in Hrun.
    rewrite Hrun2 in Hrun. cbn [mbind outcome_bind] in Hrun. injection Hrun as <- _.
    exists st1, sent1. split; [done|]. split; [|done].
    destruct Hinv1 as (_ & _ & ->). lia.
  - intros numprocs usehash userecent edges Hnp Hlen.
    set (init := HdrfIngress.construct numprocs usehash userecent).
    assert (Hinit : length (HdrfIngress.proc_num_edges init) = numprocs
                    ∧ Forall (λ x, 0 ≤ x) (HdrfIngress.proc_num_edges init)
                    ∧ total (HdrfIngress.proc_num_edges init) = 0
                    ∧ ∀ r, 0 ≤ read_size_t (HdrfIngress.degree_dht init) r ≤ 2 * 0).
    { cbn. rewrite length_replicate, total_replicate_zero. split; [done|]. split; [|done].
      apply Forall_forall. by intros x [-> _]%elem_of_replicate. }
    destruct (hdrf_add_edges_total numprocs edges Hnp 0 init Hinit)
      as (st & sent & Hrun & _ & _ & _ & _ & Hsum & _); [lia..|].
    exists st, sent. split; [done|]. split; [lia|].
    intros es1 es2 ->. rewrite length_app in Hlen.
    destruct (hdrf_add_edges_total numprocs es1 Hnp 0 init Hinit)
      as (st1 & sent1 & Hrun1 & _ & _ & Hinv1); [lia..|].
    destruct (hdrf_add_edges_total numprocs es2 Hnp _ st1 Hinv1)
      as (st2 & sent2 & Hrun2 & _ & Hmono & _); [lia..|].
    rewrite hdrf_add_edges_app, Hrun1 in Hrun. cbn [mbind outcome_bind] in Hrun.
    rewrite Hrun2 in Hrun. cbn [mbind outcome_bind] in Hrun. injection Hrun as <- _.
    exists st1, sent1. split; [done|]. split; [|done].
    destruct Hinv1 as (_ & _ & -> & _). lia.
Qed.

End LoadConservation.

Lemma load_conservation_witness :
  ∃ st sent,
    HdrfIngress.add_edges (EdgeData := unit) (λ _, 0%N)
      (HdrfIngress.construct 2 false false)
      [(3%N, 4%N, ()); (5%N, 6%N, ())] = Done (st, sent)
    ∧ foldr Z.add 0 (HdrfIngress.proc_num_edges st)
      = Z.of_nat (length [(3%N, 4%N, ()); (5%N, 6%N, ())]).
Proof.
  destruct (proj2 (proj2 (proj2 (load_conservation (EdgeData := unit) (λ _, 0%N))))
              2%nat false false [(3%N, 4%N, ()); (5%N, 6%N, ())]
              ltac:(discriminate) ltac:(reflexivity))
    as (st & sent & Hrun & Hsum & _).
  exists st, sent. exact (conj Hrun Hsum).
Defined.

(** * Properties of the cuckoo map *)

Section CuckooBasics.

Context `{Countable Key} {Value Rng : Type}.
Variable CuckooK : nat.
Variable mapped_type_zero : Value.
Variable hashfun : Key → Z.
Variable kranddist : Rng → nat * Rng.

Notation cuckoo_map := (Cuckoo.cuckoo_map (Key := Key) (Value := Value) (Rng := Rng)).
Notation slot := (Cuckoo.slot mapped_type_zero).
Notation find_slot := (Cuckoo.find_slot mapped_type_zero).
Notation find := (Cuckoo.find CuckooK mapped_type_zero hashfun).
Notation count := (Cuckoo.count CuckooK mapped_type_zero hashfun).
Notation do_insert := (Cuckoo.do_insert CuckooK mapped_type_zero hashfun kranddist).
Notation rehash_data := (Cuckoo.rehash_data CuckooK mapped_type_zero hashfun).
Notation rehash := (Cuckoo.rehash CuckooK mapped_type_zero hashfun).
Notation reserve := (Cuckoo.reserve CuckooK mapped_type_zero hashfun).
Notation construct := (Cuckoo.construct CuckooK mapped_type_zero hashfun kranddist).
Notation fresh := (Cuckoo.fresh (Key := Key) (Rng := Rng) mapped_type_zero).

Lemma compute_hash_range (datalen : nat) (k : Z) (seed : nat) :
  (0 < datalen)%nat →
  0 ≤ Cuckoo.compute_hash datalen k seed < Z.of_nat datalen.
Proof. intros. unfold Cuckoo.compute_hash. apply Z.mod_pos_bound. lia. Qed.

(** A probe for [k] succeeds as soon as one candidate slot holds [k]. *)
Lemma find_slot_hit (m : cuckoo_map) (k : Key) (h : Z) (seeds : list nat) (j : nat) :
  j ∈ seeds →
  (slot m (Cuckoo.compute_hash (Cuckoo.datalen m) h j)).1 = k →
  is_Some (find_slot m k h seeds).
Proof.
  induction seeds as [|i rest IH]; [by intros ?%elem_of_nil|].
  intros Hj Hk. cbn. case_decide; [eauto|].
  apply elem_of_cons in Hj as [->|Hj]; [done|]. by apply IH.
Qed.

Lemma rehash_data_idle ins (gas i : nat) (m : cuckoo_map) :
  (∀ j, (i ≤ j < Cuckoo.datalen m)%nat → (slot m (Z.of_nat j)).1 = Cuckoo.illegalkey m) →
  (Cuckoo.datalen m - i < gas)%nat →
  rehash_data ins gas i m = Some m.
Proof.
  revert i. induction gas as [|gas IH]; intros i Hfree Hgas; [lia|].
  cbn. case_decide; [|done].
  rewrite decide_True by (apply Hfree; lia).
  apply IH; [intros; apply Hfree|]; lia.
Qed.

Lemma slot_fresh (illegalkey : Key) (stashsize : Z) (seed : Rng) (idx : Z) :
  (slot (fresh illegalkey stashsize seed) idx).1 = illegalkey.
Proof.
  unfold Cuckoo.slot. cbn [Cuckoo.data Cuckoo.illegalkey Cuckoo.fresh].
  destruct (replicate 128 (illegalkey, mapped_type_zero) !! Z.to_nat idx) as [e|] eqn:He; [|done].
  apply lookup_replicate in He as [-> _]. done.
Qed.

Lemma construct_fresh (fuel : nat) (illegalkey : Key) (stashsize : Z) (seed : Rng) :
  (129 ≤ fuel)%nat →
  construct fuel illegalkey stashsize seed = Some (fresh illegalkey stashsize seed).
Proof.
  intros Hfuel. unfold Cuckoo.construct, Cuckoo.reserve, Cuckoo.rehash.
  cbn [Cuckoo.stash Cuckoo.set_data Cuckoo.set_stash Cuckoo.set_numel
       Cuckoo.data Cuckoo.illegalkey Cuckoo.numel Cuckoo.maxstash Cuckoo.drng].
  rewrite map_size_empty, map_to_list_empty.
  change (resize 128 (illegalkey, mapped_type_zero) [])
    with (replicate 128 (illegalkey, mapped_type_zero)).
  change (Cuckoo.wrap (0 - Z.of_nat 0)) with 0.
  fold (fresh illegalkey stashsize seed).
  rewrite rehash_data_idle; [done| |].
  - intros j _. apply slot_fresh.
  - unfold Cuckoo.datalen. cbn. lia.
Qed.

(** C10. Asking the cuckoo map for the illegal key itself reports a hit
    that no insertion caused: a freshly constructed map, of 128 slots and
    without an entry, answers [count(illegalkey) = true] and
    [find(illegalkey) ≠ end()]; and in any state whose vector has a slot,
    [count(illegalkey)] is true as soon as one of the candidate slots of the
    illegal key is empty, empty slots being those that store it.  The
    candidate is one the source computes from its table of eight seeds. *)
Theorem illegal_key_spurious_hit :
  (1 ≤ CuckooK)%nat →
  (∀ fuel illegalkey stashsize seed,
     (129 ≤ fuel)%nat →
     ∃ m, construct fuel illegalkey stashsize seed = Some m
          ∧ Cuckoo.datalen m = 128%nat
          ∧ Cuckoo.size m = 0
          ∧ Cuckoo.elements m = []
          ∧ count m illegalkey = true
          ∧ find m illegalkey ≠ Cuckoo.end_ m)
  ∧ (∀ (m : cuckoo_map) (j : nat),
       (0 < Cuckoo.datalen m)%nat →
       (j < CuckooK)%nat → (j < length Cuckoo.a)%nat →
       (slot m (Cuckoo.compute_hash (Cuckoo.datalen m)
                  (hashfun (Cuckoo.illegalkey m)) j)).1 = Cuckoo.illegalkey m →
       count m (Cuckoo.illegalkey m) = true
       ∧ find m (Cuckoo.illegalkey m) ≠ Cuckoo.end_ m).
Proof.
  intros HK.
  assert (Hgen : ∀ (m : cuckoo_map) (j : nat),
       (j < CuckooK)%nat →
       (slot m (Cuckoo.compute_hash (Cuckoo.datalen m)
                  (hashfun (Cuckoo.illegalkey m)) j)).1 = Cuckoo.illegalkey m →
       count m (Cuckoo.illegalkey m) = true
       ∧ find m (Cuckoo.illegalkey m) ≠ Cuckoo.end_ m).
  { intros m j Hj Hslot.
    destruct (find_slot_hit m (Cuckoo.illegalkey m) (hashfun (Cuckoo.illegalkey m))
                (seq 0 CuckooK) j) as [idx Hidx]; [apply elem_of_seq; lia|done|].
    unfold Cuckoo.count, Cuckoo.find. rewrite Hidx. done. }
  split; [|intros m j _ Hj _; by apply Hgen].
  intros fuel illegalkey stashsize seed Hfuel.
  exists (fresh illegalkey stashsize seed).
  split; [by apply construct_fresh|].
  split; [apply length_replicate|]. split; [done|].
  split.
  - unfold Cuckoo.elements, Cuckoo.begin, Cuckoo.first_live_from.
    assert (list_find (λ e : Key * Value, e.1 ≠ Cuckoo.illegalkey (fresh illegalkey stashsize seed))
              (drop 0 (Cuckoo.data (fresh illegalkey stashsize seed))) = None) as ->.
    { apply list_find_None. apply Forall_forall. intros e He Hne. apply Hne.
      cbn [drop Cuckoo.data Cuckoo.fresh] in He. by apply elem_of_replicate in He as [-> _]. }
    unfold Cuckoo.vec_or_stash. rewrite decide_True by done.
    cbn [Cuckoo.iterate]. by rewrite decide_True.
  - apply (Hgen (fresh illegalkey stashsize seed) 0%nat); [lia|]. apply slot_fresh.
Qed.
End CuckooBasics.

Lemma illegal_key_spurious_hit_witness :
  (∃ m, Cuckoo.construct 3 0 (λ k : Z, k) (λ r : unit, (0%nat, r)) 129 (-1) 8 () = Some m
        ∧ Cuckoo.datalen m = 128%nat
        ∧ Cuckoo.size m = 0
        ∧ Cuckoo.elements m = []
        ∧ Cuckoo.count 3 0 (λ k : Z, k) m (-1) = true
        ∧ Cuckoo.find 3 0 (λ k : Z, k) m (-1) ≠ Cuckoo.end_ m)
  ∧ Cuckoo.count 3 0 (λ k : Z, k)
      (Cuckoo.replace_in_vector (Cuckoo.compute_hash 128 5 0) (5, 42)
         (Cuckoo.set_numel 1 (Cuckoo.fresh 0 (-1) 8 ()))) (-1) = true
  ∧ Cuckoo.find 3 0 (λ k : Z, k)
      (Cuckoo.replace_in_vector (Cuckoo.compute_hash 128 5 0) (5, 42)
         (Cuckoo.set_numel 1 (Cuckoo.fresh 0 (-1) 8 ()))) (-1)
    ≠ Cuckoo.end_
        (Cuckoo.replace_in_vector (Cuckoo.compute_hash 128 5 0) (5, 42)
           (Cuckoo.set_numel 1 (Cuckoo.fresh 0 (-1) 8 ()))).
Proof.
  split.
  - exact (proj1 (illegal_key_spurious_hit (Key := Z) 3 0 (λ k : Z, k)
                    (λ r : unit, (0%nat, r)) (le_S _ _ (le_S _ _ (le_n 1))))
             129%nat (-1) 8 () (le_n 129)).
  - refine (proj2 (illegal_key_spurious_hit (Key := Z) 3 0 (λ k : Z, k)
                     (λ r : unit, (0%nat, r)) (le_S _ _ (le_S _ _ (le_n 1))))
              (Cuckoo.replace_in_vector (Cuckoo.compute_hash 128 5 0) (5, 42)
                 (Cuckoo.set_numel 1 (Cuckoo.fresh 0 (-1) 8 ())))
              0%nat _ _ _ _).
    + vm_compute. lia.
    + lia.
    + vm_compute. lia.
    + vm_compute. reflexivity.
Defined.

(** * The cuckoo map: invariants of the representation

    Keys are unique over the vector and the stash, and every entry of the
    vector sits at a candidate slot of its key.  The operations keep both
    on the keys a caller may use, which is what makes a lookup find what was
    inserted.  [kranddist] is assumed to draw from [0 .. CuckooK - 1], as
    the distribution it is constructed with does. *)

Section CuckooInvariants.

Context `{Countable Key} {Value Rng : Type}.
Variable CuckooK : nat.
Variable mapped_type_zero : Value.
Variable hashfun : Key → Z.
Variable kranddist : Rng → nat * Rng.

Notation cuckoo_map := (Cuckoo.cuckoo_map (Key := Key) (Value := Value) (Rng := Rng)).
Notation slot := (Cuckoo.slot mapped_type_zero).
Notation find_slot := (Cuckoo.find_slot mapped_type_zero).
Notation find := (Cuckoo.find CuckooK mapped_type_zero hashfun).
Notation count := (Cuckoo.count CuckooK mapped_type_zero hashfun).
Notation candidates := (Cuckoo.candidates CuckooK hashfun).
Notation placed := (Cuckoo.placed CuckooK hashfun).
Notation consistent := (Cuckoo.consistent (Key := Key) (Value := Value) (Rng := Rng)).
Notation well_formed := (Cuckoo.well_formed CuckooK hashfun).
Notation live := (Cuckoo.live (Key := Key) (Value := Value) (Rng := Rng)).
Notation entries := (Cuckoo.entries (Key := Key) (Value := Value) (Rng := Rng)).
Notation datalen := (Cuckoo.datalen (Key := Key) (Value := Value) (Rng := Rng)).
Notation illegalkey := (Cuckoo.illegalkey (Key := Key) (Value := Value) (Rng := Rng)).
Notation data := (Cuckoo.data (Key := Key) (Value := Value) (Rng := Rng)).
Notation stash := (Cuckoo.stash (Key := Key) (Value := Value) (Rng := Rng)).
Notation numel := (Cuckoo.numel (Key := Key) (Value := Value) (Rng := Rng)).
Notation replace_in_vector := (Cuckoo.replace_in_vector (Key := Key) (Value := Value) (Rng := Rng)).
Notation probe_free := (Cuckoo.probe_free mapped_type_zero).
Notation random_walk := (Cuckoo.random_walk CuckooK mapped_type_zero hashfun kranddist).
Notation do_insert := (Cuckoo.do_insert CuckooK mapped_type_zero hashfun kranddist).
Notation insert_with := (Cuckoo.insert_with CuckooK mapped_type_zero hashfun).
Notation rehash_data := (Cuckoo.rehash_data CuckooK mapped_type_zero hashfun).
Notation rehash_stash := (Cuckoo.rehash_stash CuckooK mapped_type_zero hashfun).
Notation rehash := (Cuckoo.rehash CuckooK mapped_type_zero hashfun).
Notation reserve := (Cuckoo.reserve CuckooK mapped_type_zero hashfun).
Notation same_table := (Cuckoo.same_table (Key := Key) (Value := Value) (Rng := Rng)).
Notation grown := (Cuckoo.grown (Key := Key) (Value := Value) (Rng := Rng)).
Notation inserted := (Cuckoo.inserted CuckooK hashfun).
Notation rehashed := (Cuckoo.rehashed CuckooK hashfun).
Notation insert := (Cuckoo.insert CuckooK mapped_type_zero hashfun kranddist).
Notation insert_all := (Cuckoo.insert_all CuckooK mapped_type_zero hashfun kranddist).
Notation subscript := (Cuckoo.subscript CuckooK mapped_type_zero hashfun kranddist).
Notation erase := (Cuckoo.erase CuckooK mapped_type_zero hashfun).
Notation erase_iter := (Cuckoo.erase_iter mapped_type_zero).
Notation elements := (Cuckoo.elements (Key := Key) (Value := Value) (Rng := Rng)).
Notation fresh := (Cuckoo.fresh (Key := Key) (Rng := Rng) mapped_type_zero).

(** ** Lists with one element replaced *)

Lemma filter_insert_free {A} (P : A → Prop) `{!∀ x, Decision (P x)}
    (l : list A) (i : nat) (e v : A) :
  l !! i = Some e → ¬ P e → P v →
  filter P (<[ i := v ]> l) ≡ₚ v :: filter P l.
Proof.
  intros Hi He Hv.
  rewrite insert_take_drop by (by eapply lookup_lt_Some).
  rewrite <- (take_drop_middle l i e Hi) at 3.
  rewrite !filter_app, !filter_cons.
  rewrite decide_True by done. rewrite decide_False by done.
  by rewrite Permutation_middle.
Qed.

Lemma filter_insert_evict {A} (P : A → Prop) `{!∀ x, Decision (P x)}
    (l : list A) (i : nat) (e v : A) :
  l !! i = Some e → P e → P v →
  e :: filter P (<[ i := v ]> l) ≡ₚ v :: filter P l.
Proof.
  intros Hi He Hv.
  rewrite insert_take_drop by (by eapply lookup_lt_Some).
  rewrite <- (take_drop_middle l i e Hi) at 3.
  rewrite !filter_app, !filter_cons.
  rewrite !decide_True by done.
  rewrite <- !Permutation_middle. apply perm_swap.
Qed.

Lemma filter_insert_remove {A} (P : A → Prop) `{!∀ x, Decision (P x)}
    (l : list A) (i : nat) (e v : A) :
  l !! i = Some e → P e → ¬ P v →
  e :: filter P (<[ i := v ]> l) ≡ₚ filter P l.
Proof.
  intros Hi He Hv.
  rewrite insert_take_drop by (by eapply lookup_lt_Some).
  rewrite <- (take_drop_middle l i e Hi) at 3.
  rewrite !filter_app, !filter_cons.
  rewrite decide_False by done. rewrite decide_True by done.
  by rewrite <- Permutation_middle.
Qed.

Lemma filter_none {A} (P : A → Prop) `{!∀ x, Decision (P x)} (l : list A) :
  Forall (λ x, ¬ P x) l → filter P l = [].
Proof.
  induction 1 as [|x l Hx _ IH]; [done|].
  rewrite filter_cons. by rewrite decide_False.
Qed.

(** ** The stash *)

Lemma stash_find_absent (s : gmap Key Value) (k : Key) :
  s !! k = None → Cuckoo.stash_find s k = size s.
Proof.
  intros Hk. unfold Cuckoo.stash_find.
  destruct (list_find _ _) as [[pos e]|] eqn:Hfind; [|done].
  apply list_find_Some in Hfind as (Hpos & He & _).
  apply list_elem_of_lookup_2 in Hpos. destruct e as [k' x]. cbn in He. subst k'.
  apply elem_of_map_to_list in Hpos. congruence.
Qed.

Lemma stash_find_present (s : gmap Key Value) (k : Key) (x : Value) :
  s !! k = Some x →
  (Cuckoo.stash_find s k < size s)%nat
  ∧ map_to_list s !! Cuckoo.stash_find s k = Some (k, x).
Proof.
  intros Hk. unfold Cuckoo.stash_find.
  destruct (list_find _ _) as [[pos e]|] eqn:Hfind.
  - apply list_find_Some in Hfind as (Hpos & He & _).
    destruct e as [k' x']. cbn in He. subst k'.
    assert (x' = x) as ->.
    { apply list_elem_of_lookup_2, elem_of_map_to_list in Hpos. congruence. }
    split; [|done]. rewrite <- length_map_to_list. by eapply lookup_lt_Some.
  - apply list_find_None in Hfind. rewrite Forall_forall in Hfind.
    exfalso. apply (Hfind (k, x)); [|done]. by apply elem_of_map_to_list.
Qed.


(** ** Slots and probes *)

Lemma compute_hash_bounds (n : nat) (k : Z) (seed : nat) :
  (0 < n)%nat → 0 ≤ Cuckoo.compute_hash n k seed < Z.of_nat n.
Proof. intros. unfold Cuckoo.compute_hash. apply Z.mod_pos_bound. lia. Qed.

Lemma slot_lookup (m : cuckoo_map) (idx : Z) (e : Key * Value) :
  data m !! Z.to_nat idx = Some e → slot m idx = e.
Proof. intros He. unfold Cuckoo.slot. by rewrite He. Qed.

Lemma slot_in_range (m : cuckoo_map) (idx : Z) :
  0 ≤ idx < Z.of_nat (datalen m) → data m !! Z.to_nat idx = Some (slot m idx).
Proof.
  intros Hidx. unfold Cuckoo.slot.
  destruct (lookup_lt_is_Some_2 (data m) (Z.to_nat idx)) as [e He].
  - unfold Cuckoo.datalen in Hidx. lia.
  - by rewrite He.
Qed.

Lemma slot_live (m : cuckoo_map) (idx : Z) :
  (slot m idx).1 ≠ illegalkey m → data m !! Z.to_nat idx = Some (slot m idx).
Proof.
  unfold Cuckoo.slot. destruct (data m !! Z.to_nat idx) as [e|]; [done|]. by cbn.
Qed.

Lemma candidates_elem (m : cuckoo_map) (k : Key) (idx : Z) :
  idx ∈ candidates m k ↔
  ∃ j, (j < CuckooK)%nat ∧ idx = Cuckoo.compute_hash (datalen m) (hashfun k) j.
Proof.
  unfold Cuckoo.candidates. rewrite list_elem_of_fmap. split.
  - intros (j & -> & Hj). apply elem_of_seq in Hj. exists j. split; [lia|done].
  - intros (j & Hj & ->). exists j. split; [done|]. apply elem_of_seq. lia.
Qed.

Lemma find_slot_Some (m : cuckoo_map) (k : Key) (h : Z) (seeds : list nat) (idx : Z) :
  find_slot m k h seeds = Some idx →
  (slot m idx).1 = k ∧ ∃ j, j ∈ seeds ∧ idx = Cuckoo.compute_hash (datalen m) h j.
Proof.
  induction seeds as [|i rest IH]; [done|]. cbn. case_decide as Hk.
  - intros [= <-]. split; [done|]. exists i. split; [set_solver|done].
  - intros Hrest. destruct (IH Hrest) as (? & j & ? & ?).
    split; [done|]. exists j. split; [set_solver|done].
Qed.

Lemma find_slot_None (m : cuckoo_map) (k : Key) (h : Z) (seeds : list nat) :
  find_slot m k h seeds = None →
  ∀ j, j ∈ seeds → (slot m (Cuckoo.compute_hash (datalen m) h j)).1 ≠ k.
Proof.
  induction seeds as [|i rest IH]; [by intros _ j ?%elem_of_nil|].
  cbn. case_decide as Hk; [done|]. intros Hrest j [->|Hj]%elem_of_cons; [done|].
  by apply IH.
Qed.

Lemma find_slot_first (m : cuckoo_map) (k : Key) (h : Z) (seeds : list nat) (j : nat) :
  j ∈ seeds → (slot m (Cuckoo.compute_hash (datalen m) h j)).1 = k →
  is_Some (find_slot m k h seeds).
Proof.
  induction seeds as [|i rest IH]; [by intros ?%elem_of_nil|].
  intros Hj Hk. cbn. case_decide; [eauto|].
  apply elem_of_cons in Hj as [->|Hj]; [done|]. by apply IH.
Qed.

(** ** Uniqueness of keys *)

Lemma NoDup_fmap_filter_lookup {A B} (f : A → B) (P : A → Prop)
    `{!∀ x, Decision (P x)} (l : list A) (i j : nat) (x y : A) :
  NoDup (f <$> filter P l) →
  l !! i = Some x → l !! j = Some y → P x → P y → f x = f y → i = j.
Proof.
  revert i j. induction l as [|a l IH]; intros i j Hnd Hi Hj Hx Hy Hf; [done|].
  assert (Hin : ∀ n z, l !! n = Some z → P z → f z ∈ f <$> filter P l).
  { intros n z Hn Hz. apply list_elem_of_fmap. exists z. split; [done|].
    apply list_elem_of_filter. split; [done|]. by eapply list_elem_of_lookup_2. }
  rewrite filter_cons in Hnd.
  destruct i as [|i], j as [|j]; cbn in Hi, Hj.
  - done.
  - injection Hi as ->. rewrite decide_True in Hnd by done.
    rewrite fmap_cons in Hnd. apply NoDup_cons in Hnd as [Hnotin _].
    exfalso. apply Hnotin. rewrite Hf. by eapply Hin.
  - injection Hj as ->. rewrite decide_True in Hnd by done.
    rewrite fmap_cons in Hnd. apply NoDup_cons in Hnd as [Hnotin _].
    exfalso. apply Hnotin. rewrite <- Hf. by eapply Hin.
  - f_equal. apply IH; try done.
    destruct (decide (P a)); [|done].
    rewrite fmap_cons in Hnd. by apply NoDup_cons in Hnd as [_ ?].
Qed.

Lemma live_elem (m : cuckoo_map) (e : Key * Value) :
  e ∈ live m ↔ e.1 ≠ illegalkey m ∧ ∃ i, data m !! i = Some e.
Proof.
  unfold Cuckoo.live. rewrite list_elem_of_filter, list_elem_of_lookup. done.
Qed.

Lemma entries_keys (m : cuckoo_map) (k : Key) :
  k ∈ (entries m).*1 ↔
  (k ≠ illegalkey m ∧ ∃ i x, data m !! i = Some (k, x)) ∨ is_Some (stash m !! k).
Proof.
  unfold Cuckoo.entries. rewrite fmap_app, elem_of_app, !list_elem_of_fmap. split.
  - intros [([k' x] & -> & He)|([k' x] & -> & He)].
    + left. apply live_elem in He as [Hk (i & Hi)]. eauto.
    + right. apply elem_of_map_to_list in He. eauto.
  - intros [(Hk & i & x & Hi)|[x Hx]].
    + left. exists (k, x). split; [done|]. apply live_elem. eauto.
    + right. exists (k, x). split; [done|]. by apply elem_of_map_to_list.
Qed.

Lemma unique_slot (m : cuckoo_map) (i j : nat) (e e' : Key * Value) :
  NoDup (entries m).*1 →
  data m !! i = Some e → data m !! j = Some e' →
  e.1 ≠ illegalkey m → e.1 = e'.1 → i = j.
Proof.
  intros Hnd Hi Hj Hlive Heq. unfold Cuckoo.entries in Hnd.
  rewrite fmap_app in Hnd. apply NoDup_app in Hnd as (Hnd & _ & _).
  apply (NoDup_fmap_filter_lookup fst (λ e, e.1 ≠ illegalkey m) (data m) i j e e');
    [exact Hnd|done|done|done|congruence|done].
Qed.

Lemma live_not_stashed (m : cuckoo_map) (i : nat) (e : Key * Value) :
  NoDup (entries m).*1 →
  data m !! i = Some e → e.1 ≠ illegalkey m → stash m !! e.1 = None.
Proof.
  intros Hnd Hi Hlive. unfold Cuckoo.entries in Hnd.
  rewrite fmap_app in Hnd. apply NoDup_app in Hnd as (_ & Hdisj & _).
  destruct (stash m !! e.1) as [x|] eqn:Hs; [|done]. exfalso.
  apply (Hdisj e.1).
  - apply list_elem_of_fmap. exists e. split; [done|]. apply live_elem. eauto.
  - apply list_elem_of_fmap. exists (e.1, x). split; [done|].
    by apply elem_of_map_to_list.
Qed.

(** ** [find] and [count] *)

Lemma count_find (m : cuckoo_map) (k : Key) :
  count m k = bool_decide (find m k ≠ Cuckoo.end_ m).
Proof.
  unfold Cuckoo.count, Cuckoo.find, Cuckoo.end_.
  destruct (find_slot _ _ _ _) as [idx|]; [by rewrite bool_decide_eq_true_2|].
  destruct (stash m !! k) as [x|] eqn:Hk.
  - destruct (stash_find_present (stash m) k x Hk) as [Hlt _].
    rewrite !bool_decide_eq_true_2; [done| |by eauto].
    intros [= Heq]. lia.
  - rewrite (stash_find_absent _ _ Hk).
    rewrite (bool_decide_eq_false_2 (is_Some None)) by (by intros [? ?]).
    by rewrite bool_decide_eq_false_2 by (by intros ?).
Qed.

Lemma find_absent (m : cuckoo_map) (k : Key) :
  k ≠ illegalkey m → k ∉ (entries m).*1 → find m k = Cuckoo.end_ m.
Proof.
  intros Hk Hnotin. unfold Cuckoo.find, Cuckoo.end_.
  destruct (find_slot _ _ _ _) as [idx|] eqn:Hfind.
  - exfalso. apply find_slot_Some in Hfind as [Hslot _].
    apply Hnotin, entries_keys. left. split; [done|].
    assert (Hlive : (slot m idx).1 ≠ illegalkey m) by congruence.
    apply slot_live in Hlive. destruct (slot m idx) as [k' x]. cbn in Hslot. subst k'.
    eauto.
  - f_equal. apply stash_find_absent.
    destruct (stash m !! k) eqn:Hs; [|done]. exfalso.
    apply Hnotin, entries_keys. right. eauto.
Qed.

Lemma find_in_vector (m : cuckoo_map) (i : nat) (k : Key) (x : Value) :
  (0 < datalen m)%nat → NoDup (entries m).*1 →
  data m !! i = Some (k, x) → k ≠ illegalkey m → placed m i →
  find m k = Cuckoo.VecIter (Z.of_nat i).
Proof.
  intros Hlen Hnd Hi Hk Hplaced. unfold Cuckoo.find.
  specialize (Hplaced (k, x) Hi Hk). cbn in Hplaced.
  apply candidates_elem in Hplaced as (j & Hj & Hidx).
  destruct (find_slot_first m k (hashfun k) (seq 0 CuckooK) j) as [idx Hfind].
  { apply elem_of_seq. lia. }
  { rewrite <- Hidx. rewrite (slot_lookup m _ (k, x)); [done|]. by rewrite Nat2Z.id. }
  rewrite Hfind. f_equal.
  apply find_slot_Some in Hfind as (Hslot & j' & _ & Hidx').
  pose proof (compute_hash_bounds (datalen m) (hashfun k) j' Hlen) as Hrange.
  rewrite <- Hidx' in Hrange.
  assert (Hlive : (slot m idx).1 ≠ illegalkey m) by congruence.
  apply slot_live in Hlive.
  assert (Z.to_nat idx = i); [|lia].
  eapply (unique_slot m _ _ _ (k, x) Hnd Hlive Hi); [congruence|done].
Qed.

Lemma find_in_stash (m : cuckoo_map) (k : Key) (x : Value) :
  NoDup (entries m).*1 → stash m !! illegalkey m = None →
  stash m !! k = Some x →
  find m k = Cuckoo.StashIter (Cuckoo.stash_find (stash m) k).
Proof.
  intros Hnd Hill Hk. unfold Cuckoo.find.
  destruct (find_slot _ _ _ _) as [idx|] eqn:Hfind; [|done]. exfalso.
  apply find_slot_Some in Hfind as [Hslot _].
  assert (Hkl : k ≠ illegalkey m) by congruence.
  assert (Hlive : (slot m idx).1 ≠ illegalkey m) by congruence.
  apply slot_live in Hlive.
  pose proof (live_not_stashed m _ _ Hnd Hlive ltac:(congruence)) as Hno.
  congruence.
Qed.


(** ** Writing one slot *)

Lemma datalen_replace (m : cuckoo_map) (idx : Z) (v : Key * Value) :
  datalen (replace_in_vector idx v m) = datalen m.
Proof. unfold Cuckoo.datalen, Cuckoo.replace_in_vector. cbn. apply length_insert. Qed.

Lemma candidates_replace (m : cuckoo_map) (idx : Z) (v : Key * Value) (k : Key) :
  candidates (replace_in_vector idx v m) k = candidates m k.
Proof. unfold Cuckoo.candidates. by rewrite datalen_replace. Qed.

Lemma replace_free (m : cuckoo_map) (idx : Z) (v : Key * Value) :
  0 ≤ idx < Z.of_nat (datalen m) →
  (slot m idx).1 = illegalkey m → v.1 ≠ illegalkey m →
  entries (replace_in_vector idx v m) ≡ₚ v :: entries m.
Proof.
  intros Hidx Hfree Hv. apply slot_in_range in Hidx.
  unfold Cuckoo.entries, Cuckoo.live. cbn.
  rewrite (filter_insert_free _ _ _ _ _ Hidx); [done| |done].
  intros Hne. by apply Hne.
Qed.

Lemma replace_evict (m : cuckoo_map) (idx : Z) (v : Key * Value) :
  (slot m idx).1 ≠ illegalkey m → v.1 ≠ illegalkey m →
  slot m idx :: entries (replace_in_vector idx v m) ≡ₚ v :: entries m.
Proof.
  intros Hlive Hv. pose proof (slot_live m idx Hlive) as Hidx.
  unfold Cuckoo.entries, Cuckoo.live. cbn.
  rewrite !app_comm_cons.
  by rewrite (filter_insert_evict (λ e, e.1 ≠ illegalkey m) _ _ _ _ Hidx Hlive Hv).
Qed.

Lemma replace_remove (m : cuckoo_map) (idx : Z) (x : Value) :
  (slot m idx).1 ≠ illegalkey m →
  slot m idx :: entries (replace_in_vector idx (illegalkey m, x) m) ≡ₚ entries m.
Proof.
  intros Hlive. pose proof (slot_live m idx Hlive) as Hidx.
  unfold Cuckoo.entries, Cuckoo.live. cbn.
  rewrite !app_comm_cons.
  rewrite (filter_insert_remove (λ e, e.1 ≠ illegalkey m) _ _ _ _ Hidx Hlive); [done|].
  cbn. by intros Hne.
Qed.

Lemma replace_placed_at (m : cuckoo_map) (idx : Z) (v : Key * Value) (i : nat) :
  Z.of_nat (Z.to_nat idx) ∈ candidates m v.1 ∨ v.1 = illegalkey m →
  placed m i → placed (replace_in_vector idx v m) i.
Proof.
  intros Hv Hplaced e He Hlive.
  rewrite candidates_replace. cbn in He, Hlive.
  destruct (decide (i = Z.to_nat idx)) as [->|Hne].
  - apply list_lookup_insert_Some in He as [(_ & <- & _)|[? _]]; [|done].
    by destruct Hv as [Hv|Hv].
  - rewrite list_lookup_insert_ne in He by done. by apply Hplaced.
Qed.

Lemma replace_placed (m : cuckoo_map) (idx : Z) (v : Key * Value) (i : nat) :
  0 ≤ idx → idx ∈ candidates m v.1 ∨ v.1 = illegalkey m →
  placed m i → placed (replace_in_vector idx v m) i.
Proof.
  intros Hidx Hv. apply replace_placed_at. by rewrite Z2Nat.id.
Qed.

Lemma probe_free_found (m : cuckoo_map) (h : Z) (seeds : list nat) (idx0 idx : Z) :
  probe_free m h seeds idx0 = (idx, true) →
  (slot m idx).1 = illegalkey m
  ∧ ∃ j, j ∈ seeds ∧ idx = Cuckoo.compute_hash (datalen m) h j.
Proof.
  revert idx0. induction seeds as [|j rest IH]; intros idx0; [done|].
  cbn. case_decide as Hfree.
  - intros [= <-]. split; [done|]. exists j. split; [set_solver|done].
  - intros Hrest. destruct (IH _ Hrest) as (? & j' & ? & ?).
    split; [done|]. exists j'. split; [set_solver|done].
Qed.

(** ** The random walk *)

Hypothesis kranddist_range : ∀ r, ((kranddist r).1 < CuckooK)%nat.

(** The slot a round of the walk writes to is a candidate slot of the key
    in hand. *)
Lemma walk_target (m : cuckoo_map) (k : Key) (idx : Z) (found : bool) :
  (0 < datalen m)%nat →
  probe_free m (hashfun k) (seq 0 CuckooK) 0 = (idx, found) →
  let idx' := if found then idx
              else Cuckoo.compute_hash (datalen m) (hashfun k) (kranddist (Cuckoo.drng m)).1 in
  idx' ∈ candidates m k ∧ 0 ≤ idx' < Z.of_nat (datalen m)
  ∧ (found = true → (slot m idx').1 = illegalkey m).
Proof.
  intros Hlen Hprobe. destruct found; cbn.
  - apply probe_free_found in Hprobe as (Hfree & j & Hj%elem_of_seq & ->).
    split; [|split; [by apply compute_hash_bounds|done]].
    apply candidates_elem. exists j. split; [lia|done].
  - split; [|split; [by apply compute_hash_bounds|done]].
    apply candidates_elem. eexists. split; [apply kranddist_range|done].
Qed.

Lemma same_table_entries (m0 m : cuckoo_map) :
  same_table m0 m → entries m0 = entries m.
Proof.
  intros (Hdata & Hstash & Hkey & _). unfold Cuckoo.entries, Cuckoo.live.
  by rewrite Hdata, Hstash, Hkey.
Qed.

Lemma same_table_datalen (m0 m : cuckoo_map) :
  same_table m0 m → datalen m0 = datalen m.
Proof. intros (Hdata & _). unfold Cuckoo.datalen. by rewrite Hdata. Qed.

Lemma same_table_slot (m0 m : cuckoo_map) (i : Z) :
  same_table m0 m → slot m0 i = slot m i.
Proof. intros (Hdata & _ & Hkey & _). unfold Cuckoo.slot. by rewrite Hdata, Hkey. Qed.

Lemma same_table_candidates (m0 m : cuckoo_map) (k : Key) :
  same_table m0 m → candidates m0 k = candidates m k.
Proof.
  intros Hsame. unfold Cuckoo.candidates. by rewrite (same_table_datalen _ _ Hsame).
Qed.

Lemma same_table_placed (m0 m : cuckoo_map) (i : nat) :
  same_table m0 m → placed m i → placed m0 i.
Proof.
  intros Hsame Hp e He Hl. rewrite (same_table_candidates _ _ _ Hsame).
  destruct Hsame as (Hdata & _ & Hkey & _).
  rewrite Hdata in He. rewrite Hkey in Hl. by apply Hp.
Qed.

(** One round of the walk: the slot written to is a candidate slot of the
    key in hand, and it is free whenever a free candidate slot was found. *)
Lemma random_walk_step (steps : nat) (v : Key * Value) (insertpos : Z)
    (m : cuckoo_map) :
  (0 < datalen m)%nat →
  ∃ idx m0,
    same_table m0 m
    ∧ idx ∈ candidates m v.1 ∧ 0 ≤ idx < Z.of_nat (datalen m)
    ∧ random_walk (S steps) v insertpos m =
      let insertpos' :=
        if decide (insertpos = Cuckoo.npos) then idx
        else if decide (insertpos = idx) then Cuckoo.npos else insertpos in
      if decide ((slot m0 idx).1 = illegalkey m0)
      then (replace_in_vector idx v m0, Cuckoo.VecIter insertpos')
      else random_walk steps (slot m0 idx) insertpos' (replace_in_vector idx v m0).
Proof.
  intros Hlen. cbn -[bool_decide].
  destruct (probe_free m (hashfun v.1) (seq 0 CuckooK) 0) as [idx found] eqn:Hprobe.
  pose proof (walk_target m v.1 idx found Hlen Hprobe) as Htarget.
  destruct (kranddist (Cuckoo.drng m)) as [j r] eqn:Hrand. cbn in Htarget.
  destruct Htarget as (Hcand & Hrange & Hfree).
  destruct found.
  - exists idx, m. split; [done|]. split; [done|]. split; [done|].
    cbn. destruct (decide ((slot m idx).1 = illegalkey m)) as [|Hn]; [done|].
    by destruct Hn; apply Hfree.
  - eexists _, (Cuckoo.set_drng r m). split; [done|]. split; [exact Hcand|].
    split; [exact Hrange|]. cbn -[bool_decide].
    case_bool_decide as Hb;
      [rewrite (decide_True _ _ Hb)|rewrite (decide_False _ _ Hb)]; done.
Qed.

Lemma random_walk_spec (steps : nat) (v : Key * Value) (insertpos : Z)
    (m m' : cuckoo_map) (it : Cuckoo.iterator) :
  (0 < datalen m)%nat → v.1 ≠ illegalkey m → stash m !! illegalkey m = None →
  NoDup (v :: entries m).*1 →
  random_walk steps v insertpos m = (m', it) →
  entries m' ≡ₚ v :: entries m
  ∧ datalen m' = datalen m ∧ illegalkey m' = illegalkey m
  ∧ Cuckoo.maxstash m' = Cuckoo.maxstash m ∧ numel m' = numel m
  ∧ stash m' !! illegalkey m' = None
  ∧ (∀ i, placed m i → placed m' i).
Proof.
  revert v insertpos m. induction steps as [|steps IH];
    intros v insertpos m Hlen Hv Hill Hnd Hwalk.
  - cbn in Hwalk.
    assert (Hfresh : stash m !! v.1 = None).
    { rewrite fmap_cons in Hnd. apply NoDup_cons in Hnd as [Hnotin _].
      destruct (stash m !! v.1) eqn:Hs; [|done]. exfalso.
      apply Hnotin, entries_keys. right. eauto. }
    assert (m' = Cuckoo.set_stash (<[ v.1 := v.2 ]> (stash m)) m) as ->.
    { unfold Cuckoo.stash_insert in Hwalk. rewrite Hfresh in Hwalk.
      by destruct (decide (insertpos = Cuckoo.npos)); injection Hwalk as <- _. }
    split_and!; try done.
    + unfold Cuckoo.entries, Cuckoo.live. cbn.
      rewrite map_to_list_insert by done.
      rewrite <- Permutation_middle. by destruct v.
    + cbn. by rewrite lookup_insert_ne.
  - destruct (random_walk_step steps v insertpos m Hlen)
      as (idx & m0 & Hsame & Hcand & Hrange & Hstep).
    rewrite Hstep in Hwalk. clear Hstep. cbn zeta in Hwalk.
    pose proof (same_table_entries _ _ Hsame) as Hent0.
    pose proof (same_table_datalen _ _ Hsame) as Hlen0.
    pose proof Hsame as (Hdata & Hstash & Hkey & Hnumel & Hmax).
    case_decide as Hfree.
    + injection Hwalk as <- _.
      split_and!; try done.
      * rewrite <- Hent0. apply replace_free; [by rewrite Hlen0|done|by rewrite Hkey].
      * by rewrite datalen_replace.
      * cbn. by rewrite Hstash, Hkey.
      * intros i Hp. apply replace_placed;
          [lia|left; by rewrite (same_table_candidates _ _ _ Hsame)
          |by apply (same_table_placed _ _ _ Hsame)].
    + assert (Hperm : slot m0 idx :: entries (replace_in_vector idx v m0)
                      ≡ₚ v :: entries m).
      { rewrite <- Hent0. apply replace_evict; [done|by rewrite Hkey]. }
      apply IH in Hwalk as (Hent & Hlen' & Hkey' & Hmax' & Hnumel' & Hill' & Hplaced').
      * rewrite datalen_replace in Hlen'. cbn in Hkey', Hmax', Hnumel'.
        split_and!; [by rewrite Hent, Hperm|congruence..|].
        intros i Hp. apply Hplaced', replace_placed;
          [lia|left; by rewrite (same_table_candidates _ _ _ Hsame)
          |by apply (same_table_placed _ _ _ Hsame)].
      * by rewrite datalen_replace, Hlen0.
      * done.
      * cbn. by rewrite Hstash, Hkey.
      * by rewrite Hperm.
Qed.

(** Where the walk leaves the entry it was started with: [insertpos] is the
    slot holding it, or [npos] while it is the entry in hand. *)
Lemma random_walk_iterator (steps : nat) (v : Key * Value) (insertpos : Z)
    (m m' : cuckoo_map) (it : Cuckoo.iterator) (e0 : Key * Value) :
  (0 < datalen m)%nat → Z.of_nat (datalen m) ≤ Cuckoo.npos →
  v.1 ≠ illegalkey m → NoDup (v :: entries m).*1 → e0.1 ≠ illegalkey m →
  (insertpos = Cuckoo.npos ∧ v = e0)
  ∨ (insertpos ≠ Cuckoo.npos ∧ 0 ≤ insertpos
     ∧ data m !! Z.to_nat insertpos = Some e0) →
  random_walk steps v insertpos m = (m', it) →
  Cuckoo.deref m' it = Some e0.
Proof.
  revert v insertpos m. induction steps as [|steps IH];
    intros v insertpos m Hlen Hfits Hv Hnd He0 Hpos Hwalk.
  - cbn in Hwalk.
    destruct Hpos as [[-> ->]|(Hne & _ & Hslot)].
    + rewrite decide_True in Hwalk by done. injection Hwalk as <- <-.
      assert (Hfresh : stash m !! e0.1 = None).
      { rewrite fmap_cons in Hnd. apply NoDup_cons in Hnd as [Hnotin _].
        destruct (stash m !! e0.1) eqn:Hs; [|done]. exfalso.
        apply Hnotin, entries_keys. right. eauto. }
      cbn. unfold Cuckoo.stash_insert. rewrite Hfresh.
      destruct (stash_find_present (<[ e0.1 := e0.2 ]> (stash m)) e0.1 e0.2) as [_ ->].
      * by rewrite lookup_insert_eq.
      * by destruct e0.
    + rewrite decide_False in Hwalk by done. by injection Hwalk as <- <-.
  - destruct (random_walk_step steps v insertpos m Hlen)
      as (idx & m0 & Hsame & Hcand & Hrange & Hstep).
    rewrite Hstep in Hwalk. clear Hstep. cbn zeta in Hwalk.
    pose proof (same_table_entries _ _ Hsame) as Hent0.
    pose proof (same_table_datalen _ _ Hsame) as Hlen0.
    pose proof Hsame as (Hdata & Hstash & Hkey & Hnumel & Hmax).
    assert (Hidx : idx ≠ Cuckoo.npos) by lia.
    assert (Hin : (Z.to_nat idx < length (data m0))%nat).
    { rewrite Hdata. unfold Cuckoo.datalen in Hrange. lia. }
    assert (Hrec : ∀ ip,
      (slot m0 idx).1 ≠ illegalkey m0 →
      (ip = Cuckoo.npos ∧ slot m0 idx = e0)
      ∨ (ip ≠ Cuckoo.npos ∧ 0 ≤ ip
         ∧ data (replace_in_vector idx v m0) !! Z.to_nat ip = Some e0) →
      random_walk steps (slot m0 idx) ip (replace_in_vector idx v m0) = (m', it) →
      Cuckoo.deref m' it = Some e0).
    { intros ip Hlive Hpos' Hwalk'.
      apply (IH (slot m0 idx) ip (replace_in_vector idx v m0)).
      - by rewrite datalen_replace, Hlen0.
      - by rewrite datalen_replace, Hlen0.
      - done.
      - rewrite (replace_evict m0 idx v Hlive ltac:(by rewrite Hkey)).
        by rewrite Hent0.
      - cbn. by rewrite Hkey.
      - done.
      - done. }
    destruct Hpos as [[-> ->]|(Hne & Hge & Hslot)].
    + destruct (decide (Cuckoo.npos = Cuckoo.npos)) as [_|]; [|done].
      case_decide as Hfree.
      * injection Hwalk as <- <-. cbn. by apply list_lookup_insert_eq.
      * apply (Hrec idx Hfree); [|done]. right. split; [done|]. split; [lia|].
        cbn. by apply list_lookup_insert_eq.
    + destruct (decide (insertpos = Cuckoo.npos)) as [|_]; [done|].
      rewrite <- Hdata in Hslot.
      destruct (decide (insertpos = idx)) as [->|Hother].
      * pose proof (slot_lookup m0 idx e0 Hslot) as Hs.
        case_decide as Hfree; [by rewrite Hs, Hkey in Hfree|].
        apply (Hrec Cuckoo.npos); [done| |done]. by left.
      * assert (Hkeep : data (replace_in_vector idx v m0) !! Z.to_nat insertpos
                        = Some e0).
        { cbn. rewrite list_lookup_insert_ne by lia. done. }
        case_decide as Hfree.
        -- by injection Hwalk as <- <-.
        -- apply (Hrec insertpos Hfree); [|done]. right. done.
Qed.

Local Arguments Cuckoo.random_walk : simpl never.

(** ** Arithmetic of the counters *)

Lemma wrap_succ (a : Z) : Cuckoo.wrap (Cuckoo.wrap a + 1) = Cuckoo.wrap (a + 1).
Proof. unfold Cuckoo.wrap. by rewrite Z.add_mod_idemp_l. Qed.

Lemma wrap_sub (a b : Z) : Cuckoo.wrap (Cuckoo.wrap a - b) = Cuckoo.wrap (a - b).
Proof. unfold Cuckoo.wrap. by rewrite Zminus_mod_idemp_l. Qed.

Lemma grow_ge (n : nat) : (n ≤ Cuckoo.grow n)%nat.
Proof. unfold Cuckoo.grow. apply Nat.div_le_lower_bound; lia. Qed.

(** ** The relations between a table and a later one *)

Lemma placed_out_of_range (m : cuckoo_map) (i : nat) :
  (datalen m ≤ i)%nat → placed m i.
Proof.
  intros Hi e He. apply lookup_lt_Some in He. unfold Cuckoo.datalen in Hi. lia.
Qed.

Lemma placed_free (m : cuckoo_map) (i : nat) :
  (slot m (Z.of_nat i)).1 = illegalkey m → placed m i.
Proof.
  intros Hfree e He Hlive.
  rewrite <- (Nat2Z.id i) in He. apply slot_lookup in He. congruence.
Qed.

Lemma grown_refl (m : cuckoo_map) : consistent m → grown m m.
Proof. intros Hm. by split_and!. Qed.

Lemma grown_trans (m1 m2 m3 : cuckoo_map) :
  grown m1 m2 → grown m2 m3 → grown m1 m3.
Proof.
  intros (_ & Hk1 & Hs1 & Hl1) (Hc & Hk2 & Hs2 & Hl2).
  split_and!; [done|congruence|congruence|lia].
Qed.

Lemma count_placed (m : cuckoo_map) (i : nat) (v : Key * Value) :
  (0 < datalen m)%nat → NoDup (entries m).*1 →
  data m !! i = Some v → v.1 ≠ illegalkey m → count m v.1 = true → placed m i.
Proof.
  intros Hlen Hnd Hi Hlive Hcount. unfold Cuckoo.count in Hcount.
  destruct (find_slot _ _ _ _) as [idx|] eqn:Hfind.
  - apply find_slot_Some in Hfind as (Hslot & j & Hj%elem_of_seq & Hidx).
    pose proof (compute_hash_bounds (datalen m) (hashfun v.1) j Hlen) as Hrange.
    rewrite <- Hidx in Hrange.
    assert (Hl : (slot m idx).1 ≠ illegalkey m) by congruence.
    apply slot_live in Hl.
    assert (Z.to_nat idx = i) as <-.
    { by apply (unique_slot m _ _ _ v Hnd Hl Hi); [congruence|]. }
    intros e He _. assert (e = v) as -> by congruence.
    apply candidates_elem. exists j. split; [lia|]. rewrite Z2Nat.id by lia. exact Hidx.
  - apply bool_decide_eq_true in Hcount as [x Hx].
    by rewrite (live_not_stashed m i v Hnd Hi Hlive) in Hx.
Qed.

(** ** A loop of [rehash] over a table already in place *)

Lemma rehash_data_placed
    (ins : Key * Value → cuckoo_map → option (cuckoo_map * Cuckoo.iterator))
    (gas i : nat) (m : cuckoo_map) :
  (0 < datalen m)%nat → NoDup (entries m).*1 → (∀ j, placed m j) →
  (datalen m - i < gas)%nat →
  rehash_data ins gas i m = Some m.
Proof.
  intros Hlen Hnd Hplaced. revert i.
  induction gas as [|gas IH]; intros i Hgas; [lia|].
  cbn. case_decide as Hi; [|done].
  pose proof (slot_in_range m (Z.of_nat i) ltac:(lia)) as Hslot.
  rewrite Nat2Z.id in Hslot.
  case_decide as Hlive; [apply IH; lia|].
  destruct (slot m (Z.of_nat i)) as [k x] eqn:Hv. cbn in *.
  assert (Hcount : count m k = true).
  { rewrite count_find.
    rewrite (find_in_vector m i k x Hlen Hnd Hslot Hlive (Hplaced i)).
    by apply bool_decide_eq_true_2. }
  rewrite Hcount. apply IH. lia.
Qed.

(** ** [do_insert], [rehash] and [reserve] return *)

(** A table losing its stash, as [rehash] starts. *)
Lemma unstash_consistent (m : cuckoo_map) :
  consistent m →
  let m1 := Cuckoo.set_numel
              (Cuckoo.wrap (numel m - Z.of_nat (base.size (stash m))))
              (Cuckoo.set_stash ∅ m) in
  consistent m1 ∧ entries m1 = live m.
Proof.
  intros (Hlen & Hnd & Hill & Hnum). cbn.
  assert (Hent : entries (Cuckoo.set_numel
              (Cuckoo.wrap (numel m - Z.of_nat (base.size (stash m))))
              (Cuckoo.set_stash ∅ m)) = live m).
  { unfold Cuckoo.entries. cbn. rewrite map_to_list_empty. apply app_nil_r. }
  split; [|done]. split_and!.
  - done.
  - rewrite Hent. unfold Cuckoo.entries in Hnd. rewrite fmap_app in Hnd.
    by apply NoDup_app in Hnd as (? & _ & _).
  - done.
  - rewrite Hent. cbn [Cuckoo.numel Cuckoo.set_numel Cuckoo.set_stash Cuckoo.stash].
    rewrite Hnum, wrap_sub. f_equal.
    unfold Cuckoo.entries. rewrite length_app, length_map_to_list. lia.
Qed.

(** A slot emptied, as [rehash] takes an entry out to insert it again. *)
Lemma remove_consistent (m : cuckoo_map) (i : nat) (v : Key * Value) :
  consistent m → data m !! i = Some v → v.1 ≠ illegalkey m →
  let m1 := Cuckoo.set_numel (Cuckoo.wrap (numel m - 1))
              (replace_in_vector (Z.of_nat i) (illegalkey m, mapped_type_zero) m) in
  consistent m1 ∧ v :: entries m1 ≡ₚ entries m
  ∧ v.1 ∉ (entries m1).*1 ∧ datalen m1 = datalen m
  ∧ (∀ j, placed m j → placed m1 j) ∧ placed m1 i.
Proof.
  intros (Hlen & Hnd & Hill & Hnum) Hi Hlive. cbn.
  set (m1 := Cuckoo.set_numel _ _).
  assert (Hslot : slot m (Z.of_nat i) = v).
  { apply slot_lookup. by rewrite Nat2Z.id. }
  assert (Hperm : v :: entries m1 ≡ₚ entries m).
  { rewrite <- Hslot. apply replace_remove. by rewrite Hslot. }
  assert (Hnd' : NoDup (v :: entries m1).*1) by (by rewrite Hperm).
  rewrite fmap_cons in Hnd'. apply NoDup_cons in Hnd' as [Hnotin Hnd'].
  assert (Hlen' : datalen m1 = datalen m) by apply datalen_replace.
  split_and!; try done.
  - split_and!; [by rewrite Hlen'|done|done|].
    change (numel m1) with (Cuckoo.wrap (numel m - 1)).
    rewrite Hnum, wrap_sub. f_equal.
    apply Permutation_length in Hperm. rewrite <- Hperm, length_cons. lia.
  - intros j Hj.
    apply (replace_placed m (Z.of_nat i) (illegalkey m, mapped_type_zero) j);
      [lia|by right|done].
  - apply (placed_free m1). unfold Cuckoo.slot, m1. cbn.
    rewrite Nat2Z.id, list_lookup_insert_eq; [done|]. by eapply lookup_lt_Some.
Qed.

(** The walk of [do_insert], after the counter was incremented. *)
Lemma walk_inserted (v : Key * Value) (m m' : cuckoo_map) (it : Cuckoo.iterator) :
  consistent m → v.1 ≠ illegalkey m → v.1 ∉ (entries m).*1 →
  random_walk 100 v Cuckoo.npos
    (Cuckoo.set_numel (Cuckoo.wrap (numel m + 1)) m) = (m', it) →
  grown m m' ∧ entries m' ≡ₚ v :: entries m
  ∧ datalen m' = datalen m ∧ (∀ i, placed m i → placed m' i)
  ∧ (Z.of_nat (datalen m) ≤ Cuckoo.npos → Cuckoo.deref m' it = Some v).
Proof.
  intros (Hlen & Hnd & Hill & Hnum) Hv Hnotin Hwalk.
  assert (Hnd' : NoDup (v :: entries m).*1).
  { rewrite fmap_cons. by apply NoDup_cons. }
  pose proof Hwalk as Hit.
  apply random_walk_spec in Hwalk
    as (Hent & Hlen' & Hkey & Hmax & Hnumel & Hill' & Hplaced); try done.
  change (entries (Cuckoo.set_numel _ m)) with (entries m) in Hent.
  split_and!; try done.
  - split_and!; [|done|done|by rewrite Hlen'].
    split_and!; [by rewrite Hlen'|by rewrite Hent|done|].
    rewrite Hnumel. cbn [Cuckoo.numel Cuckoo.set_numel].
    rewrite Hnum, wrap_succ. f_equal.
    apply Permutation_length in Hent. rewrite Hent, length_cons. lia.
  - intros Hfits.
    apply (random_walk_iterator _ _ _ _ _ _ v) in Hit; try done. by left.
Qed.

(** The table as [reserve] hands it to [rehash]. *)
Lemma resize_consistent (m : cuckoo_map) (newlen : nat) :
  consistent m → (datalen m ≤ newlen)%nat →
  let m1 := Cuckoo.set_data
              (resize newlen (illegalkey m, mapped_type_zero) (data m)) m in
  consistent m1 ∧ entries m1 = entries m ∧ datalen m1 = newlen.
Proof.
  intros (Hlen & Hnd & Hill & Hnum) Hnew. cbn.
  set (m1 := Cuckoo.set_data _ _).
  assert (Hent : entries m1 = entries m).
  { unfold Cuckoo.entries, Cuckoo.live, m1. cbn. f_equal.
    unfold Cuckoo.datalen in Hnew. rewrite resize_ge by done.
    rewrite filter_app. rewrite <- (app_nil_r (filter _ (data m))) at 2. f_equal.
    induction (newlen - length (data m))%nat as [|n IH]; [done|].
    rewrite replicate_S, filter_cons. rewrite decide_False; [done|].
    intros Hne. by apply Hne. }
  assert (Hlen' : datalen m1 = newlen).
  { unfold Cuckoo.datalen, m1. cbn. apply length_resize. }
  split_and!; try done. split_and!; [lia|by rewrite Hent|done|by rewrite Hent].
Qed.

(** [do_insert] returns on the tables of [n] entries. *)
Notation do_insert_returns n :=
  (∀ (m : cuckoo_map) (v : Key * Value),
     consistent m → length (entries m) = n →
     v.1 ≠ illegalkey m → v.1 ∉ (entries m).*1 →
     ∃ (f0 : nat) (m' : cuckoo_map) (it : Cuckoo.iterator),
       (∀ fuel, (f0 ≤ fuel)%nat → do_insert fuel v m = Some (m', it))
       ∧ inserted v m m'
       ∧ (Z.of_nat (datalen m') ≤ Cuckoo.npos → Cuckoo.deref m' it = Some v)).

(** [rehash] returns on the tables of [n] entries. *)
Notation rehash_returns n :=
  (∀ (m : cuckoo_map),
     consistent m → length (entries m) = n →
     ∃ (f0 : nat) (m' : cuckoo_map),
       (∀ fuel gas, (f0 ≤ fuel)%nat → (f0 ≤ gas)%nat →
          rehash (do_insert fuel) gas m = Some m')
       ∧ rehashed m m').

Lemma insert_with_absent (fuel : nat) (v : Key * Value) (m m' : cuckoo_map)
    (it : Cuckoo.iterator) :
  v.1 ≠ illegalkey m → v.1 ∉ (entries m).*1 →
  do_insert fuel v m = Some (m', it) →
  insert_with (do_insert fuel) v m = Some (m', it, true).
Proof.
  intros Hv Hnotin Hins. unfold Cuckoo.insert_with.
  rewrite (find_absent m v.1 Hv Hnotin).
  rewrite decide_True by done. by rewrite Hins.
Qed.

(** The first loop of [rehash]. *)
Lemma rehash_data_total (N : nat) :
  (∀ n, (n < N)%nat → do_insert_returns n) →
  ∀ (d : nat) (m : cuckoo_map) (i : nat),
    consistent m → (length (entries m) ≤ N)%nat →
    (datalen m ≤ i + d)%nat → (∀ j, (j < i)%nat → placed m j) →
    ∃ (f0 : nat) (m' : cuckoo_map),
      (∀ fuel gas, (f0 ≤ fuel)%nat → (f0 ≤ gas)%nat →
         rehash_data (do_insert fuel) gas i m = Some m')
      ∧ rehashed m m'.
Proof.
  intros HD.
  assert (Hdone : ∀ (m : cuckoo_map) (i : nat),
    consistent m → (datalen m ≤ i)%nat → (∀ j, (j < i)%nat → placed m j) →
    ∃ (f0 : nat) (m' : cuckoo_map),
      (∀ fuel gas, (f0 ≤ fuel)%nat → (f0 ≤ gas)%nat →
         rehash_data (do_insert fuel) gas i m = Some m')
      ∧ rehashed m m').
  { intros m i Hm Hi Hplaced. exists 1%nat, m. split.
    - intros fuel [|gas] _ Hgas; [lia|]. cbn. by rewrite decide_False by lia.
    - split_and!; [by apply grown_refl|done|].
      intros j. destruct (decide (j < i)%nat); [by apply Hplaced|].
      apply placed_out_of_range. lia. }
  induction d as [|d IH]; intros m i Hm HN Hd Hplaced.
  { apply Hdone; [done|lia|done]. }
  destruct (decide (i < datalen m)%nat) as [Hi|Hi]; [|apply Hdone; [done|lia|done]].
  pose proof Hm as (Hlen & Hnd & Hill & Hnum).
  pose proof (slot_in_range m (Z.of_nat i) ltac:(lia)) as Hslot.
  rewrite Nat2Z.id in Hslot.
  assert (Hnext : placed m i →
    ∃ (f0 : nat) (m' : cuckoo_map),
      (∀ fuel gas, (f0 ≤ fuel)%nat → (f0 ≤ gas)%nat →
         rehash_data (do_insert fuel) gas (S i) m = Some m')
      ∧ rehashed m m').
  { intros Hpi. apply IH; [done|done|lia|].
    intros j Hj. destruct (decide (j = i)) as [->|]; [done|]. apply Hplaced. lia. }
  destruct (decide ((slot m (Z.of_nat i)).1 = illegalkey m)) as [Hfree|Hlive].
  { destruct (Hnext (placed_free m i Hfree)) as (f0 & m' & Hrun & Hpost).
    exists (S f0), m'. split; [|done].
    intros fuel [|gas] Hfuel Hgas; [lia|]. cbn.
    rewrite decide_True by done. rewrite decide_True by done.
    apply Hrun; lia. }
  destruct (count m (slot m (Z.of_nat i)).1) eqn:Hcount.
  { destruct (Hnext (count_placed m i _ Hlen Hnd Hslot Hlive Hcount))
      as (f0 & m' & Hrun & Hpost).
    exists (S f0), m'. split; [|done].
    intros fuel [|gas] Hfuel Hgas; [lia|]. cbn.
    rewrite decide_True by done. rewrite decide_False by done. rewrite Hcount.
    apply Hrun; lia. }
  destruct (remove_consistent m i _ Hm Hslot Hlive)
    as (Hm1 & Hperm & Hnotin & Hlen1 & Hplaced1 & Hpi1).
  set (v := slot m (Z.of_nat i)) in *.
  set (m1 := Cuckoo.set_numel (Cuckoo.wrap (numel m - 1))
               (replace_in_vector (Z.of_nat i) (illegalkey m, mapped_type_zero) m)) in *.
  assert (Hcount1 : length (entries m) = S (length (entries m1))).
  { apply Permutation_length in Hperm. by rewrite <- Hperm, length_cons. }
  destruct (HD (length (entries m1)) ltac:(lia) m1 v Hm1 eq_refl Hlive Hnotin)
    as (f1 & m2 & it & Hrun1 & (Hgrown & Hent2 & Hcase) & _).
  assert (Hgrown2 : grown m m2).
  { destruct Hgrown as (? & ? & ? & ?). split_and!; [done|done|done|lia]. }
  assert (Hent : entries m2 ≡ₚ entries m) by (by rewrite Hent2).
  assert (Hrest : ∃ (f2 : nat) (m' : cuckoo_map),
      (∀ fuel gas, (f2 ≤ fuel)%nat → (f2 ≤ gas)%nat →
         rehash_data (do_insert fuel) gas (S i) m2 = Some m')
      ∧ rehashed m2 m').
  { destruct Hgrown as (Hm2 & _).
    destruct Hcase as [[Hlen2 Hmono]|Hall].
    - apply IH; [done| |lia|].
      + apply Permutation_length in Hent. lia.
      + intros j Hj. apply Hmono.
        destruct (decide (j = i)) as [->|]; [done|]. apply Hplaced1, Hplaced. lia.
    - exists (S (datalen m2)), m2. split.
      + intros fuel gas _ Hgas. destruct Hm2 as (? & ? & _).
        apply rehash_data_placed; [done|done|done|lia].
      + split_and!; [by apply grown_refl|done|done]. }
  destruct Hrest as (f2 & m' & Hrun2 & (Hgrown' & Hent' & Hall')).
  exists (S (f1 `max` f2)), m'. split.
  - intros fuel [|gas] Hfuel Hgas; [lia|]. cbn.
    rewrite decide_True by done. rewrite decide_False by done.
    fold v. rewrite Hcount. fold m1.
    rewrite (insert_with_absent fuel v m1 m2 it Hlive Hnotin) by (apply Hrun1; lia).
    cbn. apply Hrun2; lia.
  - split_and!; [by eapply grown_trans|by rewrite Hent'|done].
Qed.

(** The second loop of [rehash], and any run of insertions of new keys. *)
Lemma rehash_stash_total (N : nat) :
  (∀ n, (n < N)%nat → do_insert_returns n) →
  ∀ (stmp : list (Key * Value)) (m : cuckoo_map),
    consistent m → (∀ i, placed m i) →
    NoDup (stmp ++ entries m).*1 → Forall (λ e, e.1 ≠ illegalkey m) stmp →
    (length stmp + length (entries m) ≤ N)%nat →
    ∃ (f0 : nat) (m' : cuckoo_map),
      (∀ fuel, (f0 ≤ fuel)%nat →
         rehash_stash (do_insert fuel) stmp m = Some m')
      ∧ grown m m' ∧ entries m' ≡ₚ stmp ++ entries m ∧ (∀ i, placed m' i).
Proof.
  intros HD stmp. induction stmp as [|v rest IH]; intros m Hm Hall Hnd Hlegal HN.
  { exists 0%nat, m. split; [done|]. split_and!; [by apply grown_refl|done|done]. }
  cbn in HN, Hnd. apply NoDup_cons in Hnd as [Hnotin Hnd].
  apply Forall_cons in Hlegal as [Hv Hlegal].
  assert (Hnotin' : v.1 ∉ (entries m).*1).
  { intros Hin. apply Hnotin. rewrite fmap_app. apply elem_of_app. by right. }
  destruct (HD (length (entries m)) ltac:(lia) m v Hm eq_refl Hv Hnotin')
    as (f1 & m1 & it & Hrun1 & (Hgrown & Hent1 & Hcase) & _).
  pose proof Hgrown as (Hm1 & Hkey1 & _).
  assert (Hall1 : ∀ i, placed m1 i).
  { destruct Hcase as [[_ Hmono]|?]; [|done]. intros i. apply Hmono, Hall. }
  destruct (IH m1) as (f2 & m' & Hrun2 & Hgrown' & Hent' & Hall'); [done|done| | | |].
  { rewrite Hent1. rewrite <- Permutation_middle. rewrite fmap_cons.
    by apply NoDup_cons. }
  { by rewrite Hkey1. }
  { apply Permutation_length in Hent1. rewrite Hent1, length_cons. lia. }
  exists (f1 `max` f2)%nat, m'. split.
  - intros fuel Hfuel. cbn.
    rewrite (insert_with_absent fuel v m m1 it Hv Hnotin') by (apply Hrun1; lia).
    cbn. apply Hrun2. lia.
  - split_and!; [by eapply grown_trans| |done].
    rewrite Hent', Hent1. by rewrite <- Permutation_middle.
Qed.

Lemma rehash_total (N : nat) :
  (∀ n, (n < N)%nat → do_insert_returns n) → rehash_returns N.
Proof.
  intros HD m Hm HN.
  destruct (unstash_consistent m Hm) as [Hm1 Hent1].
  set (m1 := Cuckoo.set_numel _ _) in *.
  pose proof Hm as (Hlen & Hnd & Hill & Hnum).
  assert (Hsplit : length (entries m)
                   = (length (live m) + length (map_to_list (stash m)))%nat).
  { unfold Cuckoo.entries. by rewrite length_app. }
  destruct (rehash_data_total N HD (datalen m1) m1 0%nat)
    as (f1 & m2 & Hrun1 & Hgrown1 & Hent2 & Hall2); [done| |lia|lia|].
  { rewrite Hent1. lia. }
  pose proof Hgrown1 as (Hm2 & Hkey2 & _).
  destruct (rehash_stash_total N HD (map_to_list (stash m)) m2)
    as (f2 & m' & Hrun2 & Hgrown2 & Hent' & Hall'); [done|done| | | |].
  { rewrite Hent2, Hent1. rewrite fmap_app, (comm (++)), <- fmap_app. exact Hnd. }
  { rewrite Hkey2. apply Forall_forall. intros [k x] Hkx%elem_of_map_to_list.
    cbn. intros ->. cbn in Hill. congruence. }
  { apply Permutation_length in Hent2. rewrite Hent2, Hent1. lia. }
  exists (f1 `max` f2)%nat, m'. split.
  - intros fuel gas Hfuel Hgas. unfold Cuckoo.rehash. fold m1.
    rewrite (Hrun1 fuel gas) by lia. cbn. apply Hrun2. lia.
  - assert (Hg : grown m m1).
    { split_and!; done. }
    split_and!; [eapply grown_trans; [|done]; by eapply grown_trans| |done].
    rewrite Hent', Hent2, Hent1. unfold Cuckoo.entries. apply (comm (++)).
Qed.

Lemma do_insert_S (fuel : nat) (v : Key * Value) (m : cuckoo_map) :
  do_insert (S fuel) v m =
  m1 ← (if decide (Cuckoo.maxstash m < Z.of_nat (base.size (stash m)))
        then reserve (do_insert fuel) fuel (Cuckoo.grow (datalen m)) m
        else Some m);
  Some (random_walk 100 v Cuckoo.npos
          (Cuckoo.set_numel (Cuckoo.wrap (numel m1 + 1)) m1)).
Proof. done. Qed.

Lemma do_insert_from_rehash (N : nat) : rehash_returns N → do_insert_returns N.
Proof.
  intros HR m v Hm HN Hv Hnotin.
  destruct (decide (Cuckoo.maxstash m < Z.of_nat (base.size (stash m)))) as [Hfull|Hroom].
  - destruct (resize_consistent m (Cuckoo.grow (datalen m)) Hm (grow_ge _))
      as (Hmr & Hentr & Hlenr).
    set (mr := Cuckoo.set_data _ _) in *.
    destruct (HR mr Hmr) as (f0 & m1 & Hrun & Hgrown1 & Hent1 & Hall1).
    { by rewrite Hentr. }
    pose proof Hgrown1 as (Hm1 & Hkey1 & Hmax1 & Hlen1).
    destruct (random_walk 100 v Cuckoo.npos
                (Cuckoo.set_numel (Cuckoo.wrap (numel m1 + 1)) m1))
      as [m' it] eqn:Hwalk.
    destruct (walk_inserted v m1 m' it Hm1) as (Hg & Hent & Hlen' & Hmono & Hit);
      [by rewrite Hkey1|by rewrite Hent1, Hentr|done|].
    exists (S f0), m', it. split_and!.
    + intros [|fuel] Hfuel; [lia|]. rewrite do_insert_S.
      rewrite decide_True by done.
      unfold Cuckoo.reserve. fold mr. rewrite (Hrun fuel fuel) by lia. cbn.
      by rewrite Hwalk.
    + split_and!.
      * eapply grown_trans; [|done]. eapply grown_trans; [|done].
        split_and!; [done|done|done|]. rewrite Hlenr. apply grow_ge.
      * by rewrite Hent, Hent1, Hentr.
      * right. intros i. apply Hmono, Hall1.
    + intros Hfits. apply Hit. by rewrite <- Hlen'.
  - destruct (random_walk 100 v Cuckoo.npos
                (Cuckoo.set_numel (Cuckoo.wrap (numel m + 1)) m))
      as [m' it] eqn:Hwalk.
    destruct (walk_inserted v m m' it Hm Hv Hnotin Hwalk)
      as (Hg & Hent & Hlen' & Hmono & Hit).
    exists 1%nat, m', it. split_and!.
    + intros [|fuel] Hfuel; [lia|]. rewrite do_insert_S.
      rewrite decide_False by done. cbn. by rewrite Hwalk.
    + split_and!; [done|done|]. left. done.
    + intros Hfits. apply Hit. by rewrite <- Hlen'.
Qed.

Lemma do_insert_total (N : nat) : do_insert_returns N.
Proof.
  induction N as [N IH] using lt_wf_ind.
  apply do_insert_from_rehash, rehash_total. exact IH.
Qed.

(** ** The operations return, on every consistent table *)

Lemma do_insert_new (m : cuckoo_map) (v : Key * Value) :
  consistent m → v.1 ≠ illegalkey m → v.1 ∉ (entries m).*1 →
  ∃ (f0 : nat) (m' : cuckoo_map) (it : Cuckoo.iterator),
    (∀ fuel, (f0 ≤ fuel)%nat → do_insert fuel v m = Some (m', it))
    ∧ inserted v m m'
    ∧ (Z.of_nat (datalen m') ≤ Cuckoo.npos → Cuckoo.deref m' it = Some v).
Proof. intros Hm. by apply (do_insert_total (length (entries m))). Qed.

Lemma reserve_preserves (m : cuckoo_map) (newlen : nat) :
  consistent m → (datalen m ≤ newlen)%nat →
  ∃ (f0 : nat) (m' : cuckoo_map),
    (∀ fuel gas, (f0 ≤ fuel)%nat → (f0 ≤ gas)%nat →
       reserve (do_insert fuel) gas newlen m = Some m')
    ∧ rehashed m m' ∧ (newlen ≤ datalen m')%nat.
Proof.
  intros Hm Hnew.
  destruct (resize_consistent m newlen Hm Hnew) as (Hmr & Hentr & Hlenr).
  set (mr := Cuckoo.set_data _ _) in *.
  destruct (rehash_total (length (entries mr))
              (λ n _, do_insert_total n) mr Hmr eq_refl)
    as (f0 & m' & Hrun & Hgrown & Hent & Hall).
  exists f0, m'. split; [exact Hrun|].
  pose proof Hgrown as (? & ? & ? & ?).
  split; [|lia]. split_and!; [|by rewrite Hent, Hentr|done].
  eapply grown_trans; [|done]. split_and!; [done|done|done|lia].
Qed.

Lemma insert_all_rehash_stash (fuel : nat) (vs : list (Key * Value))
    (m : cuckoo_map) :
  insert_all fuel vs m = rehash_stash (do_insert fuel) vs m.
Proof.
  revert m. induction vs as [|v rest IH]; intros m; [done|].
  cbn. unfold Cuckoo.insert.
  destruct (insert_with (do_insert fuel) v m) as [[[m1 it] b]|]; [|done].
  cbn. apply IH.
Qed.

Lemma insert_all_total (vs : list (Key * Value)) (m : cuckoo_map) :
  well_formed m → NoDup (vs ++ entries m).*1 →
  Forall (λ e, e.1 ≠ illegalkey m) vs →
  ∃ (f0 : nat) (m' : cuckoo_map),
    (∀ fuel, (f0 ≤ fuel)%nat → insert_all fuel vs m = Some m')
    ∧ well_formed m' ∧ illegalkey m' = illegalkey m
    ∧ entries m' ≡ₚ vs ++ entries m.
Proof.
  intros [Hm Hall] Hnd Hlegal.
  destruct (rehash_stash_total (length vs + length (entries m))
              (λ n _, do_insert_total n) vs m Hm Hall Hnd Hlegal (le_n _))
    as (f0 & m' & Hrun & (Hm' & Hkey & _) & Hent & Hall').
  exists f0, m'. split_and!; try done.
  intros fuel Hfuel. rewrite insert_all_rehash_stash. by apply Hrun.
Qed.

(** ** Iteration *)

Lemma iterate_stash (m : cuckoo_map) (gas pos : nat) :
  (pos ≤ base.size (stash m))%nat → (base.size (stash m) - pos < gas)%nat →
  Cuckoo.iterate gas m (Cuckoo.StashIter pos) = drop pos (map_to_list (stash m)).
Proof.
  revert pos. induction gas as [|gas IH]; intros pos Hpos Hgas; [lia|].
  cbn. unfold Cuckoo.end_. case_decide as Hend.
  - injection Hend as ->. rewrite drop_ge; [done|]. by rewrite length_map_to_list.
  - assert (Hlt : (pos < base.size (stash m))%nat).
    { destruct (decide (pos = base.size (stash m))) as [->|]; [done|lia]. }
    destruct (lookup_lt_is_Some_2 (map_to_list (stash m)) pos) as [e He].
    { by rewrite length_map_to_list. }
    rewrite He. rewrite decide_False by lia.
    rewrite IH by lia. symmetry. by apply drop_S.
Qed.

Lemma iterate_vector (m : cuckoo_map) (gas i : nat) :
  (i ≤ datalen m)%nat → (datalen m - i + base.size (stash m) < gas)%nat →
  Cuckoo.iterate gas m (Cuckoo.vec_or_stash m (Cuckoo.first_live_from m i))
  = filter (λ e, e.1 ≠ illegalkey m) (drop i (data m)) ++ map_to_list (stash m).
Proof.
  revert i. induction gas as [|gas IH]; intros i Hi Hgas; [lia|].
  unfold Cuckoo.first_live_from.
  destruct (list_find _ (drop i (data m))) as [[j e]|] eqn:Hfind.
  - apply list_find_Some in Hfind as (Hj & He & Hbefore).
    assert (Hij : data m !! (i + j)%nat = Some e) by (by rewrite <- lookup_drop).
    assert (Hlt : (i + j < datalen m)%nat) by (by eapply lookup_lt_Some).
    unfold Cuckoo.vec_or_stash at 1. rewrite decide_False by lia.
    cbn. unfold Cuckoo.end_ at 1. rewrite decide_False by done.
    rewrite Nat2Z.id, Hij. rewrite IH by lia.
    rewrite app_comm_cons. f_equal.
    rewrite <- (take_drop_middle (drop i (data m)) j e Hj).
    rewrite filter_app, filter_cons, decide_True by done.
    rewrite drop_drop. replace (i + S j)%nat with (S (i + j)) by lia.
    rewrite (filter_none _ (take j (drop i (data m)))); [done|].
    apply Forall_forall. intros e' He'.
    apply list_elem_of_lookup in He' as [j' Hj'].
    apply lookup_take_Some in Hj' as [Hj' Hlt'].
    by apply (Hbefore j' e').
  - apply list_find_None in Hfind.
    unfold Cuckoo.vec_or_stash. rewrite decide_True by done.
    rewrite iterate_stash by lia. rewrite drop_0.
    rewrite (filter_none _ (drop i (data m))); [done|].
    eapply Forall_impl; [exact Hfind|]. cbn. tauto.
Qed.

Lemma elements_entries (m : cuckoo_map) : elements m = entries m.
Proof.
  unfold Cuckoo.elements, Cuckoo.begin.
  rewrite iterate_vector by lia. by rewrite drop_0.
Qed.

(** ** Reading *)

Lemma find_deref (m : cuckoo_map) (k : Key) :
  k ≠ illegalkey m → find m k ≠ Cuckoo.end_ m →
  ∃ x, Cuckoo.deref m (find m k) = Some (k, x).
Proof.
  intros Hk Hfound. unfold Cuckoo.find in *.
  destruct (find_slot _ _ _ _) as [idx|] eqn:Hfind.
  - apply find_slot_Some in Hfind as [Hslot _].
    assert (Hl : (slot m idx).1 ≠ illegalkey m) by congruence.
    apply slot_live in Hl. exists (slot m idx).2. cbn. rewrite Hl.
    destruct (slot m idx). cbn in Hslot. by subst.
  - destruct (stash m !! k) as [x|] eqn:Hs.
    + exists x. cbn. by apply stash_find_present.
    + by rewrite (stash_find_absent _ _ Hs) in Hfound.
Qed.

Lemma find_present (m : cuckoo_map) (k : Key) (x : Value) :
  well_formed m → (k, x) ∈ entries m →
  find m k ≠ Cuckoo.end_ m ∧ Cuckoo.deref m (find m k) = Some (k, x).
Proof.
  intros [(Hlen & Hnd & Hill & _) Hall] Hin.
  unfold Cuckoo.entries in Hin. apply elem_of_app in Hin as [Hin|Hin].
  - apply live_elem in Hin as [Hk [i Hi]]. cbn in Hk.
    rewrite (find_in_vector m i k x Hlen Hnd Hi Hk (Hall i)).
    split; [done|]. cbn. by rewrite Nat2Z.id.
  - apply elem_of_map_to_list in Hin.
    rewrite (find_in_stash m k x Hnd Hill Hin).
    destruct (stash_find_present _ _ _ Hin) as [Hlt Hpos].
    split; [|done]. unfold Cuckoo.end_. intros [= Heq]. lia.
Qed.

Lemma find_end_absent (m : cuckoo_map) (k : Key) :
  well_formed m → find m k = Cuckoo.end_ m → k ∉ (entries m).*1.
Proof.
  intros Hm Hend Hin. apply list_elem_of_fmap in Hin as ([k' x] & -> & Hin).
  by destruct (find_present m k' x Hm Hin).
Qed.

(** ** Writing through an iterator *)

Lemma assign_well_formed (m : cuckoo_map) (it : Cuckoo.iterator) (k : Key)
    (x v : Value) :
  well_formed m → k ≠ illegalkey m → Cuckoo.deref m it = Some (k, x) →
  well_formed (Cuckoo.assign m it v)
  ∧ (k, v) ∈ entries (Cuckoo.assign m it v)
  ∧ illegalkey (Cuckoo.assign m it v) = illegalkey m.
Proof.
  intros [(Hlen & Hnd & Hill & Hnum) Hall] Hk Hit.
  destruct it as [idx|pos]; cbn in Hit; unfold Cuckoo.assign; rewrite Hit.
  - pose proof (slot_lookup m idx _ Hit) as Hslot.
    assert (Hperm : (k, x) :: entries (replace_in_vector idx (k, v) m)
                    ≡ₚ (k, v) :: entries m).
    { rewrite <- Hslot. apply replace_evict; [by rewrite Hslot|done]. }
    assert (Hkeys : (entries (replace_in_vector idx (k, v) m)).*1
                    ≡ₚ (entries m).*1).
    { apply (fmap_Permutation fst) in Hperm. rewrite !fmap_cons in Hperm.
      by apply Permutation_cons_inv in Hperm. }
    split_and!; [split|..].
    + split_and!; [by rewrite datalen_replace|by rewrite Hkeys|done|].
      cbn [Cuckoo.numel Cuckoo.replace_in_vector Cuckoo.set_data].
      rewrite Hnum. f_equal. f_equal.
      apply Permutation_length in Hkeys. by rewrite !length_fmap in Hkeys.
    + intros i. apply replace_placed_at; [|done]. left.
      by apply (Hall (Z.to_nat idx) (k, x)).
    + unfold Cuckoo.entries. apply elem_of_app. left. apply live_elem.
      split; [done|]. exists (Z.to_nat idx). cbn.
      apply list_lookup_insert_eq. by eapply lookup_lt_Some.
    + done.
  - assert (Hs : stash m !! k = Some x).
    { by apply elem_of_map_to_list, list_elem_of_lookup_2 with pos. }
    assert (Hperm : map_to_list (<[ k := v ]> (stash m))
                    ≡ₚ (k, v) :: map_to_list (delete k (stash m))).
    { rewrite <- insert_delete_eq. apply map_to_list_insert, lookup_delete_eq. }
    assert (Hperm' : map_to_list (stash m)
                     ≡ₚ (k, x) :: map_to_list (delete k (stash m))).
    { symmetry. by apply map_to_list_delete. }
    set (m2 := Cuckoo.set_stash _ m).
    assert (Hkeys : (entries m2).*1 ≡ₚ (entries m).*1).
    { unfold Cuckoo.entries, m2. cbn. rewrite !fmap_app.
      by rewrite Hperm, Hperm'. }
    split_and!; [split|..].
    + split_and!; [done|by rewrite Hkeys| |].
      * cbn. by rewrite lookup_insert_ne.
      * change (numel m2) with (numel m). rewrite Hnum. f_equal. f_equal.
        apply Permutation_length in Hkeys. by rewrite !length_fmap in Hkeys.
    + exact Hall.
    + unfold Cuckoo.entries. apply elem_of_app. right.
      apply elem_of_map_to_list. cbn. apply lookup_insert_eq.
    + done.
Qed.

(** ** Erasing *)

Lemma erase_spec (m : cuckoo_map) (k : Key) :
  well_formed m → k ≠ illegalkey m →
  well_formed (erase m k) ∧ count (erase m k) k = false.
Proof.
  intros Hm Hk. pose proof Hm as [(Hlen & Hnd & Hill & Hnum) Hall].
  unfold Cuckoo.erase. case_decide as Hend.
  { split; [done|]. rewrite count_find. apply bool_decide_eq_false_2.
    intros Hne. by apply Hne. }
  assert (Hgone : ∀ m', consistent m' → (∀ i, placed m' i) →
            illegalkey m' = illegalkey m → k ∉ (entries m').*1 →
            well_formed m' ∧ count m' k = false).
  { intros m' Hm' Hall' Hkey Hnotin. split; [done|].
    rewrite count_find. apply bool_decide_eq_false_2.
    intros Hne. apply Hne, find_absent; [by rewrite Hkey|done]. }
  unfold Cuckoo.find in *.
  destruct (find_slot _ _ _ _) as [idx|] eqn:Hfind.
  - apply find_slot_Some in Hfind as (Hslot & j & _ & Hidx).
    pose proof (compute_hash_bounds (datalen m) (hashfun k) j Hlen) as Hrange.
    rewrite <- Hidx in Hrange.
    assert (Hl : (slot m idx).1 ≠ illegalkey m) by congruence.
    pose proof (slot_live m idx Hl) as Hi.
    cbn. rewrite decide_False by done.
    destruct (remove_consistent m (Z.to_nat idx) _ (proj1 Hm) Hi Hl)
      as (Hm1 & Hperm & Hnotin & Hlen1 & Hplaced1 & _).
    rewrite Z2Nat.id in * by lia.
    apply Hgone; [done| |done|by rewrite <- Hslot].
    intros i. apply Hplaced1, Hall.
  - assert (Hs : is_Some (stash m !! k)).
    { destruct (stash m !! k) eqn:Hs; [by eauto|].
      by rewrite (stash_find_absent _ _ Hs) in Hend. }
    destruct Hs as [x Hs].
    destruct (stash_find_present _ _ _ Hs) as [_ Hpos].
    cbn. rewrite Hpos.
    set (m1 := Cuckoo.set_stash _ _).
    assert (Hperm : (k, x) :: entries m1 ≡ₚ entries m).
    { unfold Cuckoo.entries, m1. cbn.
      rewrite <- (map_to_list_delete (stash m) k x Hs).
      by rewrite Permutation_middle. }
    assert (Hnd' : NoDup ((k, x) :: entries m1).*1) by (by rewrite Hperm).
    rewrite fmap_cons in Hnd'. apply NoDup_cons in Hnd' as [Hnotin Hnd'].
    apply Hgone; [|exact Hall|done|done].
    split_and!; [done|done| |].
    + cbn. by apply lookup_delete_None; right.
    + change (numel m1) with (Cuckoo.wrap (numel m - 1)).
      rewrite Hnum, wrap_sub. f_equal.
      apply Permutation_length in Hperm. rewrite <- Hperm, length_cons. lia.
Qed.

(** ** [operator[]] *)

Lemma subscript_returns (m : cuckoo_map) (k : Key) :
  well_formed m → k ≠ illegalkey m →
  ∃ (f0 : nat) (m1 : cuckoo_map) (it : Cuckoo.iterator),
    (∀ fuel, (f0 ≤ fuel)%nat → subscript fuel k m = Some (m1, it))
    ∧ well_formed m1 ∧ illegalkey m1 = illegalkey m
    ∧ (Z.of_nat (datalen m1) ≤ Cuckoo.npos →
       ∃ x, Cuckoo.deref m1 it = Some (k, x)).
Proof.
  intros Hm Hk. pose proof Hm as [Hcons Hall]. unfold Cuckoo.subscript.
  destruct (decide (find m k = Cuckoo.end_ m)) as [Hend|Hfound].
  - destruct (do_insert_new m (k, mapped_type_zero) Hcons Hk
                (find_end_absent m k Hm Hend))
      as (f0 & m1 & it & Hrun & ((Hm1 & Hkey & _) & _ & Hcase) & Hit).
    exists f0, m1, it. split_and!; [done| |done|by eauto].
    split; [done|]. destruct Hcase as [[_ Hmono]|?]; [|done].
    intros i. apply Hmono, Hall.
  - exists 0%nat, m, (find m k). split_and!; [done|done|done|].
    intros _. by apply find_deref.
Qed.

(** ** A table as the constructor leaves it *)

Lemma fresh_well_formed (illegal : Key) (stashsize : Z) (seed : Rng) :
  well_formed (fresh illegal stashsize seed)
  ∧ entries (fresh illegal stashsize seed) = [].
Proof.
  assert (Hent : entries (fresh illegal stashsize seed) = []).
  { unfold Cuckoo.entries, Cuckoo.live. cbn -[replicate].
    rewrite map_to_list_empty, app_nil_r.
    apply filter_none, Forall_forall. intros e He%elem_of_replicate.
    destruct He as [-> _]. cbn. tauto. }
  split; [|done]. split.
  - split_and!.
    + unfold Cuckoo.datalen. cbn -[replicate]. rewrite length_replicate. lia.
    + rewrite Hent. constructor.
    + done.
    + by rewrite Hent.
  - intros i e He Hlive. cbn -[replicate] in He, Hlive.
    apply lookup_replicate in He as [-> _]. done.
Qed.

(** ** Round trips *)

(** C8. On a well-formed table and for a key [k] other than the illegal
    key, [operator[]] returns, leaving a well-formed table; while the length
    of the vector fits the [size_t] that [insertpos] is, a value [v] written
    through the reference it returns is the value a following read of [k]
    through [operator[]] finds, that read leaving the table as it is; and
    after [erase(k)], [count(k)] is false. *)
Theorem table_round_trip (m : cuckoo_map) (k : Key) (v : Value) :
  well_formed m → k ≠ illegalkey m →
  ∃ (f0 : nat) (m1 : cuckoo_map) (it : Cuckoo.iterator),
    (∀ fuel, (f0 ≤ fuel)%nat → subscript fuel k m = Some (m1, it))
    ∧ well_formed m1
    ∧ (Z.of_nat (datalen m1) ≤ Cuckoo.npos →
       let m2 := Cuckoo.assign m1 it v in
       well_formed m2
       ∧ (∀ fuel, subscript fuel k m2 = Some (m2, find m2 k))
       ∧ Cuckoo.deref m2 (find m2 k) = Some (k, v)
       ∧ count (erase m2 k) k = false)
    ∧ count (erase m k) k = false.
Proof.
  intros Hm Hk.
  destruct (subscript_returns m k Hm Hk) as (f0 & m1 & it & Hrun & Hm1 & Hkey & Hit).
  exists f0, m1, it. split_and!; [done|done| |by apply erase_spec].
  intros Hfits. destruct (Hit Hfits) as [x Hx].
  destruct (assign_well_formed m1 it k x v Hm1 ltac:(by rewrite Hkey) Hx)
    as (Hm2 & Hin & Hkey2).
  destruct (find_present _ k v Hm2 Hin) as [Hfound Hderef].
  cbn zeta. split_and!; [done| |done|].
  - intros fuel. unfold Cuckoo.subscript. by rewrite decide_False.
  - apply erase_spec; [done|]. by rewrite Hkey2, Hkey.
Qed.

(** [reserve] keeps the entries of the vector and of the stash, each once. *)
Lemma reserve_elements (m : cuckoo_map) (newlen : nat) :
  consistent m → (datalen m ≤ newlen)%nat →
  ∃ (f0 : nat) (m' : cuckoo_map),
    (∀ fuel gas, (f0 ≤ fuel)%nat → (f0 ≤ gas)%nat →
       reserve (do_insert fuel) gas newlen m = Some m')
    ∧ well_formed m' ∧ elements m' ≡ₚ elements m
    ∧ Cuckoo.size m' = Cuckoo.size m ∧ (newlen ≤ datalen m')%nat.
Proof.
  intros Hm Hnew.
  destruct (reserve_preserves m newlen Hm Hnew)
    as (f0 & m' & Hrun & ((Hm' & _) & Hent & Hall) & Hlen).
  exists f0, m'. split_and!; [done|done|by rewrite !elements_entries| |done].
  destruct Hm as (_ & _ & _ & Hnum), Hm' as (_ & _ & _ & Hnum').
  unfold Cuckoo.size. rewrite Hnum, Hnum'. by rewrite Hent.
Qed.

(** C9. [M < 2 ^ 64] entries with distinct keys, none of them the illegal
    key, inserted one after the other into a table as the constructor leaves
    it: every [insert] returns, whatever resizing and rehashing the stash
    threshold sets off on the way, and the iteration from [begin()] to
    [end()] then yields the entries inserted, each once and with its value,
    [M] of them, no key twice; [size()] is [M], and every key is found with
    its value. *)
Theorem rehash_preservation (illegal : Key) (stashsize : Z) (seed : Rng)
    (kvs : list (Key * Value)) :
  NoDup kvs.*1 → Forall (λ e, e.1 ≠ illegal) kvs →
  Z.of_nat (length kvs) < size_t_modulus →
  ∃ (f0 : nat) (m' : cuckoo_map),
    (∀ fuel, (f0 ≤ fuel)%nat →
       insert_all fuel kvs (fresh illegal stashsize seed) = Some m')
    ∧ well_formed m'
    ∧ elements m' ≡ₚ kvs
    ∧ NoDup (elements m').*1
    ∧ length (elements m') = length kvs
    ∧ Cuckoo.size m' = Z.of_nat (length kvs)
    ∧ (∀ k x, (k, x) ∈ kvs →
         find m' k ≠ Cuckoo.end_ m'
         ∧ Cuckoo.deref m' (find m' k) = Some (k, x)).
Proof.
  intros Hnd Hlegal HM.
  destruct (fresh_well_formed illegal stashsize seed) as [Hm0 Hent0].
  destruct (insert_all_total kvs (fresh illegal stashsize seed) Hm0)
    as (f0 & m' & Hrun & Hm' & Hkey & Hent).
  { by rewrite Hent0, app_nil_r. }
  { done. }
  rewrite Hent0, app_nil_r in Hent.
  exists f0, m'. rewrite elements_entries.
  split_and!; [done|done|done|by rewrite Hent|by rewrite Hent| |].
  - destruct Hm' as [(_ & _ & _ & Hnum) _]. unfold Cuckoo.size.
    rewrite Hnum, Hent. unfold Cuckoo.wrap. apply Z.mod_small. lia.
  - intros k x Hin. apply find_present; [done|]. by rewrite Hent.
Qed.


(** ** What the users of a table can rely on *)

Notation clear := (Cuckoo.clear CuckooK mapped_type_zero hashfun kranddist).
Notation construct := (Cuckoo.construct CuckooK mapped_type_zero hashfun kranddist).
Notation copy_assign := (Cuckoo.copy_assign (Key := Key) (Value := Value) (Rng := Rng)).
Notation self_assign := (Cuckoo.self_assign (Key := Key) (Value := Value) (Rng := Rng)).

Lemma filter_insert_dead {A} (P : A → Prop) `{!∀ x, Decision (P x)}
    (l : list A) (i : nat) (e v : A) :
  l !! i = Some e → ¬ P e → ¬ P v → filter P (<[ i := v ]> l) = filter P l.
Proof.
  intros Hi He Hv.
  rewrite insert_take_drop by (by eapply lookup_lt_Some).
  rewrite <- (take_drop_middle l i e Hi) at 3.
  rewrite !filter_app, !filter_cons.
  by rewrite !decide_False by done.
Qed.

Lemma count_false_find (m : cuckoo_map) (k : Key) :
  count m k = false ↔ find m k = Cuckoo.end_ m.
Proof.
  rewrite count_find. split.
  - intros Hc%bool_decide_eq_false.
    destruct (decide (find m k = Cuckoo.end_ m)); [done|contradiction].
  - intros Hend. apply bool_decide_eq_false_2. intros Hne. by apply Hne.
Qed.

Lemma entries_legal (m : cuckoo_map) :
  stash m !! illegalkey m = None →
  Forall (λ e, e.1 ≠ illegalkey m) (entries m).
Proof.
  intros Hill. unfold Cuckoo.entries. apply Forall_app. split.
  - apply Forall_forall. by intros e [? _]%live_elem.
  - apply Forall_forall. intros [k x] Hkx%elem_of_map_to_list. cbn.
    intros ->. congruence.
Qed.

Lemma entries_functional (m : cuckoo_map) (k : Key) (x y : Value) :
  NoDup (entries m).*1 → (k, x) ∈ entries m → (k, y) ∈ entries m → x = y.
Proof.
  intros Hnd Hx Hy.
  apply list_elem_of_lookup in Hx as [i Hi], Hy as [j Hj].
  assert (i = j) as ->.
  { eapply (NoDup_lookup _ i j k Hnd); rewrite list_lookup_fmap.
    - by rewrite Hi.
    - by rewrite Hj. }
  congruence.
Qed.

(** What [erase(k)] does to a table that holds [k]. *)
Lemma erase_present (m : cuckoo_map) (k : Key) :
  well_formed m → k ≠ illegalkey m → find m k ≠ Cuckoo.end_ m →
  ∃ x, (k, x) :: entries (erase m k) ≡ₚ entries m
       ∧ numel (erase m k) = Cuckoo.wrap (numel m - 1).
Proof.
  intros Hm Hk Hfound. pose proof Hm as [(Hlen & Hnd & Hill & Hnum) Hall].
  unfold Cuckoo.erase. rewrite decide_False by done.
  unfold Cuckoo.find in *.
  destruct (find_slot _ _ _ _) as [idx|] eqn:Hfind.
  - apply find_slot_Some in Hfind as (Hslot & _).
    assert (Hl : (slot m idx).1 ≠ illegalkey m) by congruence.
    cbn. rewrite decide_False by done.
    exists (slot m idx).2. split; [|done].
    replace (k, (slot m idx).2) with (slot m idx)
      by (destruct (slot m idx); cbn in *; congruence).
    by apply (replace_remove m idx mapped_type_zero).
  - assert (Hs : is_Some (stash m !! k)).
    { destruct (stash m !! k) eqn:Hs; [by eauto|].
      by rewrite (stash_find_absent _ _ Hs) in Hfound. }
    destruct Hs as [x Hs].
    destruct (stash_find_present _ _ _ Hs) as [_ Hpos].
    cbn. rewrite Hpos. exists x. split; [|done].
    unfold Cuckoo.entries. cbn.
    rewrite <- (map_to_list_delete (stash m) k x Hs).
    by rewrite Permutation_middle.
Qed.

(** X1. [insert] does not overwrite: on a key the table holds it returns the
    iterator to the entry there is and [false], and the table, with the
    value it had for the key, is as before. *)
Theorem insert_keeps_existing (m : cuckoo_map) (k : Key) (x x' : Value)
    (fuel : nat) :
  well_formed m → (k, x) ∈ elements m →
  insert fuel (k, x') m = Some (m, find m k, false)
  ∧ Cuckoo.deref m (find m k) = Some (k, x).
Proof.
  intros Hm Hin. rewrite elements_entries in Hin.
  destruct (find_present m k x Hm Hin) as [Hfound Hderef].
  split; [|done]. unfold Cuckoo.insert, Cuckoo.insert_with. cbn [fst].
  by rewrite decide_False.
Qed.

(** X2. [insert] of a key the table does not hold returns, with [true]; the
    table then holds the new entry beside the old ones, [size()] is one
    more, and every key, old or new, is found with its value. *)
Theorem insert_new_key (m : cuckoo_map) (k : Key) (x : Value) :
  well_formed m → k ≠ illegalkey m → count m k = false →
  ∃ (f0 : nat) (m' : cuckoo_map) (it : Cuckoo.iterator),
    (∀ fuel, (f0 ≤ fuel)%nat → insert fuel (k, x) m = Some (m', it, true))
    ∧ well_formed m'
    ∧ elements m' ≡ₚ (k, x) :: elements m
    ∧ Cuckoo.size m' = Cuckoo.wrap (Cuckoo.size m + 1)
    ∧ (∀ k' x', (k', x') ∈ (k, x) :: elements m →
         find m' k' ≠ Cuckoo.end_ m'
         ∧ Cuckoo.deref m' (find m' k') = Some (k', x'))
    ∧ (Z.of_nat (datalen m') ≤ Cuckoo.npos →
       Cuckoo.deref m' it = Some (k, x)).
Proof.
  intros Hm Hk Hcount. pose proof Hm as [Hcons Hall].
  assert (Hnotin : k ∉ (entries m).*1).
  { by apply find_end_absent, count_false_find. }
  destruct (do_insert_new m (k, x) Hcons Hk Hnotin)
    as (f0 & m' & it & Hrun & ((Hm' & Hkey & _) & Hent & Hcase) & Hit).
  assert (Hwf : well_formed m').
  { split; [done|]. destruct Hcase as [[_ Hmono]|?]; [|done].
    intros i. apply Hmono, Hall. }
  exists f0, m', it. rewrite !elements_entries.
  split_and!; [|done|done| | |done].
  - intros fuel Hfuel. by apply insert_with_absent, Hrun.
  - destruct Hcons as (_ & _ & _ & Hnum), Hm' as (_ & _ & _ & Hnum').
    unfold Cuckoo.size. rewrite Hnum', Hnum, wrap_succ. f_equal.
    apply Permutation_length in Hent. rewrite Hent, length_cons. lia.
  - intros k' x' Hin. apply find_present; [done|]. by rewrite Hent.
Qed.

(** X3. [erase(k)] takes out the entry of [k] and nothing else: a table that
    does not hold [k] is left as it is; otherwise the entry of [k] is the one
    entry that goes and [size()] is one less; every other key is found with
    its value as before. *)
Theorem erase_removes_one_key (m : cuckoo_map) (k : Key) :
  well_formed m → k ≠ illegalkey m →
  well_formed (erase m k)
  ∧ (count m k = false → erase m k = m)
  ∧ (∀ x, (k, x) ∈ elements m →
       (k, x) :: elements (erase m k) ≡ₚ elements m
       ∧ Cuckoo.size (erase m k) = Cuckoo.wrap (Cuckoo.size m - 1))
  ∧ (∀ k' x', k' ≠ k → (k', x') ∈ elements m →
       find (erase m k) k' ≠ Cuckoo.end_ (erase m k)
       ∧ Cuckoo.deref (erase m k) (find (erase m k) k') = Some (k', x')).
Proof.
  intros Hm Hk. pose proof Hm as [(Hlen & Hnd & Hill & Hnum) Hall].
  destruct (erase_spec m k Hm Hk) as [Hwf _].
  assert (Habsent : find m k = Cuckoo.end_ m → erase m k = m).
  { intros Hend. unfold Cuckoo.erase. by rewrite decide_True. }
  rewrite !elements_entries.
  split_and!; [done| | |].
  - intros Hc. by apply Habsent, count_false_find.
  - intros x Hin.
    destruct (find_present m k x Hm Hin) as [Hfound _].
    destruct (erase_present m k Hm Hk Hfound) as (x0 & Hperm & Hnum').
    assert (x0 = x) as ->.
    { apply (entries_functional m k); [done| |done].
      rewrite <- Hperm. by left. }
    done.
  - intros k' x' Hne Hin. apply find_present; [done|].
    destruct (decide (find m k = Cuckoo.end_ m)) as [Hend|Hfound].
    + by rewrite (Habsent Hend).
    + destruct (erase_present m k Hm Hk Hfound) as (x0 & Hperm & _).
      rewrite <- Hperm in Hin. apply elem_of_cons in Hin as [[= ? ?]|Hin]; done.
Qed.

(** X4. [size()] is the number of entries an iteration visits, while that
    number fits a [size_t]; no key is visited twice and the illegal key is
    not visited. *)
Theorem size_counts_elements (m : cuckoo_map) :
  consistent m → Z.of_nat (length (elements m)) < size_t_modulus →
  Cuckoo.size m = Z.of_nat (length (elements m))
  ∧ NoDup (elements m).*1
  ∧ Forall (λ e, e.1 ≠ illegalkey m) (elements m).
Proof.
  rewrite elements_entries. intros (Hlen & Hnd & Hill & Hnum) Hfits.
  split_and!; [|done|by apply entries_legal].
  unfold Cuckoo.size. rewrite Hnum. unfold Cuckoo.wrap.
  apply Z.mod_small. lia.
Qed.

(** X5. On the keys a caller may use, [count] and [find] agree with the
    iteration: [count(k)] is true, and [find(k)] is not [end()], exactly
    when an iteration visits an entry of key [k]. *)
Theorem count_iff_listed (m : cuckoo_map) (k : Key) :
  well_formed m → k ≠ illegalkey m →
  (count m k = true ↔ k ∈ (elements m).*1)
  ∧ (find m k ≠ Cuckoo.end_ m ↔ k ∈ (elements m).*1).
Proof.
  intros Hm Hk. rewrite elements_entries.
  assert (Hfind : find m k ≠ Cuckoo.end_ m ↔ k ∈ (entries m).*1).
  { split.
    - intros Hfound. destruct (decide (k ∈ (entries m).*1)) as [|Hnotin]; [done|].
      by destruct Hfound; apply find_absent.
    - intros ([k' x] & -> & Hin)%list_elem_of_fmap.
      by destruct (find_present m k' x Hm Hin). }
  split; [|done]. rewrite <- Hfind, count_find. apply bool_decide_eq_true.
Qed.

(** X6. The illegal key cannot be stored.  While one of its candidate slots is
    free, [insert] of an entry with the illegal key reports the key as
    present and leaves the table as it is, [operator[]] hands out that free
    slot, and a value written through it changes neither what an iteration
    visits nor [size()]. *)
Theorem insert_illegal_key_ignored (m : cuckoo_map) (j : nat) :
  (0 < datalen m)%nat → (j < CuckooK)%nat →
  (slot m (Cuckoo.compute_hash (datalen m) (hashfun (illegalkey m)) j)).1
    = illegalkey m →
  ∃ idx : Z,
    find m (illegalkey m) = Cuckoo.VecIter idx
    ∧ (∀ fuel x,
         insert fuel (illegalkey m, x) m = Some (m, Cuckoo.VecIter idx, false))
    ∧ (∀ fuel,
         subscript fuel (illegalkey m) m = Some (m, Cuckoo.VecIter idx))
    ∧ (∀ v, elements (Cuckoo.assign m (Cuckoo.VecIter idx) v) = elements m
            ∧ Cuckoo.size (Cuckoo.assign m (Cuckoo.VecIter idx) v)
              = Cuckoo.size m).
Proof.
  intros Hlen Hj Hfree.
  destruct (find_slot_first m (illegalkey m) (hashfun (illegalkey m))
              (seq 0 CuckooK) j) as [idx Hfind]; [apply elem_of_seq; lia|done|].
  assert (Hf : find m (illegalkey m) = Cuckoo.VecIter idx).
  { unfold Cuckoo.find. by rewrite Hfind. }
  exists idx. split; [done|].
  apply find_slot_Some in Hfind as (Hslot & j' & _ & Hidx).
  pose proof (compute_hash_bounds (datalen m) (hashfun (illegalkey m)) j' Hlen)
    as Hrange. rewrite <- Hidx in Hrange.
  pose proof (slot_in_range m idx Hrange) as Hi.
  split_and!.
  - intros fuel x. unfold Cuckoo.insert, Cuckoo.insert_with.
    cbn [fst]. rewrite Hf. by rewrite decide_False.
  - intros fuel. unfold Cuckoo.subscript. rewrite Hf. by rewrite decide_False.
  - intros v. rewrite !elements_entries. unfold Cuckoo.assign. rewrite Hi.
    destruct (slot m idx) as [k0 x0] eqn:Hs. cbn in Hslot. subst k0.
    split; [|done].
    unfold Cuckoo.entries, Cuckoo.live. cbn. f_equal.
    apply (filter_insert_dead _ _ _ (illegalkey m, x0)); [done| |].
    + cbn. by intros Hne.
    + cbn. by intros Hne.
Qed.

(** X7. The vector is resized by an insertion only when the stash is over its
    threshold: with [stash.size() <= maxstash] a new key is placed in a
    vector of the same length, and with [stash.size() > maxstash] the
    vector is [datalen * 3 / 2] long at least afterwards. *)
Theorem resize_only_above_threshold (m : cuckoo_map) (v : Key * Value) :
  consistent m → v.1 ≠ illegalkey m → v.1 ∉ (elements m).*1 →
  ∃ (f0 : nat) (m' : cuckoo_map) (it : Cuckoo.iterator),
    (∀ fuel, (f0 ≤ fuel)%nat → insert fuel v m = Some (m', it, true))
    ∧ (Z.of_nat (base.size (stash m)) ≤ Cuckoo.maxstash m →
       datalen m' = datalen m)
    ∧ (Cuckoo.maxstash m < Z.of_nat (base.size (stash m)) →
       (Cuckoo.grow (datalen m) ≤ datalen m')%nat).
Proof.
  rewrite elements_entries. intros Hm Hv Hnotin.
  destruct (decide (Cuckoo.maxstash m < Z.of_nat (base.size (stash m))))
    as [Hfull|Hroom].
  - destruct (reserve_preserves m (Cuckoo.grow (datalen m)) Hm (grow_ge _))
      as (f0 & m1 & Hrun & ((Hm1 & Hkey1 & _) & Hent1 & _) & Hlen1).
    destruct (random_walk 100 v Cuckoo.npos
                (Cuckoo.set_numel (Cuckoo.wrap (numel m1 + 1)) m1))
      as [m' it] eqn:Hwalk.
    destruct (walk_inserted v m1 m' it Hm1) as (_ & _ & Hlen' & _);
      [by rewrite Hkey1|by rewrite Hent1|done|].
    exists (S f0), m', it. split_and!; [|lia|lia].
    intros [|fuel] Hfuel; [lia|]. apply insert_with_absent; [done|done|].
    rewrite do_insert_S. rewrite decide_True by done.
    rewrite (Hrun fuel fuel) by lia. cbn. by rewrite Hwalk.
  - destruct (random_walk 100 v Cuckoo.npos
                (Cuckoo.set_numel (Cuckoo.wrap (numel m + 1)) m))
      as [m' it] eqn:Hwalk.
    destruct (walk_inserted v m m' it Hm Hv Hnotin Hwalk) as (_ & _ & Hlen' & _).
    exists 1%nat, m', it. split_and!; [|done|lia].
    intros [|fuel] Hfuel; [lia|]. apply insert_with_absent; [done|done|].
    rewrite do_insert_S. rewrite decide_False by done. cbn. by rewrite Hwalk.
Qed.

(** X8. [clear()] leaves the table the constructor would build with the same
    illegal key, threshold and generator, whatever the table held: 128 free
    slots, no entry, [size()] zero. *)
Theorem clear_resets (m : cuckoo_map) (fuel : nat) :
  (129 ≤ fuel)%nat →
  ∃ m', clear fuel m = Some m'
        ∧ construct fuel (illegalkey m) (Cuckoo.maxstash m) (Cuckoo.drng m)
          = Some m'
        ∧ well_formed m' ∧ datalen m' = 128%nat
        ∧ Cuckoo.size m' = 0 ∧ elements m' = [].
Proof.
  intros Hfuel.
  exists (fresh (illegalkey m) (Cuckoo.maxstash m) (Cuckoo.drng m)).
  split_and!.
  - change (clear fuel m)
      with (construct fuel (illegalkey m) (Cuckoo.maxstash m) (Cuckoo.drng m)).
    by apply construct_fresh.
  - by apply construct_fresh.
  - apply fresh_well_formed.
  - unfold Cuckoo.datalen. cbn -[replicate]. apply length_replicate.
  - done.
  - rewrite elements_entries. apply fresh_well_formed.
Qed.

(** X9. [begin()] is [end()] exactly on the tables an iteration of which visits
    nothing. *)
Theorem begin_is_end_iff_empty (m : cuckoo_map) :
  Cuckoo.begin m = Cuckoo.end_ m ↔ elements m = [].
Proof.
  rewrite elements_entries.
  unfold Cuckoo.begin, Cuckoo.first_live_from, Cuckoo.entries, Cuckoo.live.
  rewrite drop_0.
  destruct (list_find _ (data m)) as [[j e]|] eqn:Hfind.
  - apply list_find_Some in Hfind as (Hj & He & _).
    assert (Hlt : (j < datalen m)%nat) by (by eapply lookup_lt_Some).
    unfold Cuckoo.vec_or_stash. rewrite decide_False by lia.
    split; [done|]. intros Hnil. exfalso.
    assert (Hin : e ∈ filter (λ e, e.1 ≠ illegalkey m) (data m) ++ map_to_list (stash m)).
    { apply elem_of_app. left. apply list_elem_of_filter. split; [done|].
      by eapply list_elem_of_lookup_2. }
    rewrite Hnil in Hin. by apply elem_of_nil in Hin.
  - apply list_find_None in Hfind.
    unfold Cuckoo.vec_or_stash, Cuckoo.end_. rewrite decide_True by done.
    rewrite (filter_none _ (data m)) by (eapply Forall_impl; [exact Hfind|]; cbn; tauto).
    cbn [app]. rewrite <- length_zero_iff_nil, length_map_to_list.
    split; [by intros [= <-]|by intros ->].
Qed.

(** X10. An iteration visits the slots of the vector that are in use, in the
    order of their indices, and then the entries of the stash; a free slot
    is passed over. *)
Theorem iteration_order (m : cuckoo_map) :
  elements m
  = filter (λ e, e.1 ≠ illegalkey m) (data m) ++ map_to_list (stash m).
Proof. apply elements_entries. Qed.

(** X11. [reserve] to a length not below the present one returns and puts every
    entry at a candidate slot or in the stash, also the entries of a table
    that had them elsewhere: afterwards every key is found with its value,
    and [size()] is as before. *)
Theorem reserve_keeps_lookups (m : cuckoo_map) (newlen : nat) :
  consistent m → (datalen m ≤ newlen)%nat →
  ∃ (f0 : nat) (m' : cuckoo_map),
    (∀ fuel gas, (f0 ≤ fuel)%nat → (f0 ≤ gas)%nat →
       reserve (do_insert fuel) gas newlen m = Some m')
    ∧ well_formed m' ∧ (newlen ≤ datalen m')%nat
    ∧ Cuckoo.size m' = Cuckoo.size m
    ∧ (∀ k x, (k, x) ∈ elements m →
         find m' k ≠ Cuckoo.end_ m'
         ∧ Cuckoo.deref m' (find m' k) = Some (k, x)).
Proof.
  intros Hm Hnew.
  destruct (reserve_preserves m newlen Hm Hnew)
    as (f0 & m' & Hrun & ((Hm' & _) & Hent & Hall) & Hlen).
  exists f0, m'. split_and!; [done|done|done| |].
  - destruct Hm as (_ & _ & _ & Hnum), Hm' as (_ & _ & _ & Hnum').
    unfold Cuckoo.size. by rewrite Hnum, Hnum', Hent.
  - intros k x Hin. rewrite elements_entries in Hin.
    apply find_present; [done|]. by rewrite Hent.
Qed.

Lemma find_slot_agree (m m' : cuckoo_map) (k : Key) (h : Z) (seeds : list nat) :
  data m' = data m → illegalkey m' = illegalkey m →
  find_slot m' k h seeds = find_slot m k h seeds.
Proof.
  intros Hdata Hkey. induction seeds as [|i rest IH]; [done|].
  cbn. unfold Cuckoo.datalen, Cuckoo.slot. rewrite Hdata, Hkey.
  case_decide; [done|]. exact IH.
Qed.

(** X12. [operator=] gives a table the entries of the other one, found as they
    are there, but not its stash threshold, which stays the one the table
    was constructed with; assigned to itself, a table loses its entries and
    is left with a vector of length zero. *)
Theorem copy_assign_spec (this other : cuckoo_map) :
  (well_formed other → well_formed (copy_assign this other))
  ∧ elements (copy_assign this other) = elements other
  ∧ Cuckoo.size (copy_assign this other) = Cuckoo.size other
  ∧ (∀ k, find (copy_assign this other) k = find other k
          ∧ count (copy_assign this other) k = count other k)
  ∧ Cuckoo.maxstash (copy_assign this other) = Cuckoo.maxstash this
  ∧ datalen (self_assign this) = 0%nat
  ∧ elements (self_assign this) = []
  ∧ Cuckoo.size (self_assign this) = 0.
Proof.
  split_and!; try done.
  - by rewrite !elements_entries.
  - intros k. unfold Cuckoo.find, Cuckoo.count.
    by rewrite (find_slot_agree other (copy_assign this other)).
Qed.

(** ** The invariant, checked by evaluation *)

Lemma zip_seq_lookup {A} (l : list A) (start i : nat) (e : A) :
  l !! i = Some e → ((start + i)%nat, e) ∈ zip (seq start (length l)) l.
Proof.
  revert start i. induction l as [|a l IH]; intros start i Hi; [done|].
  destruct i as [|i]; cbn in *.
  - injection Hi as ->. rewrite Nat.add_0_r. by left.
  - right. replace (start + S i)%nat with (S start + i)%nat by lia. by apply IH.
Qed.

Lemma well_formedb_sound (m : cuckoo_map) :
  Cuckoo.well_formedb CuckooK hashfun m = true → well_formed m.
Proof.
  unfold Cuckoo.well_formedb. rewrite !andb_true_iff.
  intros ((((Hlen & Hnd) & Hill) & Hnum) & Hall).
  apply bool_decide_eq_true in Hlen, Hnd, Hnum.
  apply negb_true_iff, bool_decide_eq_false in Hill.
  split.
  - split_and!; [done|done| |done]. by apply eq_None_not_Some.
  - intros i e He Hlive. unfold Cuckoo.placedb in Hall.
    rewrite forallb_forall in Hall.
    assert (Hin : In (i, e) (zip (seq 0 (datalen m)) (data m))).
    { apply list_elem_of_In. apply (zip_seq_lookup (data m) 0 i e He). }
    apply Hall in Hin. cbn in Hin.
    apply orb_true_iff in Hin as [Hfree|Hcand].
    + by apply bool_decide_eq_true in Hfree.
    + by apply bool_decide_eq_true in Hcand.
Qed.
End CuckooInvariants.

(** A table for keys in [Z] with three hash functions; [-1] is the illegal
    key, as in the ingress classes. *)
Lemma subscript_assign_example :
  ('(m1, it) ← Cuckoo.subscript 3 0 (λ k : Z, k) (λ r : unit, (0%nat, r)) 1 5
                 (Cuckoo.fresh 0 (-1) 8 ());
   let m2 := Cuckoo.assign m1 it 42 in
   '(m3, it') ← Cuckoo.subscript 3 0 (λ k : Z, k) (λ r : unit, (0%nat, r)) 0 5 m2;
   Some (Cuckoo.deref m3 it',
         Cuckoo.count 3 0 (λ k : Z, k) (Cuckoo.erase 3 0 (λ k : Z, k) m3 5) 5))
  = Some (Some (5, 42), false).
Proof. vm_compute. reflexivity. Qed.

Lemma table_round_trip_witness :
  ∃ (f0 : nat) m1 it,
    (∀ fuel, (f0 ≤ fuel)%nat →
       Cuckoo.subscript 3 0 (λ k : Z, k) (λ r : unit, (0%nat, r)) fuel 5
         (Cuckoo.fresh 0 (-1) 8 ()) = Some (m1, it))
    ∧ Cuckoo.well_formed 3 (λ k : Z, k) m1
    ∧ (Z.of_nat (Cuckoo.datalen m1) ≤ Cuckoo.npos →
       let m2 := Cuckoo.assign m1 it 42 in
       Cuckoo.well_formed 3 (λ k : Z, k) m2
       ∧ (∀ fuel,
            Cuckoo.subscript 3 0 (λ k : Z, k) (λ r : unit, (0%nat, r)) fuel 5 m2
            = Some (m2, Cuckoo.find 3 0 (λ k : Z, k) m2 5))
       ∧ Cuckoo.deref m2 (Cuckoo.find 3 0 (λ k : Z, k) m2 5) = Some (5, 42)
       ∧ Cuckoo.count 3 0 (λ k : Z, k) (Cuckoo.erase 3 0 (λ k : Z, k) m2 5) 5
         = false)
    ∧ Cuckoo.count 3 0 (λ k : Z, k)
        (Cuckoo.erase 3 0 (λ k : Z, k) (Cuckoo.fresh 0 (-1) 8 ()) 5) 5 = false.
Proof.
  apply (table_round_trip (Key := Z) 3 0 (λ k : Z, k) (λ r : unit, (0%nat, r))).
  - intros r. cbn. lia.
  - apply (fresh_well_formed (Key := Z) 3 0 (λ k : Z, k)).
  - cbn. lia.
Defined.

(** Five keys with the same three candidate slots and a stash threshold of
    zero: the fifth insertion finds the stash over the threshold and
    resizes from 128 to 192 slots. *)
Lemma rehash_forced_example :
  (m ← Cuckoo.insert_all 3 0 (λ _ : Z, 7) (λ r : unit, (0%nat, r)) 200
         [(1, 10); (2, 20); (3, 30); (4, 40); (5, 50)]
         (Cuckoo.fresh 0 (-1) 0 ());
   Some (Cuckoo.datalen m, Cuckoo.elements m, Cuckoo.size m,
         map_to_list (Cuckoo.stash m)))
  = Some (192%nat, [(1, 10); (3, 30); (2, 20); (5, 50); (4, 40)], 5,
          [(5, 50); (4, 40)]).
Proof. vm_compute. reflexivity. Qed.

Lemma rehash_preservation_witness :
  let kvs : list (Z * Z) := [(1, 10); (2, 20); (3, 30); (4, 40); (5, 50)] in
  ∃ (f0 : nat) m',
    (∀ fuel, (f0 ≤ fuel)%nat →
       Cuckoo.insert_all 3 0 (λ _ : Z, 7) (λ r : unit, (0%nat, r)) fuel kvs
         (Cuckoo.fresh 0 (-1) 0 ()) = Some m')
    ∧ Cuckoo.well_formed 3 (λ _ : Z, 7) m'
    ∧ Cuckoo.elements m' ≡ₚ kvs
    ∧ NoDup (Cuckoo.elements m').*1
    ∧ length (Cuckoo.elements m') = length kvs
    ∧ Cuckoo.size m' = Z.of_nat (length kvs)
    ∧ (∀ k x, (k, x) ∈ kvs →
         Cuckoo.find 3 0 (λ _ : Z, 7) m' k ≠ Cuckoo.end_ m'
         ∧ Cuckoo.deref m' (Cuckoo.find 3 0 (λ _ : Z, 7) m' k) = Some (k, x)).
Proof.
  intros kvs.
  apply (rehash_preservation (Key := Z) 3 0 (λ _ : Z, 7) (λ r : unit, (0%nat, r))).
  - intros r. cbn. lia.
  - apply (bool_decide_unpack (NoDup _)). vm_compute. exact I.
  - repeat constructor; cbn; lia.
  - cbn. unfold size_t_modulus. lia.
Defined.

(** The table of 128 slots that holds the one entry [(5, 42)], at the first
    candidate slot of its key. *)
Lemma insert_keeps_existing_witness :
  let m : Cuckoo.cuckoo_map (Key := Z) (Value := Z) (Rng := unit) :=
    Cuckoo.replace_in_vector (Cuckoo.compute_hash 128 5 0) (5, 42)
      (Cuckoo.set_numel 1 (Cuckoo.fresh 0 (-1) 8 ())) in
  Cuckoo.insert 3 0 (λ k : Z, k) (λ r : unit, (0%nat, r)) 0 (5, 7) m
  = Some (m, Cuckoo.find 3 0 (λ k : Z, k) m 5, false)
  ∧ Cuckoo.deref m (Cuckoo.find 3 0 (λ k : Z, k) m 5) = Some (5, 42).
Proof.
  intros m.
  apply (insert_keeps_existing 3 0 (λ k : Z, k) (λ r : unit, (0%nat, r))
           m 5 42 7 0).
  - apply well_formedb_sound. vm_compute. reflexivity.
  - replace (Cuckoo.elements m) with [(5, 42)] by (vm_compute; reflexivity).
    apply list_elem_of_here.
Defined.

Lemma insert_new_key_witness :
  ∃ (f0 : nat) m' it,
    (∀ fuel, (f0 ≤ fuel)%nat →
       Cuckoo.insert 3 0 (λ k : Z, k) (λ r : unit, (0%nat, r)) fuel (5, 42)
         (Cuckoo.fresh 0 (-1) 8 ()) = Some (m', it, true))
    ∧ Cuckoo.well_formed 3 (λ k : Z, k) m'
    ∧ Cuckoo.elements m' ≡ₚ [(5, 42)]
    ∧ Cuckoo.size m' = 1.
Proof.
  destruct (insert_new_key (Key := Z) 3 0 (λ k : Z, k) (λ r : unit, (0%nat, r))
              (λ r, le_S _ _ (le_S _ _ (le_n 1)))
              (Cuckoo.fresh 0 (-1) 8 ()) 5 42)
    as (f0 & m' & it & Hrun & Hwf & Hel & Hsize & _).
  - apply well_formedb_sound. vm_compute. reflexivity.
  - cbn. lia.
  - vm_compute. reflexivity.
  - exists f0, m', it. split; [exact Hrun|]. split; [exact Hwf|].
    split; [exact Hel|exact Hsize].
Defined.

Lemma erase_removes_one_key_witness :
  let m : Cuckoo.cuckoo_map (Key := Z) (Value := Z) (Rng := unit) :=
    Cuckoo.replace_in_vector (Cuckoo.compute_hash 128 5 0) (5, 42)
      (Cuckoo.set_numel 1 (Cuckoo.fresh 0 (-1) 8 ())) in
  let m' := Cuckoo.erase 3 0 (λ k : Z, k) m 5 in
  Cuckoo.well_formed 3 (λ k : Z, k) m'
  ∧ (5, 42) :: Cuckoo.elements m' ≡ₚ Cuckoo.elements m
  ∧ Cuckoo.size m' = Cuckoo.wrap (Cuckoo.size m - 1).
Proof.
  intros m m'.
  destruct (erase_removes_one_key 3 0 (λ k : Z, k) m 5)
    as (Hwf & _ & Hgone & _).
  - apply well_formedb_sound. vm_compute. reflexivity.
  - cbn. lia.
  - split; [exact Hwf|]. apply Hgone.
    replace (Cuckoo.elements m) with [(5, 42)] by (vm_compute; reflexivity).
    apply list_elem_of_here.
Defined.

Lemma size_counts_elements_witness :
  let m : Cuckoo.cuckoo_map (Key := Z) (Value := Z) (Rng := unit) :=
    Cuckoo.replace_in_vector (Cuckoo.compute_hash 128 5 0) (5, 42)
      (Cuckoo.set_numel 1 (Cuckoo.fresh 0 (-1) 8 ())) in
  Cuckoo.size m = Z.of_nat (length (Cuckoo.elements m))
  ∧ NoDup (Cuckoo.elements m).*1
  ∧ Forall (λ e, e.1 ≠ Cuckoo.illegalkey m) (Cuckoo.elements m).
Proof.
  intros m. apply (size_counts_elements m).
  - apply (proj1 (well_formedb_sound 3 (λ k : Z, k) m eq_refl)).
  - replace (Cuckoo.elements m) with [(5, 42)] by (vm_compute; reflexivity).
    vm_compute. reflexivity.
Defined.

Lemma count_iff_listed_witness :
  let m : Cuckoo.cuckoo_map (Key := Z) (Value := Z) (Rng := unit) :=
    Cuckoo.replace_in_vector (Cuckoo.compute_hash 128 5 0) (5, 42)
      (Cuckoo.set_numel 1 (Cuckoo.fresh 0 (-1) 8 ())) in
  (Cuckoo.count 3 0 (λ k : Z, k) m 5 = true ↔ 5 ∈ (Cuckoo.elements m).*1)
  ∧ (Cuckoo.find 3 0 (λ k : Z, k) m 5 ≠ Cuckoo.end_ m
     ↔ 5 ∈ (Cuckoo.elements m).*1).
Proof.
  intros m. apply (count_iff_listed 3 0 (λ k : Z, k) m 5).
  - apply well_formedb_sound. vm_compute. reflexivity.
  - cbn. lia.
Defined.

Lemma insert_illegal_key_ignored_witness :
  let m : Cuckoo.cuckoo_map (Key := Z) (Value := Z) (Rng := unit) :=
    Cuckoo.fresh 0 (-1) 8 () in
  ∃ idx : Z,
    Cuckoo.find 3 0 (λ k : Z, k) m (Cuckoo.illegalkey m) = Cuckoo.VecIter idx
    ∧ (∀ fuel x,
         Cuckoo.insert 3 0 (λ k : Z, k) (λ r : unit, (0%nat, r)) fuel
           (Cuckoo.illegalkey m, x) m = Some (m, Cuckoo.VecIter idx, false))
    ∧ (∀ fuel,
         Cuckoo.subscript 3 0 (λ k : Z, k) (λ r : unit, (0%nat, r)) fuel
           (Cuckoo.illegalkey m) m = Some (m, Cuckoo.VecIter idx))
    ∧ (∀ v, Cuckoo.elements (Cuckoo.assign m (Cuckoo.VecIter idx) v)
            = Cuckoo.elements m
            ∧ Cuckoo.size (Cuckoo.assign m (Cuckoo.VecIter idx) v)
              = Cuckoo.size m).
Proof.
  intros m.
  apply (insert_illegal_key_ignored 3 0 (λ k : Z, k) (λ r : unit, (0%nat, r))
           m 0%nat).
  - vm_compute. lia.
  - lia.
  - vm_compute. reflexivity.
Defined.

Lemma resize_only_above_threshold_witness :
  let m : Cuckoo.cuckoo_map (Key := Z) (Value := Z) (Rng := unit) :=
    Cuckoo.fresh 0 (-1) 8 () in
  ∃ (f0 : nat) m' it,
    (∀ fuel, (f0 ≤ fuel)%nat →
       Cuckoo.insert 3 0 (λ k : Z, k) (λ r : unit, (0%nat, r)) fuel (5, 42) m
       = Some (m', it, true))
    ∧ (Z.of_nat (base.size (Cuckoo.stash m)) ≤ Cuckoo.maxstash m →
       Cuckoo.datalen m' = Cuckoo.datalen m)
    ∧ (Cuckoo.maxstash m < Z.of_nat (base.size (Cuckoo.stash m)) →
       (Cuckoo.grow (Cuckoo.datalen m) ≤ Cuckoo.datalen m')%nat).
Proof.
  intros m.
  apply (resize_only_above_threshold 3 0 (λ k : Z, k) (λ r : unit, (0%nat, r))
           (λ r, le_S _ _ (le_S _ _ (le_n 1))) m (5, 42)).
  - apply (proj1 (well_formedb_sound 3 (λ k : Z, k) m eq_refl)).
  - cbn. lia.
  - replace (Cuckoo.elements m) with (@nil (Z * Z)) by (vm_compute; reflexivity).
    apply not_elem_of_nil.
Defined.

Lemma clear_resets_witness :
  let m : Cuckoo.cuckoo_map (Key := Z) (Value := Z) (Rng := unit) :=
    Cuckoo.replace_in_vector (Cuckoo.compute_hash 128 5 0) (5, 42)
      (Cuckoo.set_numel 1 (Cuckoo.fresh 0 (-1) 8 ())) in
  ∃ m', Cuckoo.clear 3 0 (λ k : Z, k) (λ r : unit, (0%nat, r)) 129 m = Some m'
        ∧ Cuckoo.construct 3 0 (λ k : Z, k) (λ r : unit, (0%nat, r)) 129
            (Cuckoo.illegalkey m) (Cuckoo.maxstash m) (Cuckoo.drng m) = Some m'
        ∧ Cuckoo.well_formed 3 (λ k : Z, k) m'
        ∧ Cuckoo.datalen m' = 128%nat
        ∧ Cuckoo.size m' = 0 ∧ Cuckoo.elements m' = [].
Proof.
  intros m.
  apply (clear_resets 3 0 (λ k : Z, k) (λ r : unit, (0%nat, r)) m 129).
  apply le_n.
Defined.

Lemma reserve_keeps_lookups_witness :
  let m : Cuckoo.cuckoo_map (Key := Z) (Value := Z) (Rng := unit) :=
    Cuckoo.replace_in_vector (Cuckoo.compute_hash 128 5 0) (5, 42)
      (Cuckoo.set_numel 1 (Cuckoo.fresh 0 (-1) 8 ())) in
  ∃ (f0 : nat) m',
    (∀ fuel gas, (f0 ≤ fuel)%nat → (f0 ≤ gas)%nat →
       Cuckoo.reserve 3 0 (λ k : Z, k)
         (Cuckoo.do_insert 3 0 (λ k : Z, k) (λ r : unit, (0%nat, r)) fuel)
         gas 192 m = Some m')
    ∧ Cuckoo.well_formed 3 (λ k : Z, k) m'
    ∧ (192 ≤ Cuckoo.datalen m')%nat
    ∧ Cuckoo.size m' = Cuckoo.size m
    ∧ (∀ k x, (k, x) ∈ Cuckoo.elements m →
         Cuckoo.find 3 0 (λ k : Z, k) m' k ≠ Cuckoo.end_ m'
         ∧ Cuckoo.deref m' (Cuckoo.find 3 0 (λ k : Z, k) m' k) = Some (k, x)).
Proof.
  intros m.
  apply (reserve_keeps_lookups 3 0 (λ k : Z, k) (λ r : unit, (0%nat, r))
           (λ r, le_S _ _ (le_S _ _ (le_n 1))) m 192).
  - apply (proj1 (well_formedb_sound 3 (λ k : Z, k) m eq_refl)).
  - vm_compute. repeat constructor.
Defined.

Lemma copy_assign_spec_witness :
  let other : Cuckoo.cuckoo_map (Key := Z) (Value := Z) (Rng := unit) :=
    Cuckoo.replace_in_vector (Cuckoo.compute_hash 128 5 0) (5, 42)
      (Cuckoo.set_numel 1 (Cuckoo.fresh 0 (-1) 8 ())) in
  let this := Cuckoo.fresh 0 (-1) 2 () in
  Cuckoo.well_formed 3 (λ k : Z, k) (Cuckoo.copy_assign this other)
  ∧ Cuckoo.elements (Cuckoo.copy_assign this other) = Cuckoo.elements other
  ∧ Cuckoo.maxstash (Cuckoo.copy_assign this other) = 2.
Proof.
  intros other this.
  destruct (copy_assign_spec 3 0 (λ k : Z, k) this other)
    as (Hwf & Hel & _ & _ & Hmax & _).
  split; [|split; [exact Hel|exact Hmax]].
  apply Hwf. apply well_formedb_sound. vm_compute. reflexivity.
Defined.

(** * The deciders: what their callers can rely on *)

Section OracleUse.
Import Oracle.
Variable hash_edge : vertex_id_type * vertex_id_type → N.

(** ** The restricted greedy decider *)

Lemma greedy_scores_candidates_comm u v su sv usehash candidates loads mn mx :
  greedy_scores_candidates u v su sv usehash candidates loads mn mx
  = greedy_scores_candidates v u sv su usehash candidates loads mn mx.
Proof.
  induction candidates as [|i rest IH]; [done|]. cbn.
  destruct (index loads i) as [x|]; [|done]. cbn. rewrite IH.
  destruct (greedy_scores_candidates v u sv su usehash rest loads mn mx); [|done].
  cbn. by rewrite greedy_score_comm.
Qed.

Lemma index_done {A} (v : list A) (i : nat) (x : A) :
  index v i = Done x → v !! i = Some x.
Proof. unfold index. destruct (v !! i); congruence. Qed.

Lemma greedy_scores_candidates_done u v su sv usehash candidates loads mn mx scores :
  greedy_scores_candidates u v su sv usehash candidates loads mn mx = Done scores →
  length scores = length candidates
  ∧ Forall (λ i, (i < length loads)%nat) candidates.
Proof.
  revert scores. induction candidates as [|i rest IH]; intros scores.
  { intros [= <-]. by split. }
  cbn [greedy_scores_candidates]. intros Hrun.
  apply bind_done in Hrun as (x & Hx & Hrun).
  apply bind_done in Hrun as (tl & Htl & Hrun).
  injection Hrun as <-. destruct (IH tl Htl) as [Hlen Hall].
  split; [cbn; by rewrite Hlen|]. constructor; [|done].
  apply index_done in Hx. by eapply lookup_lt_Some.
Qed.

Lemma greedy_scores_candidates_out_of_range u v su sv usehash candidates loads mn mx :
  Exists (λ i, (length loads ≤ i)%nat) candidates →
  greedy_scores_candidates u v su sv usehash candidates loads mn mx
  = Fault OutOfBounds.
Proof.
  induction candidates as [|i rest IH]; intros Hex; [by apply Exists_nil in Hex|].
  cbn. unfold index. destruct (loads !! i) as [x|] eqn:Hi; [|done]. cbn.
  apply Exists_cons in Hex as [Hbad|Hex].
  - apply lookup_lt_Some in Hi. lia.
  - by rewrite (IH Hex).
Qed.

Lemma top_candidates_subset candidates scores maxscore :
  top_candidates candidates scores maxscore ⊆ candidates.
Proof.
  revert scores. induction candidates as [|i rest IH]; intros scores; [done|].
  destruct scores as [|s scores]; [set_solver|]. cbn.
  specialize (IH scores). destruct (tied s maxscore); set_solver.
Qed.

Lemma greedy_scores_candidates_seq u v su sv usehash (n : nat) mn mx
    (loads front : list Z) (k : nat) :
  k = length front → n = length (front ++ loads) →
  greedy_scores_candidates u v su sv usehash
    (seq k (length loads)) (front ++ loads) mn mx
  = Done (imap (λ j, greedy_score u v su sv usehash n mn mx (k + j)%nat) loads).
Proof.
  revert front k. induction loads as [|x loads IH]; intros front k Hk Hn; [done|].
  cbn [length seq greedy_scores_candidates].
  assert (Hx : index (front ++ x :: loads) k = Done x).
  { unfold index. rewrite lookup_app_r by lia.
    by replace (k - length front)%nat with 0%nat by lia. }
  rewrite Hx. cbn [mbind outcome_bind].
  specialize (IH (front ++ [x]) (S k)).
  rewrite <- (assoc (++)) in IH. cbn [app] in IH.
  rewrite IH; [|rewrite length_app; cbn; lia|done].
  cbn [mbind outcome_bind]. rewrite <- Hn. f_equal.
  cbn [imap]. rewrite Nat.add_0_r. f_equal.
  apply imap_ext. intros j y _. cbn. f_equal. lia.
Qed.

Lemma top_candidates_seq (i : nat) (scores : list Double.double)
    (maxscore : Double.double) :
  top_candidates (seq i (length scores)) scores maxscore
  = top_procs_from i scores maxscore.
Proof.
  revert i. induction scores as [|s scores IH]; intros i; [done|].
  cbn. rewrite IH. done.
Qed.

(** What a returned decision of the restricted greedy decider leaves
    behind. *)
Lemma greedy_candidates_effect source target (src_degree dst_degree : ref)
    (bins : gmap ref bin_counts_type) (candidates : list procid_t)
    (proc_num_edges : list Z) (usehash userecent : bool) p bins' loads' :
  edge_to_proc_greedy_candidates hash_edge source target src_degree dst_degree
    bins candidates proc_num_edges usehash userecent = Done (p, bins', loads') →
  p ∈ candidates ∧ (p < length proc_num_edges)%nat
  ∧ bins' = place src_degree dst_degree userecent p bins
  ∧ ∃ x, proc_num_edges !! p = Some x
         ∧ loads' = <[ p := incr x ]> proc_num_edges.
Proof.
  intros Hrun. unfold edge_to_proc_greedy_candidates in Hrun.
  apply bind_done in Hrun as (mn & _ & Hrun).
  apply bind_done in Hrun as (mx & _ & Hrun).
  apply bind_done in Hrun as (scores & _ & Hrun).
  apply bind_done in Hrun as (maxscore & _ & Hrun).
  apply bind_done in Hrun as (best & Hbest & Hrun).
  apply bind_done in Hrun as (l' & Hinc & Hrun).
  injection Hrun as <- <- <-.
  unfold pick_best in Hbest.
  apply bind_done in Hbest as (k & _ & Hbest).
  apply bind_done in Hbest as (q & Hq & Hbest).
  case_decide as Hlt; [|done]. injection Hbest as ->.
  apply index_done in Hq.
  split_and!; [|done|done|by apply increment_done].
  eapply top_candidates_subset. by eapply list_elem_of_lookup_2.
Qed.

(** X13. The restricted greedy decider returns one of the candidates it was
    given, a machine below [numprocs], marks it in the replica sets of both
    endpoints and counts the edge on it; a candidate that is no index of the
    load vector makes it read the vector out of bounds. *)
Theorem greedy_candidates_member source target (src_degree dst_degree : ref)
    (bins : gmap ref bin_counts_type) (candidates : list procid_t)
    (proc_num_edges : list Z) (usehash userecent : bool) :
  (∀ p bins' loads',
     edge_to_proc_greedy_candidates hash_edge source target src_degree
       dst_degree bins candidates proc_num_edges usehash userecent
     = Done (p, bins', loads') →
     p ∈ candidates ∧ (p < length proc_num_edges)%nat
     ∧ bins' = place src_degree dst_degree userecent p bins
     ∧ ∃ x, proc_num_edges !! p = Some x
            ∧ loads' = <[ p := incr x ]> proc_num_edges)
  ∧ (proc_num_edges ≠ [] →
     Exists (λ i, (length proc_num_edges ≤ i)%nat) candidates →
     edge_to_proc_greedy_candidates hash_edge source target src_degree
       dst_degree bins candidates proc_num_edges usehash userecent
     = Fault OutOfBounds).
Proof.
  split; [intros p bins' loads'; apply greedy_candidates_effect|].
  intros Hne Hex. unfold edge_to_proc_greedy_candidates.
  destruct proc_num_edges as [|x rest]; [done|].
  cbn [min_element max_element mbind outcome_bind].
  by rewrite greedy_scores_candidates_out_of_range.
Qed.

(** X14. With every machine as a candidate, in order, the restricted greedy
    decider is the unrestricted one. *)
Theorem greedy_candidates_all_machines source target
    (src_degree dst_degree : ref) (bins : gmap ref bin_counts_type)
    (proc_num_edges : list Z) (usehash userecent : bool) :
  edge_to_proc_greedy_candidates hash_edge source target src_degree dst_degree
    bins (seq 0 (length proc_num_edges)) proc_num_edges usehash userecent
  = edge_to_proc_greedy hash_edge source target src_degree dst_degree
      bins proc_num_edges usehash userecent.
Proof.
  unfold edge_to_proc_greedy_candidates, edge_to_proc_greedy, greedy_top_procs.
  destruct (min_element proc_num_edges) as [mn|]; [|done].
  destruct (max_element proc_num_edges) as [mx|]; [|done].
  cbn [mbind outcome_bind].
  rewrite (greedy_scores_candidates_seq _ _ _ _ _ (length proc_num_edges)
             mn mx proc_num_edges [] 0%nat eq_refl eq_refl).
  cbn [mbind outcome_bind]. fold (greedy_scores source target
    (read_bins bins src_degree) (read_bins bins dst_degree) usehash
    proc_num_edges mn mx).
  destruct (max_element_double _) as [maxscore|]; [|done].
  cbn [mbind outcome_bind].
  replace (seq 0 (length proc_num_edges))
    with (seq 0 (length (greedy_scores source target
            (read_bins bins src_degree) (read_bins bins dst_degree) usehash
            proc_num_edges mn mx)))
    by (unfold greedy_scores; by rewrite length_imap).
  by rewrite top_candidates_seq.
Qed.

(** ** Symmetry, frame and edge cases *)

(** X15. The random decider, its restricted form and both greedy deciders give
    the same result when source and target, with their replica sets, are
    exchanged. *)
Theorem random_and_greedy_symmetric (u v : vertex_id_type) (ru rv : ref)
    (bins : gmap ref bin_counts_type) (candidates : list procid_t)
    (loads : list Z) (usehash userecent : bool) (numprocs : nat) :
  edge_to_proc_random hash_edge u v numprocs
  = edge_to_proc_random hash_edge v u numprocs
  ∧ edge_to_proc_random_candidates hash_edge u v candidates
    = edge_to_proc_random_candidates hash_edge v u candidates
  ∧ edge_to_proc_greedy hash_edge u v ru rv bins loads usehash userecent
    = edge_to_proc_greedy hash_edge v u rv ru bins loads usehash userecent
  ∧ edge_to_proc_greedy_candidates hash_edge u v ru rv bins candidates loads
      usehash userecent
    = edge_to_proc_greedy_candidates hash_edge v u rv ru bins candidates loads
        usehash userecent.
Proof.
  split_and!.
  - apply edge_to_proc_random_comm.
  - apply edge_to_proc_random_candidates_comm.
  - apply edge_to_proc_greedy_comm.
  - unfold edge_to_proc_greedy_candidates.
    destruct (min_element loads) as [mn|]; [|done].
    destruct (max_element loads) as [mx|]; [|done].
    cbn [mbind outcome_bind]. rewrite greedy_scores_candidates_comm.
    destruct (greedy_scores_candidates v u _ _ usehash candidates loads mn mx)
      as [scores|]; [|done].
    cbn [mbind outcome_bind].
    destruct (max_element_double scores) as [maxscore|]; [|done].
    cbn [mbind outcome_bind]. rewrite pick_best_comm.
    destruct (pick_best hash_edge v u _ (length loads)) as [p|]; [|done].
    cbn [mbind outcome_bind]. by rewrite place_comm.
Qed.

(** X16. A decision of the greedy or of the HDRF decider changes the replica
    sets of the two endpoints only, and unless [userecent] is set it takes no
    bit out of them. *)
Theorem replica_sets_frame source target
    (src_degree dst_degree src_true_degree dst_true_degree : ref)
    (bins : gmap ref bin_counts_type) (degs : gmap ref Z)
    (proc_num_edges : list Z) (usehash userecent : bool)
    (p : procid_t) (bins' : gmap ref bin_counts_type) :
  (∃ loads', edge_to_proc_greedy hash_edge source target src_degree dst_degree
               bins proc_num_edges usehash userecent = Done (p, bins', loads'))
  ∨ (∃ degs' loads', edge_to_proc_hdrf hash_edge source target src_degree
                       dst_degree src_true_degree dst_true_degree bins degs
                       proc_num_edges usehash userecent
                     = Done (p, bins', degs', loads')) →
  (∀ r, r ≠ src_degree → r ≠ dst_degree →
        bins' !! r = bins !! r ∧ read_bins bins' r = read_bins bins r)
  ∧ (userecent = false → ∀ r, read_bins bins r ⊆ read_bins bins' r)
  ∧ (∀ r q, q ∈ read_bins bins' r → q = p ∨ q ∈ read_bins bins r).
Proof.
  intros Hrun.
  assert (Hbins : bins' = place src_degree dst_degree userecent p bins).
  { destruct Hrun as [[loads' Hrun]|(degs' & loads' & Hrun)].
    - by apply greedy_decision_effect in Hrun as [? _].
    - by apply hdrf_decision_effect in Hrun as [? _]. }
  subst bins'. split_and!.
  - intros r Hs Hd. split.
    + unfold place, set_bit_at, clear_at.
      destruct userecent; by rewrite !lookup_insert_ne.
    + rewrite (place_read hash_edge). by rewrite decide_False by tauto.
  - intros -> r. rewrite (place_read hash_edge). case_decide; set_solver.
  - intros r q. rewrite (place_read hash_edge).
    case_decide; destruct userecent; set_solver.
Qed.

(** X17. A decision of the HDRF decider adds one to the true degree of each
    endpoint, hence two to the counter of a vertex that is both, and leaves
    every other counter as it is. *)
Theorem hdrf_counts_degrees source target
    (src_degree dst_degree src_true_degree dst_true_degree : ref)
    (bins : gmap ref bin_counts_type) (degs : gmap ref Z)
    (proc_num_edges : list Z) (usehash userecent : bool)
    p bins' degs' loads' :
  edge_to_proc_hdrf hash_edge source target src_degree dst_degree
    src_true_degree dst_true_degree bins degs proc_num_edges usehash userecent
  = Done (p, bins', degs', loads') →
  (src_true_degree ≠ dst_true_degree →
     read_size_t degs' src_true_degree = incr (read_size_t degs src_true_degree)
     ∧ read_size_t degs' dst_true_degree
       = incr (read_size_t degs dst_true_degree))
  ∧ (src_true_degree = dst_true_degree →
     read_size_t degs' src_true_degree
     = incr (incr (read_size_t degs src_true_degree)))
  ∧ (∀ r, r ≠ src_true_degree → r ≠ dst_true_degree →
          read_size_t degs' r = read_size_t degs r).
Proof.
  intros Hrun. apply hdrf_decision_effect in Hrun as (_ & -> & _).
  split_and!.
  - intros Hne. rewrite !count_edge_read. split; repeat case_decide; congruence.
  - intros <-. rewrite count_edge_read. by rewrite !decide_True.
  - intros r Hs Hd. rewrite count_edge_read. repeat case_decide; congruence.
Qed.

(** X18. Without machines there is no decision: the random deciders take a
    remainder by zero, the greedy and HDRF deciders read the least element of
    an empty load vector, and the restricted greedy decider reads the largest
    element of an empty score vector when it is given no candidate. *)
Theorem no_machines_no_decision source target
    (src_degree dst_degree src_true_degree dst_true_degree : ref)
    (bins : gmap ref bin_counts_type) (degs : gmap ref Z)
    (candidates : list procid_t) (proc_num_edges : list Z)
    (usehash userecent : bool) :
  edge_to_proc_random hash_edge source target 0 = Fault DivByZero
  ∧ edge_to_proc_random_candidates hash_edge source target [] = Fault DivByZero
  ∧ edge_to_proc_greedy hash_edge source target src_degree dst_degree bins []
      usehash userecent = Fault EmptyRange
  ∧ edge_to_proc_hdrf hash_edge source target src_degree dst_degree
      src_true_degree dst_true_degree bins degs [] usehash userecent
    = Fault EmptyRange
  ∧ edge_to_proc_greedy_candidates hash_edge source target src_degree
      dst_degree bins candidates [] usehash userecent = Fault EmptyRange
  ∧ (proc_num_edges ≠ [] →
     edge_to_proc_greedy_candidates hash_edge source target src_degree
       dst_degree bins [] proc_num_edges usehash userecent = Fault EmptyRange).
Proof.
  split_and!; try done.
  intros Hne. unfold edge_to_proc_greedy_candidates.
  by destruct proc_num_edges.
Qed.

(** ** Equal loads *)

(** The score of a machine when all loads are equal: the balance is [+0],
    and [c] of the two endpoints count for the machine. *)
Notation held_score c := (Double.add (S754_zero false) (Double.of_Z c)).

Lemma held_score_ltb (a b : Z) :
  0 ≤ a ≤ 2 → 0 ≤ b ≤ 2 →
  Double.ltb (held_score a) (held_score b) = (a <? b).
Proof.
  intros Ha Hb.
  assert (a = 0 ∨ a = 1 ∨ a = 2) as [-> | [-> | ->]] by lia;
    assert (b = 0 ∨ b = 1 ∨ b = 2) as [-> | [-> | ->]] by lia; reflexivity.
Qed.

Lemma held_score_tied (a b : Z) :
  0 ≤ a ≤ 2 → 0 ≤ b ≤ 2 →
  tied (held_score a) (held_score b) = (a =? b).
Proof.
  intros Ha Hb.
  assert (a = 0 ∨ a = 1 ∨ a = 2) as [-> | [-> | ->]] by lia;
    assert (b = 0 ∨ b = 1 ∨ b = 2) as [-> | [-> | ->]] by lia; reflexivity.
Qed.

Lemma balance_equal_loads (L : Z) :
  0 ≤ L → L + 1 < 2 ^ 53 → balance L L L = S754_zero false.
Proof.
  intros H0 Hsmall. unfold balance, epsilon.
  rewrite denominator_exact by lia.
  rewrite Z.sub_diag. replace (L + 1 - L) with 1 by lia. reflexivity.
Qed.

Lemma imap_replicate_seq {A B} (g : nat → A → B) (n : nat) (x : A) :
  imap g (replicate n x) = (λ i, g i x) <$> seq 0 n.
Proof.
  revert g. induction n as [|n IH]; intros g; [done|].
  cbn [replicate imap seq fmap list_fmap]. f_equal.
  rewrite IH. rewrite <- fmap_S_seq, <- list_fmap_compose. done.
Qed.

Lemma held_score_max (c : nat → Z) (js : list nat) (c0 : Z) :
  (∀ j, 0 ≤ c j ≤ 2) → 0 ≤ c0 ≤ 2 →
  fold_left (λ largest y, if Double.ltb largest y then y else largest)
    ((λ j, held_score (c j)) <$> js) (held_score c0)
  = held_score (fold_left Z.max (c <$> js) c0).
Proof.
  intros Hc. revert c0. induction js as [|j js IH]; intros c0 Hc0; [done|].
  cbn [fmap list_fmap fold_left]. rewrite held_score_ltb by done.
  destruct (Z.ltb_spec c0 (c j)).
  - rewrite IH by done. do 3 f_equal. lia.
  - rewrite IH by done. do 3 f_equal. lia.
Qed.

Lemma held_score_top (c : nat → Z) (cmax : Z) (k i p : nat) :
  (∀ j, 0 ≤ c j ≤ 2) → 0 ≤ cmax ≤ 2 →
  p ∈ top_procs_from i ((λ j, held_score (c j)) <$> seq i k) (held_score cmax) →
  c p = cmax.
Proof.
  intros Hc Hmax. revert i. induction k as [|k IH]; intros i.
  { by intros ?%elem_of_nil. }
  cbn [seq fmap list_fmap top_procs_from]. rewrite held_score_tied by done.
  destruct (Z.eqb_spec (c i) cmax) as [Heq|Hne].
  - intros [->|Hin]%elem_of_cons; [done|]. by apply (IH (S i)).
  - apply (IH (S i)).
Qed.

(** X19. With equal loads, small enough to be converted exactly, the greedy
    decider sends an edge to a machine that counts for as many of its
    endpoints as any machine does: one holding a replica of both (or being
    the hash machine of it, under [usehash]) if there is one, else one
    counting for one endpoint if there is one. *)
Theorem greedy_equal_loads_prefers_replicas source target
    (src_degree dst_degree : ref) (bins : gmap ref bin_counts_type)
    (n : nat) (L : Z) (usehash userecent : bool) :
  (0 < n)%nat → 0 ≤ L → L + 1 < 2 ^ 53 →
  let held i :=
    Z.b2z (credited usehash n source (read_bins bins src_degree) i)
    + Z.b2z (credited usehash n target (read_bins bins dst_degree) i) in
  ∃ p bins' loads',
    edge_to_proc_greedy hash_edge source target src_degree dst_degree bins
      (replicate n L) usehash userecent = Done (p, bins', loads')
    ∧ (p < n)%nat
    ∧ ∀ i, (i < n)%nat → held i ≤ held p.
Proof.
  intros Hn H0 Hsmall held.
  assert (Hne : replicate n L ≠ []) by (destruct n; [lia|done]).
  assert (Hloads : small_loads (replicate n L)).
  { apply Forall_replicate. lia. }
  destruct (edge_to_proc_greedy_total hash_edge source target src_degree
              dst_degree bins (replicate n L) usehash userecent Hne Hloads)
    as (top & p & bins' & loads' & Htop & _ & Hrun & Hin & Hlt).
  rewrite length_replicate in Hlt.
  exists p, bins', loads'. split; [done|]. split; [done|].
  assert (Hheld : ∀ j, 0 ≤ held j ≤ 2) by (intros j; apply b2z_sum_range).
  unfold greedy_top_procs in Htop.
  destruct (min_max_element_spec (replicate n L) Hne)
    as (mn & mx & Hmn & Hmx & Hmnin & Hmxin & _).
  apply elem_of_replicate in Hmnin as [-> _], Hmxin as [-> _].
  rewrite Hmn, Hmx in Htop. cbn [mbind outcome_bind] in Htop.
  assert (Hscores : greedy_scores source target (read_bins bins src_degree)
                      (read_bins bins dst_degree) usehash (replicate n L) L L
                    = (λ j, held_score (held j)) <$> seq 0 n).
  { unfold greedy_scores. rewrite imap_replicate_seq, length_replicate.
    apply list_fmap_ext. intros _ j _. unfold greedy_score.
    rewrite balance_equal_loads by done. by rewrite !presence_pos. }
  rewrite Hscores in Htop.
  destruct n as [|n]; [lia|].
  cbn [seq fmap list_fmap max_element_double mbind outcome_bind] in Htop.
  rewrite held_score_max in Htop by done.
  injection Htop as <-.
  destruct (fold_left_max_spec (held <$> seq 1 n) (held 0%nat))
    as [[Hfirst Hrest] Hmaxin].
  set (cmax := fold_left Z.max (held <$> seq 1 n) (held 0%nat)) in *.
  assert (Hcmax : 0 ≤ cmax ≤ 2).
  { apply elem_of_cons in Hmaxin as [->|(j & -> & _)%list_elem_of_fmap]; done. }
  assert (Hp : held p = cmax).
  { apply (held_score_top held cmax (S n) 0 p Hheld Hcmax). exact Hin. }
  intros i Hi. rewrite Hp.
  destruct i as [|i]; [done|].
  apply Hrest. apply list_elem_of_fmap. exists (S i). split; [done|].
  apply elem_of_seq. lia.
Qed.

End OracleUse.

(** Machine 2 holds a replica of vertex 10; the hash of every edge is 0. *)
Lemma greedy_candidates_member_witness :
  let bins : gmap Oracle.ref bin_counts_type := {[ 10%N := {[ 2%nat ]}; 7%N := ∅ ]} in
  Oracle.edge_to_proc_greedy_candidates (λ _, 0%N) 10%N 7%N 10%N 7%N bins
    [0%nat; 5%nat] [3; 1] false true = Fault OutOfBounds.
Proof.
  intros bins.
  apply (proj2 (greedy_candidates_member (λ _, 0%N) 10%N 7%N 10%N 7%N bins
                  [0%nat; 5%nat] [3; 1] false true)).
  - discriminate.
  - apply Exists_cons_tl, Exists_cons_hd. cbn. lia.
Defined.

Lemma replica_sets_frame_witness :
  let bins : gmap Oracle.ref bin_counts_type := {[ 10%N := {[ 2%nat ]}; 7%N := ∅ ]} in
  let bins' := Oracle.place 10%N 7%N false 2%nat bins in
  Oracle.edge_to_proc_greedy (λ _, 0%N) 10%N 7%N 10%N 7%N bins [5; 5; 5]
    false false = Done (2%nat, bins', [5; 5; 6])
  ∧ (∀ r, r ≠ 10%N → r ≠ 7%N →
       bins' !! r = bins !! r
       ∧ Oracle.read_bins bins' r = Oracle.read_bins bins r)
  ∧ (false = false →
     ∀ r, Oracle.read_bins bins r ⊆ Oracle.read_bins bins' r)
  ∧ (∀ r q, q ∈ Oracle.read_bins bins' r →
       q = 2%nat ∨ q ∈ Oracle.read_bins bins r).
Proof.
  intros bins bins'.
  assert (H : Oracle.edge_to_proc_greedy (λ _, 0%N) 10%N 7%N 10%N 7%N bins
                [5; 5; 5] false false = Done (2%nat, bins', [5; 5; 6]))
    by (vm_compute; reflexivity).
  split; [exact H|].
  apply (replica_sets_frame (λ _, 0%N) 10%N 7%N 10%N 7%N 10%N 7%N bins ∅
           [5; 5; 5] false false 2%nat bins').
  left. exists [5; 5; 6]. exact H.
Defined.

(** A self-loop on vertex 7: its counter goes from 0 to 2. *)
Lemma hdrf_counts_degrees_witness :
  let bins' := Oracle.place 7%N 7%N false 1%nat ∅ in
  let degs' := Oracle.count_edge 7%N 7%N ∅ in
  Oracle.edge_to_proc_hdrf (λ _, 1%N) 7%N 7%N 7%N 7%N 7%N 7%N ∅ ∅ [0; 0]
    false false = Done (1%nat, bins', degs', [0; 1])
  ∧ Oracle.read_size_t degs' 7%N = 2.
Proof.
  intros bins' degs'.
  assert (H : Oracle.edge_to_proc_hdrf (λ _, 1%N) 7%N 7%N 7%N 7%N 7%N 7%N ∅ ∅
                [0; 0] false false = Done (1%nat, bins', degs', [0; 1]))
    by (vm_compute; reflexivity).
  split; [exact H|].
  destruct (hdrf_counts_degrees (λ _, 1%N) 7%N 7%N 7%N 7%N 7%N 7%N ∅ ∅
              [0; 0] false false 1%nat bins' degs' [0; 1] H)
    as (_ & Hself & _).
  exact (Hself eq_refl).
Defined.

Lemma no_machines_no_decision_witness :
  Oracle.edge_to_proc_greedy_candidates (λ _, 0%N) 10%N 7%N 10%N 7%N ∅ []
    [3; 1] false false = Fault EmptyRange.
Proof.
  apply (proj2 (proj2 (proj2 (proj2 (proj2
           (no_machines_no_decision (λ _, 0%N) 10%N 7%N 10%N 7%N 10%N 7%N
              ∅ ∅ [] [3; 1] false false)))))).
  discriminate.
Defined.

(** Three machines with five edges each; machine 2 holds a replica of
    vertex 10. *)
Lemma greedy_equal_loads_prefers_replicas_witness :
  let bins : gmap Oracle.ref bin_counts_type := {[ 10%N := {[ 2%nat ]}; 7%N := ∅ ]} in
  let held i :=
    Z.b2z (Oracle.credited false 3 10%N (Oracle.read_bins bins 10%N) i)
    + Z.b2z (Oracle.credited false 3 7%N (Oracle.read_bins bins 7%N) i) in
  ∃ p bins' loads',
    Oracle.edge_to_proc_greedy (λ _, 0%N) 10%N 7%N 10%N 7%N bins
      (replicate 3 5) false false = Done (p, bins', loads')
    ∧ (p < 3)%nat
    ∧ ∀ i, (i < 3)%nat → held i ≤ held p.
Proof.
  intros bins.
  apply (greedy_equal_loads_prefers_replicas (λ _, 0%N) 10%N 7%N 10%N 7%N
           bins 3 5 false false).
  - lia.
  - lia.
  - reflexivity.
Defined.

(** * The front-ends: what their tables record *)

Section IngressUse.
Import Oracle.
Variable hash_edge : vertex_id_type * vertex_id_type → N.
Context {EdgeData : Type}.

Notation total v := (foldr Z.add 0 v).



Section HdrfTables.
Import HdrfIngress.

Notation hdrf_inv numprocs n st :=
  (length (proc_num_edges st) = numprocs
   ∧ Forall (λ x, 0 ≤ x) (proc_num_edges st)
   ∧ total (proc_num_edges st) = n
   ∧ ∀ r, 0 ≤ read_size_t (degree_dht st) r ≤ 2 * n).




End HdrfTables.

Section ObliviousTables.
Import ObliviousIngress.

Notation obl_inv numprocs n st :=
  (length (proc_num_edges st) = numprocs
   ∧ Forall (λ x, 0 ≤ x) (proc_num_edges st)
   ∧ total (proc_num_edges st) = n).




End ObliviousTables.

End IngressUse.



(** * The cuckoo map: where a lookup is defined *)

Section CuckooProbe.

Context `{Countable Key} {Value Rng : Type}.
Variable CuckooK : nat.
Variable mapped_type_zero : Value.
Variable hashfun : Key → Z.

Notation cuckoo_map := (Cuckoo.cuckoo_map (Key := Key) (Value := Value) (Rng := Rng)).

Lemma probe_compute_hash_done (datalen : nat) (k : Z) (seed : nat) :
  (0 < datalen)%nat → (seed < 8)%nat →
  Probe.compute_hash datalen k seed = Done (Cuckoo.compute_hash datalen k seed).
Proof.
  intros Hlen Hseed. unfold Probe.compute_hash, Cuckoo.compute_hash, Oracle.index.
  destruct (Cuckoo.a !! seed) as [x|] eqn:Hx.
  - cbn [mbind outcome_bind]. rewrite decide_False by lia.
    by rewrite (nth_lookup_Some _ _ 0 _ Hx).
  - apply lookup_ge_None in Hx. cbn [length Cuckoo.a] in Hx. lia.
Qed.

Lemma probe_compute_hash_no_slot (k : Z) (seed : nat) :
  (seed < 8)%nat → Probe.compute_hash 0 k seed = Fault DivByZero.
Proof.
  intros Hseed. unfold Probe.compute_hash, Oracle.index.
  destruct (Cuckoo.a !! seed) as [x|] eqn:Hx; [done|].
  apply lookup_ge_None in Hx. cbn [length Cuckoo.a] in Hx. lia.
Qed.

Lemma probe_find_slot_done (m : cuckoo_map) (k : Key) (h : Z) (seeds : list nat) :
  (0 < Cuckoo.datalen m)%nat → Forall (λ i, (i < 8)%nat) seeds →
  Probe.find_slot m k h seeds
  = Done (Cuckoo.find_slot mapped_type_zero m k h seeds).
Proof.
  intros Hlen. induction 1 as [|i rest Hi _ IH]; [done|].
  cbn [Probe.find_slot Cuckoo.find_slot].
  rewrite probe_compute_hash_done by done.
  cbn [mbind outcome_bind].
  pose proof (compute_hash_range (Cuckoo.datalen m) h i Hlen) as Hrange.
  unfold Oracle.index, Cuckoo.slot.
  destruct (Cuckoo.data m !! Z.to_nat (Cuckoo.compute_hash (Cuckoo.datalen m) h i))
    as [e|] eqn:He.
  - cbn [mbind outcome_bind default]. change (id e) with e.
    case_decide; [reflexivity|exact IH].
  - apply lookup_ge_None in He. unfold Cuckoo.datalen in *. lia.
Qed.

(** X22. On a table whose vector has a slot, and with at most eight candidate
    slots per key, [find] and [count] run into none of the reads the source
    leaves undefined: both return, with the results of the probe over the
    candidate slots. *)
Theorem lookup_defined (m : cuckoo_map) (k : Key) :
  (0 < Cuckoo.datalen m)%nat → (CuckooK ≤ 8)%nat →
  Probe.find CuckooK hashfun m k
  = Done (Cuckoo.find CuckooK mapped_type_zero hashfun m k)
  ∧ Probe.count CuckooK hashfun m k
    = Done (Cuckoo.count CuckooK mapped_type_zero hashfun m k).
Proof.
  intros Hlen HK.
  assert (Hseeds : Forall (λ i, (i < 8)%nat) (seq 0 CuckooK)).
  { apply Forall_forall. intros i Hi%elem_of_seq. lia. }
  unfold Probe.find, Probe.count, Cuckoo.find, Cuckoo.count.
  rewrite (probe_find_slot_done m k (hashfun k) _ Hlen Hseeds).
  cbn [mbind outcome_bind].
  by destruct (Cuckoo.find_slot mapped_type_zero m k (hashfun k) (seq 0 CuckooK)).
Qed.

(** X23. A table whose vector has no slot cannot be asked anything: [find] and
    [count] divide by zero on the first candidate slot, whatever the key.
    This is the state a table is in after it was assigned to itself. *)
Theorem lookup_without_slots_divides_by_zero (m : cuckoo_map) (k : Key) :
  (1 ≤ CuckooK)%nat →
  (Cuckoo.datalen m = 0%nat →
   Probe.find CuckooK hashfun m k = Fault DivByZero
   ∧ Probe.count CuckooK hashfun m k = Fault DivByZero)
  ∧ Probe.find CuckooK hashfun (Cuckoo.self_assign m) k = Fault DivByZero
  ∧ Probe.count CuckooK hashfun (Cuckoo.self_assign m) k = Fault DivByZero.
Proof.
  intros HK.
  assert (Hgen : ∀ m' : cuckoo_map, Cuckoo.datalen m' = 0%nat →
            Probe.find CuckooK hashfun m' k = Fault DivByZero
            ∧ Probe.count CuckooK hashfun m' k = Fault DivByZero).
  { intros m' Hlen. unfold Probe.find, Probe.count.
    destruct CuckooK as [|K']; [lia|].
    cbn [seq Probe.find_slot]. rewrite Hlen.
    rewrite probe_compute_hash_no_slot by lia. done. }
  split; [apply Hgen|]. by apply Hgen.
Qed.

End CuckooProbe.

Lemma lookup_defined_witness :
  Probe.find 3 (λ k : Z, k)
    (Cuckoo.replace_in_vector (Cuckoo.compute_hash 128 5 0) (5, 42)
       (Cuckoo.set_numel 1 (Cuckoo.fresh 0 (-1) 8 ()))) 5
  = Done (Cuckoo.VecIter (Cuckoo.compute_hash 128 5 0))
  ∧ Probe.count 3 (λ k : Z, k)
      (Cuckoo.replace_in_vector (Cuckoo.compute_hash 128 5 0) (5, 42)
         (Cuckoo.set_numel 1 (Cuckoo.fresh 0 (-1) 8 ()))) 7
    = Done false.
Proof.
  split.
  - refine (eq_trans
      (proj1 (lookup_defined (Key := Z) 3 0 (λ k : Z, k)
                (Cuckoo.replace_in_vector (Cuckoo.compute_hash 128 5 0) (5, 42)
                   (Cuckoo.set_numel 1 (Cuckoo.fresh 0 (-1) 8 ()))) 5 _ _)) _).
    + vm_compute. lia.
    + lia.
    + vm_compute. reflexivity.
  - refine (eq_trans
      (proj2 (lookup_defined (Key := Z) 3 0 (λ k : Z, k)
                (Cuckoo.replace_in_vector (Cuckoo.compute_hash 128 5 0) (5, 42)
                   (Cuckoo.set_numel 1 (Cuckoo.fresh 0 (-1) 8 ()))) 7 _ _)) _).
    + vm_compute. lia.
    + lia.
    + vm_compute. reflexivity.
Defined.

Lemma lookup_without_slots_divides_by_zero_witness :
  Probe.find 3 (λ k : Z, k)
    (Cuckoo.self_assign
       (Cuckoo.replace_in_vector (Cuckoo.compute_hash 128 5 0) (5, 42)
          (Cuckoo.set_numel 1 (Cuckoo.fresh 0 (-1) 8 ())))) 5
  = Fault DivByZero
  ∧ Probe.count 3 (λ k : Z, k)
      (Cuckoo.self_assign
         (Cuckoo.replace_in_vector (Cuckoo.compute_hash 128 5 0) (5, 42)
            (Cuckoo.set_numel 1 (Cuckoo.fresh 0 (-1) 8 ())))) 5
    = Fault DivByZero.
Proof.
  exact (proj2 (lookup_without_slots_divides_by_zero (Key := Z) 3 (λ k : Z, k)
                  (Cuckoo.replace_in_vector (Cuckoo.compute_hash 128 5 0) (5, 42)
                     (Cuckoo.set_numel 1 (Cuckoo.fresh 0 (-1) 8 ())))
                  5 (le_S _ _ (le_S _ _ (le_n 1))))).
Defined.
